(** * Presentation Exchange: requirement evaluation, filters and submission
      assembly of [pkg/doc/presexch/definition.go]

    A shallow embedding of the matching core.  Go strings are byte strings
    ([string]), Go [int]s are [Z] (no arithmetic on them overflows here),
    Go maps are [gmap]s, and [[]*verifiable.Credential] is a list of
    credential values wherever the code only reads through the pointers;
    the submission assembler, which writes [credential.ID] through the
    pointer, works on an explicit store.  External collaborators (JSONPath,
    JSON Schema, JWT parsing, JSON-LD contexts, sjson/gjson) are interfaces. *)

From Stdlib Require Import ZArith Ascii String DecimalString.
From stdpp Require Import base option list sorting strings gmap.

Set Warnings "-register-all,-clear-no-such-hyp".

Local Open Scope Z_scope.

(** ** Constants *)

Definition Selection := string.
Definition Preference := string.

Definition All : Selection := "all".
Definition Pick : Selection := "pick".
Definition Required : Preference := "required".
Definition Preferred : Preference := "preferred".

Definition tmpEnding : string := "tmp_unique_id_".
Definition credentialSchema : string := "credentialSchema".

Definition FormatJWT : string := "jwt".
Definition FormatJWTVC : string := "jwt_vc".
Definition FormatJWTVP : string := "jwt_vp".
Definition FormatLDP : string := "ldp".
Definition FormatLDPVC : string := "ldp_vc".
Definition FormatLDPVP : string := "ldp_vp".

(** [(v *Preference).isRequired]: a nil pointer is not required. *)
Definition isRequired (v : option Preference) : bool :=
  match v with
  | None => false
  | Some p => String.eqb p Required
  end.

(** ** JSON values ([interface{}] after [json.Unmarshal]) *)

Inductive JSON : Type :=
| JNull
| JBool (b : bool)
| JNum (z : Z)
| JStr (s : string)
| JArr (l : list JSON)
| JObj (m : list (string * JSON)).

(** [m[k]] on a [map[string]interface{}]. *)
Fixpoint objLookup (k : string) (m : list (string * JSON)) : option JSON :=
  match m with
  | [] => None
  | (k', v) :: m' => if String.eqb k k' then Some v else objLookup k m'
  end.

(** ** Data model *)

Module JwtType.
Record t := mk { Alg : list string }.
End JwtType.

Module LdpType.
Record t := mk { ProofType : list string }.
End LdpType.

Module Format.
Record t := mk {
  Jwt : option JwtType.t;
  JwtVC : option JwtType.t;
  JwtVP : option JwtType.t;
  Ldp : option LdpType.t;
  LdpVC : option LdpType.t;
  LdpVP : option LdpType.t }.
End Format.

Module Schema.
Record t := mk { URI : string; Required : bool }.
End Schema.

(** [StrOrInt] and the JSON-shaped members are [JSON] values; the filter is
    only handed to the JSON Schema validator. *)
Module Filter.
Record t := mk {
  Type_ : option string;
  Format : string;
  Pattern : string;
  Minimum : option JSON;
  Maximum : option JSON;
  MinLength : Z;
  MaxLength : Z;
  ExclusiveMinimum : option JSON;
  ExclusiveMaximum : option JSON;
  Const : option JSON;
  Enum : list JSON;
  Not : option JSON;
  Contains : option JSON }.
End Filter.

Module Holder.
Record t := mk { FieldID : list string; Directive : option Preference }.
End Holder.

Module Field.
Record t := mk {
  Path : list string;
  ID : string;
  Purpose : string;
  Filter : option Filter.t;
  Predicate : option Preference;
  IntentToRetain : bool }.
End Field.

Module Constraints.
Record t := mk {
  LimitDisclosure : option Preference;
  SubjectIsIssuer : option Preference;
  IsHolder : list Holder.t;
  Fields : list Field.t }.
End Constraints.

Module InputDescriptor.
Record t := mk {
  ID : string;
  Group : list string;
  Name : string;
  Purpose : string;
  Metadata : option JSON;
  Schema : option (list Schema.t);
  Constraints : option Constraints.t;
  Format : option Format.t }.
End InputDescriptor.

Module SubmissionRequirement.
Inductive t := mk {
  Name : string;
  Purpose : string;
  Rule : Selection;
  Count : Z;
  Min : Z;
  Max : Z;
  From : string;
  FromNested : list t }.
End SubmissionRequirement.

Module requirement.
Inductive t := mk {
  Name : string;
  Purpose : string;
  Rule : Selection;
  Count : Z;
  Min : Z;
  Max : Z;
  InputDescriptors : list InputDescriptor.t;
  Nested : list t }.
End requirement.

(** [verifiable.Credential], the fields the core reads or writes. *)
Module Credential.
Record t := mk {
  ID : string;
  Context : list string;
  Types : list string;
  Subject : JSON;
  JWT : string;
  Proofs : list (list (string * JSON)) }.
End Credential.

(** ** Requirement tree builder *)

Definition isLenApplicable (r : requirement.t) (val : Z) : bool :=
  if (requirement.Count r >? 0) && negb (val =? requirement.Count r) then false
  else if (requirement.Min r >? 0) && (requirement.Min r >? val) then false
  else if (requirement.Max r >? 0) && (requirement.Max r <? val) then false
  else true.

Fixpoint contains (data : list string) (e : string) : bool :=
  match data with
  | [] => false
  | el :: data' => if String.eqb el e then true else contains data' e
  end.

Definition len {A} (l : list A) : Z := Z.of_nat (length l).

(** Errors of the builder and of the evaluator.  [ErrFilter] carries whatever
    the per-descriptor pipeline reported. *)
Inductive error :=
| ErrNoCredentials
| ErrNoDescriptorsForFrom (from : string)
| ErrFilter (msg : string).

Fixpoint toRequirement (sr : SubmissionRequirement.t) (descriptors : list InputDescriptor.t)
  : error + requirement.t :=
  match sr with
  | SubmissionRequirement.mk name purpose rule cnt mn mx from fromNested =>
    let finish (inputDescriptors : list InputDescriptor.t) (nested : list requirement.t)
               (totalCount : Z) :=
      let count := if String.eqb rule All then totalCount else cnt in
      requirement.mk name purpose rule count mn mx inputDescriptors nested in
    if negb (String.eqb from "") then
      let inputDescriptors :=
        List.filter (fun d => contains (InputDescriptor.Group d) from) descriptors in
      let totalCount := len inputDescriptors in
      if totalCount =? 0 then inl (ErrNoDescriptorsForFrom from)
      else inr (finish inputDescriptors [] totalCount)
    else
      let fix nestedLoop (srs : list SubmissionRequirement.t) (nested : list requirement.t)
        : error + list requirement.t :=
        match srs with
        | [] => inr nested
        | sReq :: srs' =>
          match toRequirement sReq descriptors with
          | inl err => inl err
          | inr req => nestedLoop srs' (nested ++ [req])
          end
        end in
      match nestedLoop fromNested [] with
      | inl err => inl err
      | inr nested => inr (finish [] nested (len nested))
      end
  end.

(** The loop shared by [makeRequirement] and [makeRequirementsForMatch]. *)
Fixpoint toRequirements (requirements : list SubmissionRequirement.t)
    (descriptors : list InputDescriptor.t) (acc : list requirement.t)
  : error + list requirement.t :=
  match requirements with
  | [] => inr acc
  | submissionRequirement :: rest =>
    match toRequirement submissionRequirement descriptors with
    | inl err => inl err
    | inr r => toRequirements rest descriptors (acc ++ [r])
    end
  end.

Definition makeRequirement (requirements : list SubmissionRequirement.t)
    (descriptors : list InputDescriptor.t) : error + requirement.t :=
  if len requirements =? 0 then
    inr (requirement.mk "" "" "" (len descriptors) 0 0 descriptors [])
  else
    match toRequirements requirements descriptors [] with
    | inl err => inl err
    | inr nested => inr (requirement.mk "" "" "" (len requirements) 0 0 [] nested)
    end.

Definition makeRequirementsForMatch (requirements : list SubmissionRequirement.t)
    (descriptors : list InputDescriptor.t) : error + list requirement.t :=
  if len requirements =? 0 then
    inr [requirement.mk "" "" All (len descriptors) 0 0 descriptors []]
  else toRequirements requirements descriptors [].

(** ** Go string helpers *)

(** [strings.Index(s, substr)]: index of the first occurrence, or -1. *)
Fixpoint strings_Index_from (s substr : string) (i : Z) : Z :=
  if String.prefix substr s then i
  else match s with
       | EmptyString => -1
       | String _ s' => strings_Index_from s' substr (i + 1)
       end.

Definition strings_Index (s substr : string) : Z := strings_Index_from s substr 0.

Definition strings_Contains (s substr : string) : bool := strings_Index s substr >=? 0.

(** [s[:idx]] *)
Definition sliceTo (s : string) (idx : Z) : string := String.substring 0 (Z.to_nat idx) s.

(** [fmt.Sprintf("%d", n)] for a non-negative [n]. *)
Definition Sprintf_d (n : nat) : string := NilZero.string_of_uint (Nat.to_uint n).

(** [c] is one of the bytes of [s]. *)
Fixpoint occurs (c : ascii) (s : string) : bool :=
  match s with
  | EmptyString => false
  | String a s' => Ascii.eqb a c || occurs c s'
  end.

(** ** Transient credential ids *)

(** [uuid] is the value of [uuid.New().String()]. *)
Definition tmpID (id uuid : string) : string := id +:+ tmpEnding +:+ uuid.

Definition trimTmpID (id : string) : string :=
  let idx := strings_Index id tmpEnding in
  if idx =? -1 then id else sliceTo id idx.

(** ** External collaborators *)

(** [github.com/PaesslerAG/jsonpath]: [Get] returns a value or an error
    ([None]).  A path of keys and indices errs when it has no match; a path
    with a wildcard, a filter or a descent returns the list of its matches,
    which is empty, with no error, when it has none. *)
Class JSONPathEvaluator := {
  jsonpath_Get : string → JSON → option JSON }.

(** [encoding/json] and [gojsonschema]: marshalling gives the raw bytes or an
    error message; validation errs ([None]) or reports [result.Valid()]. *)
Class JSONSchemaValidator := {
  json_Marshal : JSON → string + string;
  gojsonschema_Validate : Filter.t → string → option bool }.

(** [jwt.Parse] without signature check, followed by [Headers.Algorithm()];
    and [strings.EqualFold]. *)
Class JWTParser := {
  jwt_Parse : string → option (string * bool);
  strings_EqualFold : string → string → bool }.

(** [ld.DocumentLoader] and the parts of [ld.Context] the schema gate calls. *)
Class JSONLD := {
  ldContext : Type;
  LoadDocument : string → option JSON;
  NewContext_Parse : JSON → option ldContext;
  Context_Parse : ldContext → JSON → option ldContext;
  GetTermDefinition : ldContext → string → option (list (string * JSON));
  ExpandIri : ldContext → string → option string }.

(** ** Field filter *)

Inductive fieldError :=
| errPathNotApplicable
| errMarshal (msg : string).

Section FieldFilter.
Context `{JSONPathEvaluator} `{JSONSchemaValidator}.

(** [nil] is [None]. *)
Definition validatePatch (schema : option Filter.t) (patch : JSON) : option fieldError :=
  match schema with
  | None => None
  | Some sch =>
    match json_Marshal patch with
    | inl msg => Some (errMarshal msg)
    | inr raw =>
      match gojsonschema_Validate sch raw with
      | Some true => None
      | _ => Some errPathNotApplicable
      end
    end
  end.

Fixpoint filterField_loop (schema : option Filter.t) (paths : list string)
    (credential : JSON) (lastErr : option fieldError) : option fieldError :=
  match paths with
  | [] => lastErr
  | path :: rest =>
    match jsonpath_Get path credential with
    | Some patch =>
      match validatePatch schema patch with
      | None => None
      | Some err => filterField_loop schema rest credential (Some err)
      end
    | None => filterField_loop schema rest credential (Some errPathNotApplicable)
    end
  end.

Definition filterField (f : Field.t) (credential : JSON) : option fieldError :=
  filterField_loop (Field.Filter f) (Field.Path f) credential None.

(** The filter lets [patch] through: there is no filter, or the marshalled
    value validates. *)
Definition filterAccepts (schema : option Filter.t) (patch : JSON) : Prop :=
  schema = None
  ∨ ∃ sch raw, schema = Some sch ∧ json_Marshal patch = inr raw
               ∧ gojsonschema_Validate sch raw = Some true.

(** The filter does not let [patch] through, and [err] is what is recorded:
    the marshalling error, or path-not-applicable when the validation errs or
    reports the value invalid. *)
Definition filterRejects (schema : option Filter.t) (patch : JSON) (err : fieldError)
  : Prop :=
  ∃ sch, schema = Some sch
         ∧ ((∃ msg, json_Marshal patch = inl msg ∧ err = errMarshal msg)
            ∨ (∃ raw, json_Marshal patch = inr raw
                      ∧ gojsonschema_Validate sch raw ≠ Some true
                      ∧ err = errPathNotApplicable)).

(** A path that does not make the field applicable: its evaluation errs, or
    it evaluates to a value the filter does not let through. *)
Definition notApplicable (schema : option Filter.t) (credential : JSON) (path : string)
  : Prop :=
  jsonpath_Get path credential = None
  ∨ ∃ patch err, jsonpath_Get path credential = Some patch
                 ∧ filterRejects schema patch err.
End FieldFilter.

(** ** Format filter *)

Definition Format_notNil (f : option Format.t) : bool :=
  match f with
  | None => false
  | Some f =>
    bool_decide (is_Some (Format.Jwt f)) || bool_decide (is_Some (Format.JwtVC f))
    || bool_decide (is_Some (Format.JwtVP f)) || bool_decide (is_Some (Format.Ldp f))
    || bool_decide (is_Some (Format.LdpVC f)) || bool_decide (is_Some (Format.LdpVP f))
  end.

Fixpoint hasProofWithType_loop (proofs : list (list (string * JSON))) (proofType : string)
  : bool :=
  match proofs with
  | [] => false
  | proof :: rest =>
    match objLookup "type" proof with
    | Some (JStr s) => if String.eqb s proofType then true
                       else hasProofWithType_loop rest proofType
    | _ => hasProofWithType_loop rest proofType
    end
  end.

Definition hasProofWithType (vc : Credential.t) (proofType : string) : bool :=
  hasProofWithType_loop (Credential.Proofs vc) proofType.

Definition hasBBS (vc : Credential.t) : bool :=
  hasProofWithType_loop (Credential.Proofs vc) "BbsBlsSignature2020".

Fixpoint credByProof_loop (c : Credential.t) (proofTypes : list string) : bool :=
  match proofTypes with
  | [] => false
  | proofType :: rest =>
    if hasProofWithType c proofType then true else credByProof_loop c rest
  end.

Definition credByProof (c : Credential.t) (ldp : option LdpType.t) : bool :=
  match ldp with
  | None => false
  | Some l => credByProof_loop c (LdpType.ProofType l)
  end.

Record buckets := Buckets {
  ldpCreds : list Credential.t;
  ldpvcCreds : list Credential.t;
  ldpvpCreds : list Credential.t;
  jwtCreds : list Credential.t;
  jwtvcCreds : list Credential.t;
  jwtvpCreds : list Credential.t }.

Section FormatFilter.
Context `{JWTParser}.

Fixpoint algMatch_loop (credAlg : string) (algs : list string) : bool :=
  match algs with
  | [] => false
  | b :: rest => if strings_EqualFold credAlg b then true else algMatch_loop credAlg rest
  end.

Definition algMatch (credAlg : string) (jwtType : option JwtType.t) : bool :=
  match jwtType with
  | None => false
  | Some t => algMatch_loop credAlg (JwtType.Alg t)
  end.

Definition appendIf (b : bool) (l : list Credential.t) (c : Credential.t) :=
  if b then l ++ [c] else l.

Fixpoint filterFormat_loop (format : Format.t) (credentials : list Credential.t)
    (bs : buckets) : buckets :=
  match credentials with
  | [] => bs
  | credential :: rest =>
    let ldp := appendIf (credByProof credential (Format.Ldp format)) (ldpCreds bs) credential in
    let ldpvc :=
      appendIf (credByProof credential (Format.LdpVC format)) (ldpvcCreds bs) credential in
    let ldpvp :=
      appendIf (credByProof credential (Format.LdpVP format)) (ldpvpCreds bs) credential in
    let parsed :=
      if negb (String.eqb (Credential.JWT credential) "")
      then jwt_Parse (Credential.JWT credential)
      else Some ("", false) in
    match parsed with
    | None =>
      (* unparsable JWT: warn and continue *)
      filterFormat_loop format rest
        (Buckets ldp ldpvc ldpvp (jwtCreds bs) (jwtvcCreds bs) (jwtvpCreds bs))
    | Some (alg, hasAlg) =>
      filterFormat_loop format rest
        (Buckets ldp ldpvc ldpvp
           (appendIf (hasAlg && algMatch alg (Format.Jwt format)) (jwtCreds bs) credential)
           (appendIf (hasAlg && algMatch alg (Format.JwtVC format)) (jwtvcCreds bs) credential)
           (appendIf (hasAlg && algMatch alg (Format.JwtVP format)) (jwtvpCreds bs) credential))
    end
  end.

Definition filterFormat (format : Format.t) (credentials : list Credential.t)
  : string * list Credential.t :=
  let bs := filterFormat_loop format credentials (Buckets [] [] [] [] [] []) in
  if len (ldpCreds bs) >? 0 then (FormatLDP, ldpCreds bs)
  else if len (ldpvcCreds bs) >? 0 then (FormatLDPVC, ldpvcCreds bs)
  else if len (ldpvpCreds bs) >? 0 then (FormatLDPVP, ldpvpCreds bs)
  else if len (jwtCreds bs) >? 0 then (FormatJWT, jwtCreds bs)
  else if len (jwtvcCreds bs) >? 0 then (FormatJWTVC, jwtvcCreds bs)
  else if len (jwtvpCreds bs) >? 0 then (FormatJWTVP, jwtvpCreds bs)
  else ("", []).

(** Bucket membership in the spec's words: a proof whose type is listed. *)
Definition hasListedProof (ldp : option LdpType.t) (c : Credential.t) : Prop :=
  ∃ l proofType proof,
    ldp = Some l ∧ proofType ∈ LdpType.ProofType l ∧ proof ∈ Credential.Proofs c
    ∧ objLookup "type" proof = Some (JStr proofType).

(** A JWT-form credential whose JOSE [alg] is listed, up to case. *)
Definition hasListedAlg (jwtType : option JwtType.t) (c : Credential.t) : Prop :=
  Credential.JWT c ≠ "" ∧
  ∃ t alg b,
    jwtType = Some t ∧ jwt_Parse (Credential.JWT c) = Some (alg, true)
    ∧ b ∈ JwtType.Alg t ∧ strings_EqualFold alg b = true.

Definition jwtBucket (jwtType : option JwtType.t) (c : Credential.t) : bool :=
  negb (String.eqb (Credential.JWT c) "")
  && match jwt_Parse (Credential.JWT c) with
     | Some (alg, true) => algMatch alg jwtType
     | _ => false
     end.

Fixpoint firstNonEmpty (bs : list (string * list Credential.t))
  : string * list Credential.t :=
  match bs with
  | [] => ("", [])
  | (tag, []) :: rest => firstNonEmpty rest
  | (tag, creds) :: _ => (tag, creds)
  end.
End FormatFilter.

(** ** Schema gate *)

Fixpoint schemaLoop (schemas : list Schema.t) (schemaSatisfied : gset string)
    (applicable : bool) : bool :=
  match schemas with
  | [] => applicable
  | schema :: rest =>
    if bool_decide (Schema.URI schema ∈ schemaSatisfied) then
      schemaLoop rest schemaSatisfied true
    else if Schema.Required schema then false
    else schemaLoop rest schemaSatisfied applicable
  end.

Section SchemaGate.
Context `{JSONLD}.

(** [strings.SplitN(contextURI, "#", 2)[0]] *)
Definition stripFragment (contextURI : string) : string :=
  let idx := strings_Index contextURI "#" in
  if idx =? -1 then contextURI else sliceTo contextURI idx.

Definition getContext (contextURI : string) : option ldContext :=
  match LoadDocument (stripFragment contextURI) with
  | None => None
  | Some (JObj doc) =>
    match objLookup "@context" doc with
    | None => None
    | Some ctx => NewContext_Parse ctx
    end
  | Some _ => None
  end.

Definition typeFoundInContext (typ : string) (ctxObj : ldContext) : option (list string) :=
  match GetTermDefinition ctxObj typ with
  | None => Some []
  | Some td =>
    let '(id, ok) := match objLookup "@id" td with
                     | Some (JStr s) => (s, true)
                     | _ => ("", false)
                     end in
    let out := if ok then [id] else [] in
    match objLookup "@context" td with
    | Some (JObj tdCtx) =>
      match Context_Parse ctxObj (JObj tdCtx) with
      | None => None
      | Some extendedCtx =>
        match ExpandIri extendedCtx id with
        | None => None
        | Some iri => Some (out ++ [iri])
        end
      end
    | _ => Some out
    end
  end.

Fixpoint typesLoop (types : list string) (ctxObj : ldContext)
    (schemaSatisfied : gset string) : gset string :=
  match types with
  | [] => schemaSatisfied
  | typ :: rest =>
    match typeFoundInContext typ ctxObj with
    | None => typesLoop rest ctxObj schemaSatisfied
    | Some ids => typesLoop rest ctxObj (schemaSatisfied ∪ list_to_set ids)
    end
  end.

(** The loop over [credential.Context]; [None] is the load failure on
    which [filterSchema] returns nil. *)
Fixpoint contextsLoop (ctxs types : list string) (contexts : gmap string ldContext)
    (schemaSatisfied : gset string) : option (gmap string ldContext * gset string) :=
  match ctxs with
  | [] => Some (contexts, schemaSatisfied)
  | ctx :: rest =>
    match contexts !! ctx with
    | Some ctxObj =>
      contextsLoop rest types contexts (typesLoop types ctxObj schemaSatisfied)
    | None =>
      match getContext ctx with
      | None => None
      | Some context =>
        contextsLoop rest types (<[ctx := context]> contexts)
          (typesLoop types context schemaSatisfied)
      end
    end
  end.

Fixpoint filterSchema_loop (schemas : list Schema.t) (credentials : list Credential.t)
    (contexts : gmap string ldContext) (result : list Credential.t) : list Credential.t :=
  match credentials with
  | [] => result
  | credential :: rest =>
    match contextsLoop (Credential.Context credential) (Credential.Types credential)
            contexts ∅ with
    | None => []
    | Some (contexts', schemaSatisfied) =>
      let applicable := schemaLoop schemas schemaSatisfied false in
      filterSchema_loop schemas rest contexts'
        (if applicable then result ++ [credential] else result)
    end
  end.

Definition filterSchema (schemas : list Schema.t) (credentials : list Credential.t)
  : list Credential.t :=
  filterSchema_loop schemas credentials ∅ [].

(** The resolved type IRIs in the spec's words: for every context of the
    credential and every type, the ids the term definition yields. *)
Definition typeIRIs (types : list string) (ctxObj : ldContext) : gset string :=
  ⋃ ((fun typ => match typeFoundInContext typ ctxObj with
                 | Some ids => list_to_set ids
                 | None => ∅
                 end) <$> types).

Definition contextIRIs (types : list string) (ctx : string) : gset string :=
  match getContext ctx with
  | Some ctxObj => typeIRIs types ctxObj
  | None => ∅
  end.

Definition resolvedIRIs (c : Credential.t) : gset string :=
  ⋃ (contextIRIs (Credential.Types c) <$> Credential.Context c).

Definition contextsLoad (c : Credential.t) : Prop :=
  Forall (fun ctx => is_Some (getContext ctx)) (Credential.Context c).

(** At least one schema matches and no required schema is unmatched. *)
Definition schemaAccepts (schemas : list Schema.t) (c : Credential.t) : Prop :=
  (∃ s, s ∈ schemas ∧ Schema.URI s ∈ resolvedIRIs c)
  ∧ (∀ s, s ∈ schemas → Schema.Required s = true → Schema.URI s ∈ resolvedIRIs c).

(** The memoized contexts are the ones the loader gives. *)
Definition cacheOK (contexts : gmap string ldContext) : Prop :=
  ∀ ctx ctxObj, contexts !! ctx = Some ctxObj → getContext ctx = Some ctxObj.

(** The gate's verdict on one credential, all contexts loaded. *)
Definition schemaGate (schemas : list Schema.t) (c : Credential.t) : bool :=
  schemaLoop schemas (resolvedIRIs c) false.
End SchemaGate.

(** ** Requirement evaluator *)

Module PresentationDefinition.
Record t := mk {
  ID : string;
  Name : string;
  Purpose : string;
  Locale : string;
  Format : option Format.t;
  Frame : option JSON;
  SubmissionRequirements : list SubmissionRequirement.t;
  InputDescriptors : list InputDescriptor.t }.
End PresentationDefinition.

(** The reshaping collaborators of the per-descriptor pipeline: BBS+ framing
    ([credential.GenerateBBSSelectiveDisclosure(frame, nil, opts...)]) and the
    constraint filter, whose body is marshalling, SD-JWT and BBS+ calls around
    [filterField] and [createNewCredential].  Both are taken as functions of
    their arguments; an error is its message. *)
Class ConstraintPipeline := {
  GenerateBBSSelectiveDisclosure : Credential.t → JSON → string + Credential.t;
  filterConstraints : option Constraints.t → list Credential.t → string + list Credential.t }.

Definition mergeBucket (exclude : gset string) (key : string)
    : list Credential.t → gset string → list Credential.t → bool
      → gset string * list Credential.t :=
  fix go credentials set mergedCredentials checkExclude :=
    match credentials with
    | [] => (set, mergedCredentials)
    | credential :: rest =>
      if bool_decide (Credential.ID credential ∈ set) then
        go rest set mergedCredentials checkExclude
      else if checkExclude && bool_decide (key +:+ Credential.ID credential ∈ exclude) then
        go rest set mergedCredentials checkExclude
      else
        go rest ({[Credential.ID credential]} ∪ set) (mergedCredentials ++ [credential])
           checkExclude
    end.

Definition mergeNestedResult (nr : list (gmap string (list Credential.t)))
    (exclude : gset string) : gmap string (list Credential.t) :=
  foldl (fun result res =>
    map_fold (fun key credentials result =>
      let '(set, merged) := mergeBucket exclude key (default [] (result !! key)) ∅ [] false in
      let '(_, merged) := mergeBucket exclude key credentials set merged true in
      <[key := merged]> result) result res) ∅ nr.

(** [set[trimTmpID(cred.ID)][desc] = cred.ID] for every credential of [res]. *)
Definition indexCredentials (res : gmap string (list Credential.t))
    (set : gmap string (gmap string string)) : gmap string (gmap string string) :=
  map_fold (fun desc credentials set =>
    foldl (fun set cred =>
      let k := trimTmpID (Credential.ID cred) in
      <[k := <[desc := Credential.ID cred]> (default ∅ (set !! k))]> set) set credentials)
    set res.

Definition excludeSet (req : requirement.t) (set : gmap string (gmap string string))
    : gset string :=
  map_fold (fun _ descs exclude =>
    if isLenApplicable req (Z.of_nat (size descs)) then exclude
    else map_fold (fun desc cID exclude => {[desc +:+ cID]} ∪ exclude) exclude descs)
    ∅ set.

Section Evaluator.
Context `{JWTParser} `{JSONLD} `{ConstraintPipeline}.

Fixpoint frameCreds_loop (frame : JSON) (creds result : list Credential.t)
  : string + list Credential.t :=
  match creds with
  | [] => inr result
  | credential :: rest =>
    match GenerateBBSSelectiveDisclosure credential frame with
    | inl err => inl err
    | inr bbsVC => frameCreds_loop frame rest (result ++ [bbsVC])
    end
  end.

Definition frameCreds (frame : option JSON) (creds : list Credential.t)
  : string + list Credential.t :=
  match frame with
  | None => inr creds
  | Some fr => frameCreds_loop fr creds []
  end.

Definition filterCredentialsThatMatchDescriptor (pd : PresentationDefinition.t)
    (creds : list Credential.t) (descriptor : InputDescriptor.t)
  : string + (string * list Credential.t) :=
  let format := if Format_notNil (InputDescriptor.Format descriptor)
                then InputDescriptor.Format descriptor
                else PresentationDefinition.Format pd in
  match frameCreds (PresentationDefinition.Frame pd) creds with
  | inl err => inl err
  | inr filtered =>
    let '(vpFormat, filtered) :=
      match format with
      | Some fmt => if Format_notNil format then filterFormat fmt filtered else ("", filtered)
      | None => ("", filtered)
      end in
    let filtered := match InputDescriptor.Schema descriptor with
                    | Some schemas => filterSchema schemas filtered
                    | None => filtered
                    end in
    match filterConstraints (InputDescriptor.Constraints descriptor) filtered with
    | inl err => inl err
    | inr filtered => inr (vpFormat, filtered)
    end
  end.

Fixpoint descriptorsLoop (pd : PresentationDefinition.t)
    (descriptors : list InputDescriptor.t) (creds : list Credential.t)
    (vpFormat : string) (result : gmap string (list Credential.t))
  : error + (string * gmap string (list Credential.t)) :=
  match descriptors with
  | [] => inr (vpFormat, result)
  | descriptor :: rest =>
    match filterCredentialsThatMatchDescriptor pd creds descriptor with
    | inl err => inl (ErrFilter err)
    | inr (descFormat, filtered) =>
      descriptorsLoop pd rest creds
        (if negb (String.eqb descFormat "") then descFormat else vpFormat)
        (if negb (len filtered =? 0)
         then <[InputDescriptor.ID descriptor := filtered]> result else result)
    end
  end.

(** The loop over [req.Nested], with the recursive call as [apply]. *)
Fixpoint nestedLoop (apply : requirement.t → error + (string * gmap string (list Credential.t)))
    (rs : list requirement.t) (nestedResult : list (gmap string (list Credential.t)))
    (set : gmap string (gmap string string)) (vpFormat : string)
  : error + (list (gmap string (list Credential.t)) * gmap string (gmap string string) * string) :=
  match rs with
  | [] => inr (nestedResult, set, vpFormat)
  | r :: rs' =>
    match apply r with
    | inl ErrNoCredentials => nestedLoop apply rs' nestedResult set vpFormat
    | inl err => inl err
    | inr (vpFmt, res) =>
      let set := indexCredentials res set in
      if negb (Z.of_nat (size res) =? 0)
      then nestedLoop apply rs' (nestedResult ++ [res]) set vpFmt
      else nestedLoop apply rs' nestedResult set vpFormat
    end
  end.

Fixpoint applyRequirement (pd : PresentationDefinition.t) (req : requirement.t)
    (creds : list Credential.t) {struct req}
  : error + (string * gmap string (list Credential.t)) :=
  match req with
  | requirement.mk _ _ _ _ _ _ inputDescriptors nested =>
    match descriptorsLoop pd inputDescriptors creds FormatLDPVP ∅ with
    | inl err => inl err
    | inr (vpFormat, result) =>
      if negb (len inputDescriptors =? 0) then
        if isLenApplicable req (Z.of_nat (size result)) then inr (vpFormat, result)
        else inl ErrNoCredentials
      else
        match nestedLoop (fun r => applyRequirement pd r creds) nested [] ∅ vpFormat with
        | inl err => inl err
        | inr (nestedResult, set, vpFormat) =>
          inr (vpFormat, mergeNestedResult nestedResult (excludeSet req set))
        end
    end
  end.

(** The per-descriptor pipeline ran to completion. *)
Definition pipelineSucceeds (pd : PresentationDefinition.t) (creds : list Credential.t)
    (d : InputDescriptor.t) : Prop :=
  ∃ r, filterCredentialsThatMatchDescriptor pd creds d = inr r.

(** The descriptor matched at least one credential. *)
Definition matched (pd : PresentationDefinition.t) (creds : list Credential.t)
    (d : InputDescriptor.t) : bool :=
  match filterCredentialsThatMatchDescriptor pd creds d with
  | inr (_, _ :: _) => true
  | _ => false
  end.

(** A child that succeeded or was skipped. *)
Definition childPassed (pd : PresentationDefinition.t) (creds : list Credential.t)
    (r : requirement.t) : Prop :=
  applyRequirement pd r creds = inl ErrNoCredentials
  ∨ ∃ res, applyRequirement pd r creds = inr res.
End Evaluator.

(** ** Submission assembler *)

Module InputDescriptorMapping.
Inductive t := mk {
  ID : string;
  Format : string;
  Path : string;
  PathNested : option t }.
End InputDescriptorMapping.

(** [merge] assigns [credential.ID] through the pointer, so the credentials
    live in a store and the buckets hold addresses.  Reading an address the
    store does not have is the nil dereference: [None]. *)
Abbreviation ptr := nat.
Abbreviation store := (list Credential.t).

Definition setID (c : Credential.t) (id : string) : Credential.t :=
  Credential.mk id (Credential.Context c) (Credential.Types c) (Credential.Subject c)
    (Credential.JWT c) (Credential.Proofs c).

Record mergeState := MergeState {
  heap : store;
  setOfCreds : gmap string nat;
  result : list ptr;
  descriptors : list InputDescriptorMapping.t }.

(** [setOfDescriptors] is declared by [merge] and never written. *)
Definition setOfDescriptors : gset string := ∅.

Definition nestedPath (index : nat) : string :=
  "$.verifiableCredential[" +:+ Sprintf_d index +:+ "]".

Fixpoint merge_credentials (presentationFormat descriptorID : string)
    (credentials : list ptr) (st : mergeState) : option mergeState :=
  match credentials with
  | [] => Some st
  | p :: rest =>
    match heap st !! p with
    | None => None
    | Some credential =>
      let '(credential, st) :=
        if bool_decide (is_Some (setOfCreds st !! Credential.ID credential)) then
          (credential, st)
        else
          let credential := setID credential (trimTmpID (Credential.ID credential)) in
          (credential,
           MergeState (<[p := credential]> (heap st))
             (<[Credential.ID credential := length (descriptors st)]> (setOfCreds st))
             (result st ++ [p])
             (descriptors st)) in
      let vcFormat := if negb (String.eqb (Credential.JWT credential) "")
                      then FormatJWTVC else FormatLDPVC in
      let st :=
        if bool_decide
             (Credential.ID credential +:+ "-" +:+ Credential.ID credential ∉ setOfDescriptors)
        then
          MergeState (heap st) (setOfCreds st) (result st)
            (descriptors st ++
               [InputDescriptorMapping.mk descriptorID presentationFormat "$"
                  (Some (InputDescriptorMapping.mk descriptorID vcFormat
                     (nestedPath (default 0%nat (setOfCreds st !! Credential.ID credential)))
                     None))])
        else st in
      merge_credentials presentationFormat descriptorID rest st
    end
  end.

Fixpoint merge_keys (presentationFormat : string)
    (setOfCredentials : gmap string (list ptr)) (keys : list string) (st : mergeState)
  : option mergeState :=
  match keys with
  | [] => Some st
  | descriptorID :: rest =>
    match merge_credentials presentationFormat descriptorID
            (default [] (setOfCredentials !! descriptorID)) st with
    | None => None
    | Some st' => merge_keys presentationFormat setOfCredentials rest st'
    end
  end.

(** [byID.Less] *)
Definition byID_Less (a b : InputDescriptorMapping.t) : bool :=
  String.ltb (InputDescriptorMapping.ID a) (InputDescriptorMapping.ID b).

(** [sort.Sort(byID(descriptors))]: the insertion sort that [sort.Sort] runs
    on up to twelve entries; an entry moves left while it is less than its
    predecessor.  [sorted] is the sorted prefix, last entry first.  (On longer
    inputs [sort.Sort] may order entries of equal id differently.) *)
Fixpoint insertionSort_bubble (x : InputDescriptorMapping.t)
    (sorted : list InputDescriptorMapping.t) : list InputDescriptorMapping.t :=
  match sorted with
  | [] => [x]
  | y :: sorted' =>
    if byID_Less x y then y :: insertionSort_bubble x sorted' else x :: y :: sorted'
  end.

Definition sort_byID (descriptors : list InputDescriptorMapping.t)
  : list InputDescriptorMapping.t :=
  rev (foldl (fun sorted x => insertionSort_bubble x sorted) [] descriptors).

(** [sort.Strings(keys)] on the keys of the map, then the walk, then
    [sort.Sort(byID(descriptors))]. *)
Definition merge (presentationFormat : string) (setOfCredentials : gmap string (list ptr))
    (h : store) : option (store * list ptr * list InputDescriptorMapping.t) :=
  let keys := merge_sort String.le (elements (dom setOfCredentials)) in
  match merge_keys presentationFormat setOfCredentials keys (MergeState h ∅ [] []) with
  | None => None
  | Some st => Some (heap st, result st, sort_byID (descriptors st))
  end.

(** Every address held by the buckets is allocated. *)
Definition validBuckets (m : gmap string (list ptr)) (h : store) : Prop :=
  map_Forall (fun _ l => Forall (fun p => (p < length h)%nat) l) m.

(** Relative to the store [h0] the assembler started from: every credential
    keeps its id or has it trimmed, and the emitted ones have it trimmed. *)
Definition trimmedFrom (h0 : store) (st : mergeState) : Prop :=
  length (heap st) = length h0 ∧
  (∀ p c0, h0 !! p = Some c0 →
     ∃ c, heap st !! p = Some c ∧
          (Credential.ID c = Credential.ID c0
           ∨ Credential.ID c = trimTmpID (Credential.ID c0))) ∧
  (∀ p, p ∈ result st →
     ∃ c0 c, h0 !! p = Some c0 ∧ heap st !! p = Some c
             ∧ Credential.ID c = trimTmpID (Credential.ID c0)).

(** ** Selective-disclosure reshaper: plain projection *)

Inductive pathKey :=
| KInt (v : nat)
| KStr (s : string).

(** [jsonpathkeys]: the key tuples of the matches of the paths, or an error;
    [gjson.GetBytes(src, path).Value()]; [sjson.SetBytes]. *)
Class JSONPathKeys := {
  EvalPaths : list string → JSON → option (list (list pathKey));
  gjson_Get : JSON → string → JSON;
  sjson_Set : JSON → string → JSON → option JSON }.

(** [verifiable.ParseCredential] with the proof check disabled, and the BBS+
    branch ([enhanceRevealDoc] followed by the BBS+ derivation with a fresh
    nonce), which walks a Go map in unspecified order. *)
Class CredentialCodec := {
  ParseCredential : JSON → string + Credential.t;
  deriveBBS : Credential.t → gmap string bool → JSON → JSON → string + Credential.t }.

Definition strings_Join (elems : list string) (sep : string) : string :=
  String.concat sep elems.

Fixpoint getPath_loop (keys : list pathKey) (set : gmap string nat)
    (newPath originalPath : list string) : list string * list string * gmap string nat :=
  match keys with
  | [] => (newPath, originalPath, set)
  | KInt v :: rest =>
    let counterKey := strings_Join originalPath "." in
    let originalPath := originalPath ++ [Sprintf_d v] in
    let mapperKey := strings_Join originalPath "." in
    let set :=
      if bool_decide (is_Some (set !! mapperKey)) then set
      else
        let set := <[mapperKey := default 0%nat (set !! counterKey)]> set in
        <[counterKey := S (default 0%nat (set !! counterKey))]> set in
    getPath_loop rest set (newPath ++ [Sprintf_d (default 0%nat (set !! mapperKey))])
      originalPath
  | KStr v :: rest => getPath_loop rest set (newPath ++ [v]) (originalPath ++ [v])
  end.

Definition getPath (keys : list pathKey) (set : gmap string nat)
    : (string * string) * gmap string nat :=
  let '(newPath, originalPath, set) := getPath_loop keys set [] [] in
  ((strings_Join newPath ".", strings_Join originalPath "."), set).

(** [strings.Split(s, ".")] *)
Fixpoint strings_Split_dot (s : string) (cur : string) : list string :=
  match s with
  | EmptyString => [String.rev cur]
  | String c s' =>
    if Ascii.eqb c "."%char then String.rev cur :: strings_Split_dot s' EmptyString
    else strings_Split_dot s' (String c cur)
  end.

Record reshapeState := ReshapeState {
  limitedCred : JSON;
  modifiedByPredicate : bool;
  explicitPaths : gmap string bool }.

Section Reshaper.
Context `{JSONPathKeys} `{CredentialCodec}.

Fixpoint getJSONPaths_loop (results : list (list pathKey)) (set : gmap string nat)
    (jPaths : list (string * string)) : list (string * string) :=
  match results with
  | [] => jPaths
  | keys :: rest =>
    let '(p, set) := getPath keys set in
    getJSONPaths_loop rest set (jPaths ++ [p])
  end.

Definition getJSONPaths (keys : list string) (src : JSON) : option (list (string * string)) :=
  match EvalPaths keys src with
  | None => None
  | Some results => Some (getJSONPaths_loop results ∅ [])
  end.

(** The value [createNewCredential] writes for one match of field [f]. *)
Definition disclosedValue (f : Field.t) (src : JSON) (path : string * string) : JSON :=
  match Field.Predicate f with
  | None => gjson_Get src path.2
  | Some p => if negb (String.eqb p Required) then gjson_Get src path.2 else JBool true
  end.

Fixpoint reshape_paths (constraints : Constraints.t) (BBSSupport : bool) (f : Field.t)
    (src : JSON) (jPaths : list (string * string)) (st : reshapeState)
  : option reshapeState :=
  match jPaths with
  | [] => Some st
  | path :: rest =>
    if strings_Contains path.1 credentialSchema then
      reshape_paths constraints BBSSupport f src rest st
    else
      let val := disclosedValue f src path in
      let modified := if negb (modifiedByPredicate st)
                      then isRequired (Field.Predicate f) else modifiedByPredicate st in
      let explicit :=
        if isRequired (Constraints.LimitDisclosure constraints) && BBSSupport then
          let chunks := strings_Split_dot path.1 EmptyString in
          <[strings_Join (removelast chunks) "." := true]> (explicitPaths st)
        else explicitPaths st in
      match sjson_Set (limitedCred st) path.1 val with
      | None => None
      | Some limited =>
        reshape_paths constraints BBSSupport f src rest
          (ReshapeState limited modified explicit)
      end
  end.

Fixpoint reshape_fields (constraints : Constraints.t) (BBSSupport : bool)
    (fields : list Field.t) (src : JSON) (st : reshapeState) : option reshapeState :=
  match fields with
  | [] => Some st
  | f :: rest =>
    match getJSONPaths (Field.Path f) src with
    | None => None
    | Some jPaths =>
      match reshape_paths constraints BBSSupport f src jPaths st with
      | None => None
      | Some st' => reshape_fields constraints BBSSupport rest src st'
      end
    end
  end.

Definition createNewCredential (constraints : Constraints.t) (src limited : JSON)
    (credential : Credential.t) : option (string + Credential.t) :=
  let BBSSupport := hasBBS credential in
  match reshape_fields constraints BBSSupport (Constraints.Fields constraints) src
          (ReshapeState limited false ∅) with
  | None => None
  | Some st =>
    if negb (isRequired (Constraints.LimitDisclosure constraints)) || negb BBSSupport
       || modifiedByPredicate st
    then Some (ParseCredential (limitedCred st))
    else Some (deriveBBS credential (explicitPaths st) (limitedCred st) src)
  end.

(** Writes that leave the value at [p] alone. *)
Definition preserves (p q : string) : Prop :=
  ∀ d v d', sjson_Set d q v = Some d' → gjson_Get d' p = gjson_Get d p.

(** The paths [createNewCredential] may write for the fields [fields]. *)
Definition fieldWrites (src : JSON) (fields : list Field.t) (q : string) : Prop :=
  ∃ f jPaths path, f ∈ fields ∧ getJSONPaths (Field.Path f) src = Some jPaths
                   ∧ path ∈ jPaths ∧ q = path.1.
End Reshaper.

(** ** Requirement trees: vocabulary *)

(** The group names a submission requirement resolves, in the order
    [toRequirement] meets them. *)
Fixpoint froms (sr : SubmissionRequirement.t) : list string :=
  match sr with
  | SubmissionRequirement.mk _ _ _ _ _ _ from fromNested =>
    if negb (String.eqb from "") then [from]
    else (fix go (l : list SubmissionRequirement.t) : list string :=
            match l with
            | [] => []
            | x :: l' => froms x ++ go l'
            end) fromNested
  end.

(** The descriptors whose [group] lists [from]. *)
Definition inGroup (descriptors : list InputDescriptor.t) (from : string)
  : list InputDescriptor.t :=
  List.filter (fun d => contains (InputDescriptor.Group d) from) descriptors.

(** The shape every built requirement has: a node holds descriptors of the
    definition and then has no children, or holds none; under [rule = all]
    its count is the number of its children. *)
Fixpoint wellBuilt (descriptors : list InputDescriptor.t) (r : requirement.t) : Prop :=
  match r with
  | requirement.mk _ _ rule cnt _ _ inputDescriptors nested =>
    (inputDescriptors = [] ∨ nested = [])
    ∧ inputDescriptors `sublist_of` descriptors
    ∧ (rule = All → cnt = len inputDescriptors + len nested)
    ∧ (fix all (l : list requirement.t) : Prop :=
         match l with
         | [] => True
         | x :: l' => wellBuilt descriptors x ∧ all l'
         end) nested
  end.

(** The bucket [mergeNestedResult] writes under [key] when a child brings
    [credentials] and the result so far holds [old]. *)
Definition mergedBucket (exclude : gset string) (key : string)
    (old credentials : list Credential.t) : list Credential.t :=
  (mergeBucket exclude key credentials
     (mergeBucket exclude key old ∅ [] false).1
     (mergeBucket exclude key old ∅ [] false).2 true).2.

(** One step of [mergeNestedResult]: the result so far merged with the map
    of one child. *)
Definition mergeChild (exclude : gset string)
    (result res : gmap string (list Credential.t)) : gmap string (list Credential.t) :=
  map_fold (fun key credentials result =>
    let '(set, merged) := mergeBucket exclude key (default [] (result !! key)) ∅ [] false in
    let '(_, merged) := mergeBucket exclude key credentials set merged true in
    <[key := merged]> result) result res.

(** The descriptors an evaluation of [r] asks for credentials: its own, or,
    when it has none, those its children ask. *)
Fixpoint leafDescriptors (r : requirement.t) : list InputDescriptor.t :=
  match r with
  | requirement.mk _ _ _ _ _ _ inputDescriptors nested =>
    if negb (len inputDescriptors =? 0) then inputDescriptors
    else (fix go (l : list requirement.t) : list InputDescriptor.t :=
            match l with
            | [] => []
            | x :: l' => leafDescriptors x ++ go l'
            end) nested
  end.

(** The entry [merge] appends for a credential filed under a descriptor. *)
Definition mappingShape (presentationFormat : string) (e : InputDescriptorMapping.t) : Prop :=
  InputDescriptorMapping.Format e = presentationFormat
  ∧ InputDescriptorMapping.Path e = "$"
  ∧ ∃ vcFormat index,
      InputDescriptorMapping.PathNested e
      = Some (InputDescriptorMapping.mk (InputDescriptorMapping.ID e) vcFormat
                (nestedPath index) None)
      ∧ (vcFormat = FormatLDPVC ∨ vcFormat = FormatJWTVC).

(** The ids of the entries [merge] appends along [keys]: one per credential
    of the bucket of each key. *)
Definition walkIDs (setOfCredentials : gmap string (list ptr)) (keys : list string)
  : list string :=
  keys ≫= (fun k => replicate (length (default [] (setOfCredentials !! k))) k).

(** What [merge] keeps true of its state once it has walked the addresses
    [walked]: an address is emitted once, [setOfCreds] holds the ids of the
    emitted credentials, and the id of every walked credential is among them. *)
Definition emitted (walked : list ptr) (st : mergeState) : Prop :=
  NoDup (result st)
  ∧ result st ⊆ walked
  ∧ (∀ id, is_Some (setOfCreds st !! id)
           ↔ ∃ p c, p ∈ result st ∧ heap st !! p = Some c ∧ Credential.ID c = id)
  ∧ (∀ p, p ∈ walked →
       ∃ c, heap st !! p = Some c ∧ is_Some (setOfCreds st !! Credential.ID c)).

(** No id of the store carries the transient marker. *)
Definition markerFree (h : store) : Prop :=
  Forall (fun c => strings_Contains (Credential.ID c) tmpEnding = false) h.

(** Emitted credentials of equal id are one credential. *)
Definition distinctIDs (st : mergeState) : Prop :=
  ∀ p q cp cq, p ∈ result st → q ∈ result st →
    heap st !! p = Some cp → heap st !! q = Some cq →
    Credential.ID cp = Credential.ID cq → p = q.

(** ** Match report *)

Module MatchedInputDescriptor.
Record t := mk {
  ID : string;
  Name : string;
  Purpose : string;
  MatchedVCs : list Credential.t }.
End MatchedInputDescriptor.

Module MatchedSubmissionRequirement.
Inductive t := mk {
  Name : string;
  Purpose : string;
  Rule : Selection;
  Count : Z;
  Min : Z;
  Max : Z;
  Descriptors : list MatchedInputDescriptor.t;
  Nested : list t }.
End MatchedSubmissionRequirement.

(** The two schemas a definition is validated against. *)
Inductive definitionSchema :=
| DefinitionJSONSchemaV1
| DefinitionJSONSchemaV2.

(** [gojsonschema.Result]: [Valid()] and the strings of [Errors()]. *)
Module ValidationResult.
Record t := mk {
  Valid : bool;
  Errors : list string }.
End ValidationResult.

(** [gojsonschema.Validate] of the definition, wrapped under
    [presentation_definition], against one of the schemas: an error or a
    result. *)
Class DefinitionValidator := {
  validateDefinition : definitionSchema → PresentationDefinition.t
                          → string + ValidationResult.t }.

(** What [MatchSubmissionRequirement] can fail with: the validation of the
    definition, or the builder and the per-descriptor pipeline. *)
Inductive matchError :=
| ErrSchema (msg : string)
| ErrRequirement (err : error).

Section Matcher.
Context `{JWTParser} `{JSONLD} `{ConstraintPipeline} `{DefinitionValidator}.

(** [nil] is no error. *)
Definition ValidateSchema (pd : PresentationDefinition.t) : option string :=
  let first := validateDefinition DefinitionJSONSchemaV1 pd in
  let second :=
    match first with
    | inl _ => validateDefinition DefinitionJSONSchemaV2 pd
    | inr result =>
      if negb (ValidationResult.Valid result)
      then validateDefinition DefinitionJSONSchemaV2 pd
      else first
    end in
  match second with
  | inl err => Some err
  | inr result =>
    if ValidationResult.Valid result then None
    else Some (strings_Join (ValidationResult.Errors result) ",")
  end.

(** The loop of [matchRequirement] over [req.InputDescriptors]. *)
Fixpoint matchDescriptors (pd : PresentationDefinition.t)
    (descriptors : list InputDescriptor.t) (creds : list Credential.t)
    (matchedDescriptors : list MatchedInputDescriptor.t)
  : error + list MatchedInputDescriptor.t :=
  match descriptors with
  | [] => inr matchedDescriptors
  | descriptor :: rest =>
    match filterCredentialsThatMatchDescriptor pd creds descriptor with
    | inl err => inl (ErrFilter err)
    | inr (_, filtered) =>
      matchDescriptors pd rest creds
        (matchedDescriptors ++
           [MatchedInputDescriptor.mk (InputDescriptor.ID descriptor)
              (InputDescriptor.Name descriptor) (InputDescriptor.Purpose descriptor)
              filtered])
    end
  end.

(** The loop over requirements that [matchRequirement] runs on [req.Nested]
    and [MatchSubmissionRequirement] on the top-level requirements, with the
    call to [matchRequirement] as [matchOne]. *)
Fixpoint matchLoop (matchOne : requirement.t → error + MatchedSubmissionRequirement.t)
    (rs : list requirement.t) (matchedReqs : list MatchedSubmissionRequirement.t)
  : error + list MatchedSubmissionRequirement.t :=
  match rs with
  | [] => inr matchedReqs
  | r :: rs' =>
    match matchOne r with
    | inl err => inl err
    | inr matched => matchLoop matchOne rs' (matchedReqs ++ [matched])
    end
  end.

Fixpoint matchRequirement (pd : PresentationDefinition.t) (req : requirement.t)
    (creds : list Credential.t) {struct req}
  : error + MatchedSubmissionRequirement.t :=
  match req with
  | requirement.mk name purpose rule cnt mn mx inputDescriptors nested =>
    match matchDescriptors pd inputDescriptors creds [] with
    | inl err => inl err
    | inr descriptors =>
      match matchLoop (fun r => matchRequirement pd r creds) nested [] with
      | inl err => inl err
      | inr nestedMatches =>
        inr (MatchedSubmissionRequirement.mk name purpose rule cnt mn mx
               descriptors nestedMatches)
      end
    end
  end.

Definition MatchSubmissionRequirement (pd : PresentationDefinition.t)
    (credentials : list Credential.t)
  : matchError + list MatchedSubmissionRequirement.t :=
  match ValidateSchema pd with
  | Some err => inl (ErrSchema err)
  | None =>
    match makeRequirementsForMatch (PresentationDefinition.SubmissionRequirements pd)
            (PresentationDefinition.InputDescriptors pd) with
    | inl err => inl (ErrRequirement err)
    | inr requirements =>
      match matchLoop (fun req => matchRequirement pd req credentials) requirements [] with
      | inl err => inl (ErrRequirement err)
      | inr matchedReqs => inr matchedReqs
      end
    end
  end.

(** [descriptors] holds a descriptor whose pipeline fails with [msg], after
    descriptors whose pipelines all ran to completion. *)
Definition firstFailure (pd : PresentationDefinition.t) (creds : list Credential.t)
    (descriptors : list InputDescriptor.t) (msg : string) : Prop :=
  ∃ pre d post, descriptors = pre ++ d :: post
                ∧ Forall (pipelineSucceeds pd creds) pre
                ∧ filterCredentialsThatMatchDescriptor pd creds d = inl msg.

(** The entry [matchRequirement] reports for a descriptor. *)
Definition reported (pd : PresentationDefinition.t) (creds : list Credential.t)
    (d : InputDescriptor.t) (m : MatchedInputDescriptor.t) : Prop :=
  MatchedInputDescriptor.ID m = InputDescriptor.ID d
  ∧ MatchedInputDescriptor.Name m = InputDescriptor.Name d
  ∧ MatchedInputDescriptor.Purpose m = InputDescriptor.Purpose d
  ∧ ∃ vpFormat,
      filterCredentialsThatMatchDescriptor pd creds d
      = inr (vpFormat, MatchedInputDescriptor.MatchedVCs m).
(** How an outcome relates to the pipelines of [descriptors]: a pipeline
    error is that of the first pipeline that fails; any other outcome means
    every pipeline ran to completion.  The builder's error is no outcome of an
    evaluation. *)
Definition settled {A} (pd : PresentationDefinition.t) (creds : list Credential.t)
    (descriptors : list InputDescriptor.t) (outcome : error + A) : Prop :=
  match outcome with
  | inl (ErrFilter msg) => firstFailure pd creds descriptors msg
  | inl (ErrNoDescriptorsForFrom _) => False
  | _ => Forall (pipelineSucceeds pd creds) descriptors
  end.
End Matcher.

(** Every descriptor of the tree, in the order [matchRequirement] meets
    them. *)
Fixpoint allDescriptors (r : requirement.t) : list InputDescriptor.t :=
  match r with
  | requirement.mk _ _ _ _ _ _ inputDescriptors nested =>
    inputDescriptors ++
    (fix go (l : list requirement.t) : list InputDescriptor.t :=
       match l with
       | [] => []
       | x :: l' => allDescriptors x ++ go l'
       end) nested
  end.

(** ** Subjects *)

(** [verifiable.Subject] *)
Module Subject.
Record t := mk {
  ID : string;
  CustomFields : list (string * JSON) }.
End Subject.

(** The dynamic types of [credential.Subject] that the code tells apart;
    any other value, [nil] included, is [SubjectOther]. *)
Inductive subjectValue :=
| SubjectString (s : string)
| SubjectMaps (s : list (list (string * JSON)))
| SubjectMap (s : list (string * JSON))
| SubjectStruct (s : Subject.t)
| SubjectStructs (s : list Subject.t)
| SubjectOther.

(** [v, ok := m["id"]] followed by [sID, ok := v.(string)]. *)
Definition idOfMap (m : list (string * JSON)) : option string :=
  match objLookup "id" m with
  | Some (JStr sID) => Some sID
  | _ => None
  end.

Definition getSubjectIDs (subject : subjectValue) : list string :=
  match subject with
  | SubjectString s => [s]
  | SubjectMaps s =>
    (fix loop (s : list (list (string * JSON))) (res : list string) : list string :=
       match s with
       | [] => res
       | m :: s' =>
         match idOfMap m with
         | Some sID => loop s' (res ++ [sID])
         | None => loop s' res
         end
       end) s []
  | SubjectMap s =>
    match idOfMap s with
    | Some sID => [sID]
    | None => []
    end
  | SubjectStruct s => [Subject.ID s]
  | SubjectStructs s =>
    (fix loop (s : list Subject.t) (res : list string) : list string :=
       match s with
       | [] => res
       | x :: s' => loop s' (res ++ [Subject.ID x])
       end) s []
  | SubjectOther => []
  end.

(** [subjectIsIssuer], as a function of the two fields of the credential it
    reads: [credential.Subject] and [credential.Issuer.ID]. *)
Definition subjectIsIssuer (credentialSubject : subjectValue) (issuerID : string) : bool :=
  (fix loop (ids : list string) : bool :=
     match ids with
     | [] => false
     | ID :: ids' =>
       if negb (String.eqb ID "") && String.eqb ID issuerID then true else loop ids'
     end) (getSubjectIDs credentialSubject).

Definition toSubject (subject : subjectValue) : subjectValue :=
  match subject with
  | SubjectStructs [sub0] => SubjectStruct (Subject.mk (Subject.ID sub0) [])
  | _ => subject
  end.

(** ** Small collaborators for the worked examples

    JSON paths of keys, indices, wildcards and descents, a validator that
    knows [const], tokens whose first segment is their [alg], JSON-LD contexts
    that map a term to one IRI, a credential parser that checks the required
    properties, and [filterConstraints] for credentials that are not
    SD-JWTs. *)

Module Demo.

(** *** JSON paths: [$], [.key], [[n]], [[*]] and [..] *)

Inductive selector :=
| SelKey (k : string)
| SelIndex (n : nat)
| SelStar
| SelDescent.

(** [strings.Split(s, sep)] for a one-byte separator. *)
Fixpoint splitOn (sep : ascii) (s : string) (cur : string) : list string :=
  match s with
  | EmptyString => [String.rev cur]
  | String c s' =>
    if Ascii.eqb c sep then String.rev cur :: splitOn sep s' EmptyString
    else splitOn sep s' (String c cur)
  end.

Definition parseNat (s : string) : option nat :=
  match s with
  | EmptyString => None
  | _ => Nat.of_uint <$> NilZero.uint_of_string s
  end.

(** [n]] or [*]], the text after an opening bracket. *)
Definition parseBracket (piece : string) : option selector :=
  match splitOn "]" piece EmptyString with
  | [inner; EmptyString] =>
    if String.eqb inner "*" then Some SelStar else SelIndex <$> parseNat inner
  | _ => None
  end.

(** One dot-separated segment: a name followed by brackets; the empty segment
    is the one between the dots of [..]. *)
Definition parseSegment (segment : string) : option (list selector) :=
  match splitOn "[" segment EmptyString with
  | EmptyString :: [] => Some [SelDescent]
  | name :: pieces =>
    match mapM parseBracket pieces with
    | Some brackets =>
      Some ((if String.eqb name "" then [] else [SelKey name]) ++ brackets)
    | None => None
    end
  | [] => None
  end.

Definition parsePath (path : string) : option (list selector) :=
  match splitOn "." path EmptyString with
  | root :: segments =>
    if String.eqb root "$" then mjoin <$> mapM parseSegment segments else None
  | [] => None
  end.

Definition ambiguous (sels : list selector) : bool :=
  existsb (fun sel => match sel with
                      | SelStar | SelDescent => true
                      | _ => false
                      end) sels.

Definition under (k : pathKey) (m : list pathKey * JSON) : list pathKey * JSON :=
  (k :: m.1, m.2).

(** The members of an array or an object, each with its key. *)
Definition children (j : JSON) : list (list pathKey * JSON) :=
  match j with
  | JArr l => imap (fun i v => ([KInt i], v)) l
  | JObj m => (fun kv => ([KStr kv.1], kv.2)) <$> m
  | _ => []
  end.

(** The value and everything nested in it, each with its keys. *)
Fixpoint descend (j : JSON) : list (list pathKey * JSON) :=
  ([], j) ::
  match j with
  | JArr l =>
    (fix go (i : nat) (l : list JSON) : list (list pathKey * JSON) :=
       match l with
       | [] => []
       | x :: l' => (under (KInt i) <$> descend x) ++ go (S i) l'
       end) 0%nat l
  | JObj m =>
    (fix go (m : list (string * JSON)) : list (list pathKey * JSON) :=
       match m with
       | [] => []
       | (k, x) :: m' => (under (KStr k) <$> descend x) ++ go m'
       end) m
  | _ => []
  end.

Definition step (sel : selector) (j : JSON) : list (list pathKey * JSON) :=
  match sel with
  | SelKey k =>
    match j with
    | JObj m => match objLookup k m with
                | Some v => [([KStr k], v)]
                | None => []
                end
    | _ => []
    end
  | SelIndex n =>
    match j with
    | JArr l => match l !! n with
                | Some v => [([KInt n], v)]
                | None => []
                end
    | _ => []
    end
  | SelStar => children j
  | SelDescent => descend j
  end.

(** Every match of the path in [j], with the keys that lead to it. *)
Fixpoint matches (sels : list selector) (j : JSON) : list (list pathKey * JSON) :=
  match sels with
  | [] => [([], j)]
  | sel :: rest =>
    step sel j ≫= (fun kv => (fun m => (kv.1 ++ m.1, m.2)) <$> matches rest kv.2)
  end.

(** [jsonpath.Get]: a path of keys and indices gives its value, or an error
    when a key or an index is missing; a path with a wildcard or a descent
    gives the list of its matches, the empty list when there is none, and no
    error.  Filters, slices and unions are left out of the fragment, and no
    example uses one; such a path is refused as one that does not parse. *)
#[export] Instance jsonPath : JSONPathEvaluator := {|
  jsonpath_Get path credential :=
    match parsePath path with
    | None => None
    | Some sels =>
      if ambiguous sels then Some (JArr ((matches sels credential).*2))
      else match matches sels credential with
           | [m] => Some m.2
           | _ => None
           end
    end |}.

(** [jsonpathkeys]: the key tuples of the matches, path by path. *)
Definition evalPaths (paths : list string) (src : JSON) : option (list (list pathKey)) :=
  match mapM parsePath paths with
  | None => None
  | Some parsed => Some (parsed ≫= (fun sels => (matches sels src).*1))
  end.

(** *** [gjson] and [sjson]: dotted paths, a number indexing an array *)

Fixpoint objInsert (k : string) (v : JSON) (m : list (string * JSON))
  : list (string * JSON) :=
  match m with
  | [] => [(k, v)]
  | (k', v') :: m' =>
    if String.eqb k k' then (k, v) :: m' else (k', v') :: objInsert k v m'
  end.

Definition dotKeys (path : string) : list string := splitOn "." path EmptyString.

Fixpoint getKeys (keys : list string) (j : JSON) : option JSON :=
  match keys with
  | [] => Some j
  | k :: ks =>
    match j with
    | JObj m => match objLookup k m with
                | Some v => getKeys ks v
                | None => None
                end
    | JArr l => match parseNat k with
                | Some n => match l !! n with
                            | Some v => getKeys ks v
                            | None => None
                            end
                | None => None
                end
    | _ => None
    end
  end.

(** An array with [x] at index [n]: replaced, appended, or appended after
    nulls. *)
Definition setNth (n : nat) (x : JSON) (l : list JSON) : list JSON :=
  if (n <? length l)%nat then <[n := x]> l
  else l ++ replicate (n - length l) JNull ++ [x].

Fixpoint setKeys (keys : list string) (v : JSON) (j : JSON) : option JSON :=
  match keys with
  | [] => Some v
  | k :: ks =>
    match j with
    | JObj m =>
      match setKeys ks v (default JNull (objLookup k m)) with
      | Some child => Some (JObj (objInsert k child m))
      | None => None
      end
    | JArr l =>
      match parseNat k with
      | Some n =>
        match setKeys ks v (default JNull (l !! n)) with
        | Some child => Some (JArr (setNth n child l))
        | None => None
        end
      | None => None
      end
    | _ =>
      match setKeys ks v JNull with
      | Some child =>
        match parseNat k with
        | Some n => Some (JArr (setNth n child []))
        | None => Some (JObj [(k, child)])
        end
      | None => None
      end
    end
  end.

#[export] Instance jsonPathKeys : JSONPathKeys := {|
  EvalPaths := evalPaths;
  gjson_Get src path := default JNull (getKeys (dotKeys path) src);
  sjson_Set doc path val := setKeys (dotKeys path) val doc |}.

(** *** JSON Schema, JWT, JSON-LD *)

Definition lower (c : ascii) : ascii :=
  let n := nat_of_ascii c in
  if (65 <=? n)%nat && (n <=? 90)%nat then ascii_of_nat (n + 32) else c.

Fixpoint lowerString (s : string) : string :=
  match s with
  | EmptyString => EmptyString
  | String c s' => String (lower c) (lowerString s')
  end.

#[export] Instance jsonSchema : JSONSchemaValidator := {|
  json_Marshal patch :=
    match patch with
    | JStr s => inr s
    | JBool true => inr "true"
    | JBool false => inr "false"
    | JNull => inr "null"
    | JArr [] => inr "[]"
    | _ => inl "unsupported value"
    end;
  gojsonschema_Validate filter raw :=
    match Filter.Const filter with
    | Some (JStr c) => Some (String.eqb c raw)
    | _ => Some true
    end |}.

#[export] Instance jwtParser : JWTParser := {|
  jwt_Parse token :=
    match splitOn "." token EmptyString with
    | [alg; _; _] => Some (alg, negb (String.eqb alg ""))
    | _ => None
    end;
  strings_EqualFold s t := String.eqb (lowerString s) (lowerString t) |}.

Definition asObject (j : JSON) : list (string * JSON) :=
  match j with
  | JObj m => m
  | _ => []
  end.

Definition termIRIs (ctx : JSON) : list (string * string) :=
  omap (fun kv => match kv.2 with
                  | JStr iri => Some (kv.1, iri)
                  | _ => None
                  end) (asObject ctx).

Fixpoint lookupTerm (term : string) (ctx : list (string * string)) : option string :=
  match ctx with
  | [] => None
  | (t, iri) :: ctx' => if String.eqb term t then Some iri else lookupTerm term ctx'
  end.

(** One document is published; every other URI fails to load. *)
#[export] Instance jsonLD : JSONLD := {|
  ldContext := list (string * string);
  LoadDocument uri :=
    if String.eqb uri "https://example.org/credentials/v1" then
      Some (JObj [("@context",
                   JObj [("UniversityDegree", JStr "https://example.org/UniversityDegree")])])
    else None;
  NewContext_Parse ctx := Some (termIRIs ctx);
  Context_Parse base ctx := Some (termIRIs ctx ++ base);
  GetTermDefinition ctx term :=
    match lookupTerm term ctx with
    | Some iri => Some [("@id", JStr iri)]
    | None => None
    end;
  ExpandIri ctx iri := Some iri |}.

(** *** Credentials *)

Definition credentialsV1 : string := "https://www.w3.org/2018/credentials/v1".

Definition strings (j : JSON) : list string :=
  match j with
  | JArr l => omap (fun x => match x with
                             | JStr s => Some s
                             | _ => None
                             end) l
  | JStr s => [s]
  | _ => []
  end.

(** [verifiable.ParseCredential] as far as the data model is checked: the
    base context comes first, the type [VerifiableCredential] is listed, and
    issuer, issuance date and subject are present.  (Proofs are not checked,
    and the caller's options are taken to leave JSON-LD validation out.) *)
#[export] Instance credentialCodec : CredentialCodec := {|
  ParseCredential doc :=
    match doc with
    | JObj m =>
      match objLookup "@context" m, objLookup "type" m, objLookup "issuer" m,
            objLookup "issuanceDate" m, objLookup "credentialSubject" m with
      | Some ctx, Some types, Some _, Some (JStr _), Some subject =>
        if negb (bool_decide (head (strings ctx) = Some credentialsV1)) then
          inl "credential: @context does not start with the base context"
        else if negb (bool_decide ("VerifiableCredential" ∈ strings types)) then
          inl "credential: type VerifiableCredential is missing"
        else
          inr (Credential.mk
                 (match objLookup "id" m with
                  | Some (JStr id) => id
                  | _ => ""
                  end)
                 (strings ctx) (strings types) subject "" [])
      | _, _, _, _, _ => inl "credential: a required property is missing"
      end
    | _ => inl "credential: not an object"
    end;
  deriveBBS credential explicitPaths doc src := inl "no BBS+ key material" |}.

(** The credentials of the examples all have this issuer and issuance date,
    and none is an SD-JWT; [uuid] is what [uuid.New().String()] gives. *)
Definition issuer : string := "did:example:76e12ec712ebc6f1c221ebfeb1f".
Definition issuanceDate : string := "2010-01-01T19:23:24Z".
Definition uuid : string := "6fa459ea-ee8a-4ca4-894e-db77e160355e".

(** The credential as [json.Marshal] renders it, JWT form cleared. *)
Definition marshalCredential (c : Credential.t) : JSON :=
  JObj [("@context", JArr (JStr <$> Credential.Context c));
        ("id", JStr (Credential.ID c));
        ("type", JArr (JStr <$> Credential.Types c));
        ("issuer", JStr issuer);
        ("issuanceDate", JStr issuanceDate);
        ("credentialSubject", Credential.Subject c)].

(** [credential.Subject] as the type switch of [getSubjectIDs] sees it. *)
Definition subjectOf (c : Credential.t) : subjectValue :=
  match Credential.Subject c with
  | JStr s => SubjectString s
  | JObj m => SubjectMap m
  | JArr l => SubjectMaps (asObject <$> l)
  | _ => SubjectOther
  end.

(** The template of [filterConstraints] under [limit_disclosure = required]. *)
Definition skeleton (c : Credential.t) : JSON :=
  JObj [("id", JStr (Credential.ID c));
        ("type", JArr (JStr <$> Credential.Types c));
        ("@context", JArr (JStr <$> Credential.Context c));
        ("issuer", JStr issuer);
        ("credentialSubject", Credential.Subject c);
        ("issuanceDate", JStr issuanceDate)].

(** The field loop of [filterConstraints]: the first path-not-applicable
    makes the credential inapplicable, any other error aborts with the index
    of the field.  The result is [applicable] and [predicate]. *)
Fixpoint fieldsLoop (fields : list Field.t) (i : nat) (credentialMap : JSON)
    (applicable predicate : bool) : string + (bool * bool) :=
  match fields with
  | [] => inr (applicable, predicate)
  | field :: rest =>
    match filterField field credentialMap with
    | None =>
      fieldsLoop rest (S i) credentialMap true
        (isRequired (Field.Predicate field) || predicate)
    | Some errPathNotApplicable => inr (false, predicate)
    | Some (errMarshal msg) => inl ("filter field." +:+ Sprintf_d i +:+ ": " +:+ msg)
    end
  end.

(** [createNewCredential] on the template, then the transient id. *)
Definition reshaped (cs : Constraints.t) (credential : Credential.t) (credentialSrc : JSON)
  : string + Credential.t :=
  let template := if isRequired (Constraints.LimitDisclosure cs)
                  then skeleton credential else credentialSrc in
  match createNewCredential cs credentialSrc template credential with
  | None => inl "create new credential: path evaluation or write failed"
  | Some (inl err) => inl ("create new credential: " +:+ err)
  | Some (inr c) => inr (setID c (tmpID (Credential.ID c) uuid))
  end.

Fixpoint constraintsLoop (cs : Constraints.t) (creds result : list Credential.t)
  : string + list Credential.t :=
  match creds with
  | [] => inr result
  | credential :: rest =>
    if isRequired (Constraints.SubjectIsIssuer cs)
       && negb (subjectIsIssuer (subjectOf credential) issuer)
    then constraintsLoop cs rest result
    else
      let credentialSrc := marshalCredential credential in
      match fieldsLoop (Constraints.Fields cs) 0 credentialSrc false false with
      | inl err => inl err
      | inr (false, _) => constraintsLoop cs rest result
      | inr (true, predicate) =>
        if isRequired (Constraints.LimitDisclosure cs) || predicate then
          match reshaped cs credential credentialSrc with
          | inl err => inl err
          | inr c => constraintsLoop cs rest (result ++ [c])
          end
        else constraintsLoop cs rest (result ++ [credential])
      end
  end.

(** [filterConstraints] as the source has it, for credentials that are not
    SD-JWTs.  Framing fails: a credential without proof is refused, and for
    the others there is no key material here. *)
#[export] Instance constraintPipeline : ConstraintPipeline := {|
  GenerateBBSSelectiveDisclosure credential frame :=
    match Credential.Proofs credential with
    | [] => inl "expected at least one proof present"
    | _ => inl "no BBS+ key material"
    end;
  filterConstraints constraints creds :=
    match constraints with
    | None => inr creds
    | Some cs => constraintsLoop cs creds []
    end |}.
End Demo.

(** ** Worked inputs *)

Definition descriptorA : InputDescriptor.t :=
  InputDescriptor.mk "a" [] "" "" None None None None.

Definition degreeCredential : Credential.t :=
  Credential.mk "urn:vc:degree" ["https://example.org/credentials/v1"]
    ["UniversityDegree"] JNull "" [].

Definition strayCredential : Credential.t :=
  Credential.mk "urn:vc:stray" ["https://unreachable.example/context"]
    ["UniversityDegree"] JNull "" [].

Definition degreeSchema : Schema.t :=
  Schema.mk "https://example.org/UniversityDegree" true.

Definition credential1 : Credential.t :=
  Credential.mk "urn:vc:1" [] ["UniversityDegree"]
    (JObj [("degree", JStr "BachelorDegree")]) "" [].

Definition credential2 : Credential.t :=
  Credential.mk "urn:vc:2" [] ["Passport"] (JObj [("nationality", JStr "NL")]) "" [].

Definition degreeField : Field.t :=
  Field.mk ["$.credentialSubject.degree"] "" "" None None false.

Definition descriptorDegree : InputDescriptor.t :=
  InputDescriptor.mk "a" ["A"] "" "" None None
    (Some (Constraints.mk None None [] [degreeField])) None.

Definition pdDefault : PresentationDefinition.t :=
  PresentationDefinition.mk "pd" "" "" "" None None [] [descriptorA].

Definition pdGroupA : PresentationDefinition.t :=
  PresentationDefinition.mk "pd" "" "" "" None None
    [SubmissionRequirement.mk "" "" All 0 0 0 "A" []] [descriptorDegree].

Definition descriptorB : InputDescriptor.t :=
  InputDescriptor.mk "b" [] "" "" None None None None.

Definition pdTwoDescriptors : PresentationDefinition.t :=
  PresentationDefinition.mk "pd" "" "" "" None None [] [descriptorDegree; descriptorB].

Definition leafA : requirement.t := requirement.mk "" "" "" 1 0 0 [descriptorA] [].

Definition mapping (descriptorID vpFormat vcFormat : string) (index : nat)
  : InputDescriptorMapping.t :=
  InputDescriptorMapping.mk descriptorID vpFormat "$"
    (Some (InputDescriptorMapping.mk descriptorID vcFormat (nestedPath index) None)).

(** A credential document as [json.Marshal] renders one. *)
Definition credentialDoc : JSON :=
  JObj [("@context", JArr [JStr "https://www.w3.org/2018/credentials/v1";
                           JStr "https://www.w3.org/2018/credentials/examples/v1"]);
        ("id", JStr "http://example.edu/credentials/1872");
        ("type", JArr [JStr "VerifiableCredential"; JStr "UniversityDegreeCredential"]);
        ("issuer", JStr "did:example:76e12ec712ebc6f1c221ebfeb1f");
        ("issuanceDate", JStr "2010-01-01T19:23:24Z");
        ("credentialSubject",
         JObj [("id", JStr "did:example:ebfeb1f712ebc6f1c276e12ec21");
               ("degree", JStr "BachelorDegree")])].

(** A credential whose subject lists three degrees, and its document. *)
Definition diplomaCredential : Credential.t :=
  Credential.mk "http://example.edu/credentials/1872"
    ["https://www.w3.org/2018/credentials/v1";
     "https://www.w3.org/2018/credentials/examples/v1"]
    ["VerifiableCredential"; "UniversityDegreeCredential"]
    (JObj [("id", JStr "did:example:ebfeb1f712ebc6f1c276e12ec21");
           ("degree", JArr [JObj [("name", JStr "BSc")];
                             JObj [("name", JStr "MSc")];
                             JObj [("name", JStr "PhD")]])])
    "" [].

Definition diplomaDoc : JSON :=
  JObj [("@context", JArr [JStr "https://www.w3.org/2018/credentials/v1";
                           JStr "https://www.w3.org/2018/credentials/examples/v1"]);
        ("id", JStr "http://example.edu/credentials/1872");
        ("type", JArr [JStr "VerifiableCredential"; JStr "UniversityDegreeCredential"]);
        ("issuer", JStr "did:example:76e12ec712ebc6f1c221ebfeb1f");
        ("issuanceDate", JStr "2010-01-01T19:23:24Z");
        ("credentialSubject",
         JObj [("id", JStr "did:example:ebfeb1f712ebc6f1c276e12ec21");
               ("degree", JArr [JObj [("name", JStr "BSc")];
                                 JObj [("name", JStr "MSc")];
                                 JObj [("name", JStr "PhD")]])])].

(** The name of the third degree, asked as a predicate. *)
Definition phdNameField : Field.t :=
  Field.mk ["$.credentialSubject.degree[2].name"] "" "" None (Some Required) false.

Definition phdConstraints : Constraints.t := Constraints.mk None None [] [phdNameField].

(** What the reshaper emits for [diplomaCredential] under [phdConstraints]. *)
Definition emittedDiploma : Credential.t :=
  Credential.mk "http://example.edu/credentials/1872"
    ["https://www.w3.org/2018/credentials/v1";
     "https://www.w3.org/2018/credentials/examples/v1"]
    ["VerifiableCredential"; "UniversityDegreeCredential"]
    (JObj [("id", JStr "did:example:ebfeb1f712ebc6f1c276e12ec21");
           ("degree", JArr [JObj [("name", JBool true)];
                             JObj [("name", JStr "MSc")];
                             JObj [("name", JStr "PhD")]])])
    "" [].

(** The school of every degree: no degree lists one. *)
Definition schoolField : Field.t :=
  Field.mk ["$.credentialSubject.degree[*].degreeSchool"] "" "" None None false.

Definition degreeTypeField : Field.t :=
  Field.mk ["$.credentialSubject.diploma"; "$.credentialSubject.degree"] "" ""
    (Some (Filter.mk None "" "" None None 0 0 None None (Some (JStr "BachelorDegree"))
             [] None None))
    None false.

Definition srGroupA : SubmissionRequirement.t :=
  SubmissionRequirement.mk "" "" All 0 0 0 "A" [].

(** What the builder makes of [srGroupA] over [descriptorDegree], and of the
    list holding it. *)
Definition leafGroupA : requirement.t :=
  requirement.mk "" "" All 1 0 0 [descriptorDegree] [].

Definition branchGroupA : requirement.t :=
  requirement.mk "" "" "" 1 0 0 [] [leafGroupA].

Definition branchA : requirement.t := requirement.mk "" "" "" 1 0 0 [] [leafA].

Definition masterField : Field.t :=
  Field.mk ["$.credentialSubject.degree"] "" ""
    (Some (Filter.mk None "" "" None None 0 0 None None (Some (JStr "MasterDegree"))
             [] None None))
    None false.

(** The definition of [pdGroupA] without its submission requirement, and the
    leaf the builder makes of it. *)
Definition pdDegreeOnly : PresentationDefinition.t :=
  PresentationDefinition.mk "pd" "" "" "" None None [] [descriptorDegree].

Definition leafDegree : requirement.t :=
  requirement.mk "" "" "" 1 0 0 [descriptorDegree] [].

(** Two descriptors of one id, and the leaf the builder makes of them. *)
Definition descriptorDegreeTwin : InputDescriptor.t :=
  InputDescriptor.mk "a" ["A"] "twin" "" None None
    (Some (Constraints.mk None None [] [degreeField])) None.

Definition pdSameID : PresentationDefinition.t :=
  PresentationDefinition.mk "pd" "" "" "" None None []
    [descriptorDegree; descriptorDegreeTwin].

Definition leafSameID : requirement.t :=
  requirement.mk "" "" "" 2 0 0 [descriptorDegree; descriptorDegreeTwin] [].

(** A definition with a frame. *)
Definition pdFramed : PresentationDefinition.t :=
  PresentationDefinition.mk "pd" "" "" "" None
    (Some (JObj [("@context", JStr "https://www.w3.org/2018/credentials/v1");
                 ("type", JStr "VerifiableCredential")]))
    [] [descriptorDegree].

(** A reshaped credential on its way to the assembler. *)
Definition tmpCredential : Credential.t :=
  Credential.mk "urn:uuid:7tmp_unique_id_0b1c" [] [] JNull "" [].

Definition reportLeafA : MatchedSubmissionRequirement.t :=
  MatchedSubmissionRequirement.mk "" "" "" 1 0 0
    [MatchedInputDescriptor.mk "a" "" "" [credential1]] [].

Definition bucketsAB : gmap string (list ptr) := {["a" := [0%nat]; "b" := [0%nat; 1%nat]]}.

Definition bucketA : gmap string (list Credential.t) := {["a" := [credential1]]}.

(** * Properties *)

(** ** Strings *)

Lemma append_nil_l (s : string) : "" +:+ s = s.
Proof. reflexivity. Qed.

Lemma append_cons (a : ascii) (s1 s2 : string) :
  String a s1 +:+ s2 = String a (s1 +:+ s2).
Proof. reflexivity. Qed.

Lemma prefix_append (m s : string) : String.prefix m (m +:+ s) = true.
Proof.
  induction m as [|a m IH]; [by destruct s|].
  rewrite append_cons. simpl. destruct (ascii_dec a a); [done | congruence].
Qed.

(** A needle that is not a prefix of [id] but is one of [id ++ rest] straddles
    the seam: [id] is a proper prefix of it and the remainder starts [rest]. *)
Lemma prefix_straddles (m id rest : string) :
  String.prefix m id = false → String.prefix m (id +:+ rest) = true →
  ∃ a m2, m = id +:+ String a m2 ∧ String.prefix (String a m2) rest = true.
Proof.
  revert id. induction m as [|a m IH]; intros id Hno Hyes.
  - by destruct id.
  - destruct id as [|b id].
    + rewrite append_nil_l in Hyes. exists a, m. by rewrite append_nil_l.
    + rewrite append_cons in Hyes. simpl in Hno, Hyes.
      destruct (ascii_dec a b) as [->|]; [|done].
      destruct (IH id Hno Hyes) as (a2 & m2 & -> & Hp).
      exists a2, m2. by rewrite append_cons.
Qed.

Lemma occurs_middle (c : ascii) (s1 s2 : string) : occurs c (s1 +:+ String c s2) = true.
Proof.
  induction s1 as [|a s1 IH].
  - rewrite append_nil_l. simpl. by rewrite Ascii.eqb_refl.
  - rewrite append_cons. simpl. rewrite IH. by destruct (Ascii.eqb a c).
Qed.

(** The marker has no border: once [id] is non-empty and the marker is not a
    prefix of [id], appending the marker does not make it one. *)
Lemma tmpEnding_no_overlap (a : ascii) (id rest : string) :
  String.prefix tmpEnding (String a id) = false →
  String.prefix tmpEnding (String a id +:+ tmpEnding +:+ rest) = false.
Proof.
  intros Hno. destruct (String.prefix tmpEnding (String a id +:+ _)) eqn:Hyes; [|done].
  destruct (prefix_straddles _ _ _ Hno Hyes) as (b & m2 & Hm & Hp).
  unfold tmpEnding in Hm, Hp. rewrite append_cons in Hm, Hp. simpl in Hp.
  destruct (ascii_dec b "t") as [->|]; [|done].
  injection Hm as _ Hm.
  pose proof (occurs_middle "t" id m2) as Hocc. rewrite <- Hm in Hocc.
  by vm_compute in Hocc.
Qed.

Lemma strings_Index_from_ge (s m : string) (i : Z) :
  strings_Index_from s m i = -1 ∨ i ≤ strings_Index_from s m i.
Proof.
  revert i. induction s as [|a s IH]; intros i; cbn [strings_Index_from].
  - destruct (String.prefix m ""); [right; lia | by left].
  - destruct (String.prefix m (String a s)); [right; lia|].
    destruct (IH (i + 1)); [by left | right; lia].
Qed.

Lemma strings_Index_from_tmpID (id uuid : string) (i : Z) :
  0 ≤ i → strings_Index_from id tmpEnding i = -1 →
  strings_Index_from (id +:+ tmpEnding +:+ uuid) tmpEnding i
  = i + Z.of_nat (String.length id).
Proof.
  revert i. induction id as [|a id IH]; intros i Hi Habs.
  - rewrite append_nil_l. destruct uuid; simpl; lia.
  - cbn [strings_Index_from] in Habs.
    destruct (String.prefix tmpEnding (String a id)) eqn:Hp; [lia|].
    rewrite append_cons. cbn [strings_Index_from].
    rewrite <- append_cons, tmpEnding_no_overlap by done.
    destruct (strings_Index_from_ge id tmpEnding (i + 1)); [|lia].
    rewrite IH by (done || lia). cbn [String.length]. lia.
Qed.

Lemma substring_append_l (id rest : string) :
  String.substring 0 (String.length id) (id +:+ rest) = id.
Proof.
  induction id as [|a id IH]; [by destruct rest|].
  rewrite append_cons. simpl. by rewrite IH.
Qed.

Lemma prefix_substring (m s : string) (n : nat) :
  String.prefix m (String.substring 0 n s) = true → String.prefix m s = true.
Proof.
  revert s n. induction m as [|a m IH]; intros s n; [by destruct s|].
  destruct s as [|b s]; [by destruct n|].
  destruct n as [|n]; [done|]. simpl.
  destruct (ascii_dec a b); [apply IH | done].
Qed.

Lemma strings_Index_from_slice (s : string) (i i' : Z) :
  strings_Index_from s tmpEnding i ≠ -1 →
  strings_Index_from
    (String.substring 0 (Z.to_nat (strings_Index_from s tmpEnding i - i)) s) tmpEnding i'
  = -1.
Proof.
  revert i i'. induction s as [|b s IH]; intros i i' Hj; [done|].
  cbn [strings_Index_from] in *.
  destruct (String.prefix tmpEnding (String b s)) eqn:Hp.
  - by rewrite Z.sub_diag.
  - destruct (strings_Index_from_ge s tmpEnding (i + 1)) as [|Hge]; [done|].
    replace (Z.to_nat (strings_Index_from s tmpEnding (i + 1) - i))
      with (S (Z.to_nat (strings_Index_from s tmpEnding (i + 1) - (i + 1)))) by lia.
    cbn [String.substring strings_Index_from].
    set (k := Z.to_nat (strings_Index_from s tmpEnding (i + 1) - (i + 1))).
    destruct (String.prefix tmpEnding (String b (String.substring 0 k s))) eqn:Hq.
    + apply (prefix_substring _ (String b s) (S k)) in Hq. congruence.
    + by apply IH.
Qed.

(** What [trimTmpID] returns holds no marker. *)
Lemma trimTmpID_marker_free (id : string) :
  strings_Contains (trimTmpID id) tmpEnding = false.
Proof.
  unfold strings_Contains, trimTmpID, sliceTo.
  destruct (Z.eqb_spec (strings_Index id tmpEnding) (-1)) as [->|Hne]; [done|].
  unfold strings_Index in *.
  pose proof (strings_Index_from_slice id 0 0 Hne) as Hs.
  rewrite Z.sub_0_r in Hs. by rewrite Hs.
Qed.

Lemma trimTmpID_fixed (id : string) :
  strings_Contains id tmpEnding = false → trimTmpID id = id.
Proof.
  unfold strings_Contains, trimTmpID. intros Hc.
  destruct (strings_Index_from_ge id tmpEnding 0) as [Hi|Hi];
    unfold strings_Index in *; [by rewrite Hi | lia].
Qed.

Lemma trimTmpID_idemp (id : string) : trimTmpID (trimTmpID id) = trimTmpID id.
Proof. apply trimTmpID_fixed, trimTmpID_marker_free. Qed.

(** ** Submission assembler: emitted ids *)

Lemma merge_credentials_trimmed (h0 : store) (fmt d : string) (creds : list ptr)
    (st : mergeState) :
  trimmedFrom h0 st → (∀ p, p ∈ creds → (p < length h0)%nat) →
  ∃ st', merge_credentials fmt d creds st = Some st' ∧ trimmedFrom h0 st'.
Proof.
  revert st. induction creds as [|p creds IH]; intros st Hinv Hval; [by eexists|].
  destruct Hinv as (Hlen & Hall & Hres).
  assert (p < length h0)%nat as Hp by (apply Hval; left).
  destruct (lookup_lt_is_Some_2 h0 p Hp) as [c0 Hc0].
  destruct (Hall p c0 Hc0) as (c & Hc & Hid).
  simpl. rewrite Hc. case_bool_decide as Hseen; simpl.
  - apply IH; [|intros; apply Hval; by right]. by split_and!.
  - apply IH; [|intros; apply Hval; by right].
    assert (trimTmpID (Credential.ID c) = trimTmpID (Credential.ID c0)) as Htrim.
    { destruct Hid as [->| ->]; [done | apply trimTmpID_idemp]. }
    split_and!; cbn [heap result].
    + by rewrite length_insert.
    + intros q cq Hq. destruct (decide (q = p)) as [->|Hne].
      * rewrite list_lookup_insert_eq by lia. eexists; split; [done|].
        right. cbn. congruence.
      * rewrite list_lookup_insert_ne by done. by apply Hall.
    + intros q [Hq| ->%list_elem_of_singleton]%elem_of_app.
      * destruct (decide (q = p)) as [->|Hne].
        -- exists c0. eexists. rewrite list_lookup_insert_eq by lia. by split_and!.
        -- rewrite list_lookup_insert_ne by done. by apply Hres.
      * exists c0. eexists. rewrite list_lookup_insert_eq by lia. by split_and!.
Qed.

Lemma merge_keys_trimmed (h0 : store) (fmt : string) (m : gmap string (list ptr))
    (keys : list string) (st : mergeState) :
  trimmedFrom h0 st →
  (∀ k l p, m !! k = Some l → p ∈ l → (p < length h0)%nat) →
  ∃ st', merge_keys fmt m keys st = Some st' ∧ trimmedFrom h0 st'.
Proof.
  intros Hinv Hval. revert st Hinv.
  induction keys as [|k keys IH]; intros st Hinv; [by eexists|].
  cbn [merge_keys].
  destruct (merge_credentials_trimmed h0 fmt k (default [] (m !! k)) st Hinv)
    as (st1 & -> & Hinv1).
  { intros p Hp. destruct (m !! k) as [l|] eqn:Hk; [by eapply Hval | by inversion Hp]. }
  by apply IH.
Qed.

Lemma merge_trimmed (fmt : string) (m : gmap string (list ptr)) (h : store) :
  validBuckets m h →
  ∃ h' res descs, merge fmt m h = Some (h', res, descs) ∧
    ∀ p, p ∈ res →
      ∃ c0 c, h !! p = Some c0 ∧ h' !! p = Some c
              ∧ Credential.ID c = trimTmpID (Credential.ID c0).
Proof.
  intros Hval. unfold merge.
  destruct (merge_keys_trimmed h fmt m (merge_sort String.le (elements (dom m)))
              (MergeState h ∅ [] [])) as (st & -> & _ & _ & Hres).
  - split_and!; cbn [heap result]; [done| |by inversion 1].
    intros p c0 Hp. exists c0. auto.
  - intros k l p Hk Hp. specialize (Hval k l Hk). cbn in Hval.
    by eapply Forall_forall in Hval.
  - by eexists _, _, _.
Qed.

(** ** Cardinality *)

(** C10: with [count], [min] and [max] all zero the cardinality check accepts
    every value. *)
Theorem isLenApplicable_unconstrained (name purpose : string) (rule : Selection)
    (inputDescriptors : list InputDescriptor.t) (nested : list requirement.t) (val : Z) :
  isLenApplicable (requirement.mk name purpose rule 0 0 0 inputDescriptors nested) val = true.
Proof. reflexivity. Qed.

(** ** Default requirement tree *)

(** C3, as stated, fails on the Create-Presentation path: the leaf built by
    [makeRequirement] for one descriptor does not carry [rule = all]. *)
Lemma makeRequirement_default_rule_not_all :
  ¬ ∃ r, makeRequirement [] [descriptorA] = inr r
         ∧ requirement.Rule r = All
         ∧ requirement.Count r = 1
         ∧ requirement.InputDescriptors r = [descriptorA].
Proof. intros (r & [= <-] & Hrule & _). discriminate Hrule. Qed.

Section DefaultRequirement.
Context `{JWTParser} `{JSONLD} `{ConstraintPipeline}.

(** C3 (amended): without submission requirements both builders produce a
    single leaf holding every descriptor with [count = len(descriptors)];
    Match-Requirements sets [rule = all], Create-Presentation leaves the
    rule empty, and the evaluator treats the two leaves alike. *)
Theorem default_requirement_leaf (descriptors : list InputDescriptor.t) :
  makeRequirementsForMatch [] descriptors
    = inr [requirement.mk "" "" All (len descriptors) 0 0 descriptors []]
  ∧ makeRequirement [] descriptors
    = inr (requirement.mk "" "" "" (len descriptors) 0 0 descriptors [])
  ∧ ∀ pd creds,
      applyRequirement pd (requirement.mk "" "" "" (len descriptors) 0 0 descriptors [])
        creds
      = applyRequirement pd
          (requirement.mk "" "" All (len descriptors) 0 0 descriptors []) creds.
Proof. by split_and!. Qed.
End DefaultRequirement.

(** ** Field filter *)

Section FieldFilterProperties.
Context `{JSONPathEvaluator} `{JSONSchemaValidator}.

Lemma validatePatch_accepts schema patch :
  validatePatch schema patch = None ↔ filterAccepts schema patch.
Proof.
  unfold validatePatch, filterAccepts. destruct schema as [sch|]; [|by split; [left|]].
  destruct (json_Marshal patch) as [msg|raw] eqn:Hm.
  - split; [done|]. intros [?|(? & ? & ? & ? & ?)]; congruence.
  - destruct (gojsonschema_Validate sch raw) as [[]|] eqn:Hv.
    + split; [|done]. intros _. right. by exists sch, raw.
    + split; [done|]. intros [?|(? & ? & ? & ? & ?)]; congruence.
    + split; [done|]. intros [?|(? & ? & ? & ? & ?)]; congruence.
Qed.

Lemma validatePatch_rejects schema patch err :
  validatePatch schema patch = Some err ↔ filterRejects schema patch err.
Proof.
  unfold validatePatch, filterRejects. destruct schema as [sch|].
  2: { split; [done|]. by intros (? & ? & _). }
  destruct (json_Marshal patch) as [msg|raw] eqn:Hm.
  - split.
    + intros [= <-]. exists sch. split; [done|]. left. by exists msg.
    + intros (? & [= <-] & [(? & [= <-] & ->)|(? & ? & _)]); done.
  - destruct (gojsonschema_Validate sch raw) as [[]|] eqn:Hv.
    + split; [done|]. intros (? & [= <-] & [(? & ? & _)|(? & [= <-] & Hn & _)]); [done|].
      by rewrite Hv in Hn.
    + split.
      * intros [= <-]. exists sch. split; [done|]. right. exists raw. by rewrite Hv.
      * intros (? & [= <-] & [(? & ? & _)|(? & ? & _ & ->)]); done.
    + split.
      * intros [= <-]. exists sch. split; [done|]. right. exists raw. by rewrite Hv.
      * intros (? & [= <-] & [(? & ? & _)|(? & ? & _ & ->)]); done.
Qed.

Lemma filterField_loop_skip schema credential pre rest lastErr :
  Forall (notApplicable schema credential) pre →
  ∃ lastErr', filterField_loop schema (pre ++ rest) credential lastErr
              = filterField_loop schema rest credential lastErr'.
Proof.
  intros Hpre. revert lastErr.
  induction Hpre as [|q pre Hq _ IH]; intros lastErr; [by eexists|].
  cbn [app filterField_loop].
  destruct Hq as [-> | (patch & err & -> & ->%validatePatch_rejects)]; apply IH.
Qed.

(** C4 (amended): the paths are tried in order.  A path whose evaluation errs
    records path-not-applicable; a path that evaluates, be it to the empty
    list of a wildcard without match, makes the field applicable at once when
    there is no filter or the filter validates the value, the paths after it
    being ignored; a path that evaluates to a value the filter does not let
    through records path-not-applicable (the validation erred or found the
    value invalid) or the marshalling error.  When no path is applicable the
    filter returns what the last path recorded, and nil when the field has no
    path at all. *)
Theorem filterField_paths_in_order (f : Field.t) (credential : JSON) :
  (∀ pre path post patch,
     Field.Path f = pre ++ path :: post →
     Forall (notApplicable (Field.Filter f) credential) pre →
     jsonpath_Get path credential = Some patch →
     filterAccepts (Field.Filter f) patch →
     filterField f credential = None)
  ∧ (∀ pre path,
       Field.Path f = pre ++ [path] →
       Forall (notApplicable (Field.Filter f) credential) pre →
       (jsonpath_Get path credential = None →
        filterField f credential = Some errPathNotApplicable)
       ∧ (∀ patch err,
            jsonpath_Get path credential = Some patch →
            filterRejects (Field.Filter f) patch err →
            filterField f credential = Some err))
  ∧ (Field.Path f = [] → filterField f credential = None).
Proof.
  unfold filterField. split_and!; [| |by intros ->].
  - intros pre path post patch -> Hpre Hget Hok%validatePatch_accepts.
    destruct (filterField_loop_skip _ _ _ (path :: post) None Hpre) as [e ->].
    cbn [filterField_loop]. by rewrite Hget, Hok.
  - intros pre path -> Hpre.
    destruct (filterField_loop_skip _ _ _ [path] None Hpre) as [e ->].
    cbn [filterField_loop]. split.
    + by intros ->.
    + by intros patch err -> ->%validatePatch_rejects.
Qed.
End FieldFilterProperties.

(** ** Format filter *)

Section FormatFilterProperties.
Context `{JWTParser}.

Lemma hasProofWithType_loop_true proofs proofType :
  hasProofWithType_loop proofs proofType = true
  ↔ ∃ proof, proof ∈ proofs ∧ objLookup "type" proof = Some (JStr proofType).
Proof.
  induction proofs as [|proof proofs IH]; cbn [hasProofWithType_loop].
  - split; [done | by intros (? & ?%elem_of_nil & _)].
  - destruct (objLookup "type" proof) as [[| | |s| |]|] eqn:Hl;
      try (rewrite IH; split;
           [intros (p & ? & ?); exists p; split; [by right|done]
           |intros (p & [->|?]%elem_of_cons & ?); [congruence | by exists p]]).
    destruct (String.eqb_spec s proofType) as [->|Hne].
    + split; [intros _; exists proof; split; [by left|done] | done].
    + rewrite IH; split;
        [intros (p & ? & ?); exists p; split; [by right|done]
        |intros (p & [->|?]%elem_of_cons & ?); [congruence | by exists p]].
Qed.

Lemma credByProof_loop_true c types :
  credByProof_loop c types = true
  ↔ ∃ proofType proof, proofType ∈ types ∧ proof ∈ Credential.Proofs c
                       ∧ objLookup "type" proof = Some (JStr proofType).
Proof.
  induction types as [|t types IH]; cbn [credByProof_loop].
  - split; [done | by intros (? & ? & ?%elem_of_nil & _)].
  - unfold hasProofWithType at 1.
    destruct (hasProofWithType_loop (Credential.Proofs c) t) eqn:Hp.
    + apply hasProofWithType_loop_true in Hp as (proof & ? & ?).
      split; [intros _ | done]. exists t, proof. split_and!; [by left|done..].
    + rewrite IH. split.
      * intros (pt & proof & ? & ? & ?). exists pt, proof. split_and!; [by right|done..].
      * intros (pt & proof & [->|?]%elem_of_cons & ? & ?).
        -- assert (hasProofWithType_loop (Credential.Proofs c) t = true)
             by (apply hasProofWithType_loop_true; eauto). congruence.
        -- by exists pt, proof.
Qed.

Lemma credByProof_true c ldp : credByProof c ldp = true ↔ hasListedProof ldp c.
Proof.
  unfold hasListedProof. destruct ldp as [l|]; cbn [credByProof].
  - rewrite credByProof_loop_true. split.
    + intros (pt & proof & ? & ? & ?). by exists l, pt, proof.
    + intros (l' & pt & proof & [= <-] & ? & ? & ?). by exists pt, proof.
  - split; [done | by intros (? & ? & ? & ? & _)].
Qed.

Lemma algMatch_loop_true alg algs :
  algMatch_loop alg algs = true ↔ ∃ b, b ∈ algs ∧ strings_EqualFold alg b = true.
Proof.
  induction algs as [|a algs IH]; cbn [algMatch_loop].
  - split; [done | by intros (? & ?%elem_of_nil & _)].
  - destruct (strings_EqualFold alg a) eqn:Ha.
    + split; [intros _; exists a; split; [by left|done] | done].
    + rewrite IH. split.
      * intros (b & ? & ?). exists b. split; [by right|done].
      * intros (b & [->|?]%elem_of_cons & ?); [congruence | by exists b].
Qed.

Lemma jwtBucket_true c jwtType : jwtBucket jwtType c = true ↔ hasListedAlg jwtType c.
Proof.
  unfold jwtBucket, hasListedAlg.
  destruct (String.eqb_spec (Credential.JWT c) "") as [He|Hne]; cbn [negb andb].
  { split; [done | by intros [? _]]. }
  destruct (jwt_Parse (Credential.JWT c)) as [[alg [|]]|].
  - destruct jwtType as [[algs]|]; cbn [algMatch JwtType.Alg].
    + rewrite algMatch_loop_true. split.
      * intros (b & ? & ?). split; [done|]. by eexists _, alg, b.
      * intros (_ & t & alg' & b & [= <-] & [= <-] & ? & ?). by exists b.
    + split; [done | by intros (_ & ? & ? & ? & ? & _)].
  - split; [done | by intros (_ & ? & ? & ? & _ & ? & _)].
  - split; [done | by intros (_ & ? & ? & ? & _ & ? & _)].
Qed.

Lemma filterFormat_loop_buckets format credentials bs :
  filterFormat_loop format credentials bs =
  Buckets
    (ldpCreds bs ++ List.filter (fun c => credByProof c (Format.Ldp format)) credentials)
    (ldpvcCreds bs ++ List.filter (fun c => credByProof c (Format.LdpVC format)) credentials)
    (ldpvpCreds bs ++ List.filter (fun c => credByProof c (Format.LdpVP format)) credentials)
    (jwtCreds bs ++ List.filter (jwtBucket (Format.Jwt format)) credentials)
    (jwtvcCreds bs ++ List.filter (jwtBucket (Format.JwtVC format)) credentials)
    (jwtvpCreds bs ++ List.filter (jwtBucket (Format.JwtVP format)) credentials).
Proof.
  revert bs. induction credentials as [|c credentials IH]; intros bs.
  - destruct bs. cbn. by rewrite !app_nil_r.
  - cbn [filterFormat_loop List.filter].
    assert (∀ jt, jwtBucket jt c =
                  match (if negb (String.eqb (Credential.JWT c) "")
                         then jwt_Parse (Credential.JWT c) else Some ("", false)) with
                  | Some (alg, hasAlg) => hasAlg && algMatch alg jt
                  | None => false
                  end) as Hb.
    { intros jt. unfold jwtBucket.
      destruct (String.eqb (Credential.JWT c) ""); [done|].
      by destruct (jwt_Parse (Credential.JWT c)) as [[alg [|]]|]. }
    rewrite !Hb.
    destruct (if negb (String.eqb (Credential.JWT c) "")
              then jwt_Parse (Credential.JWT c) else Some ("", false))
      as [[alg hasAlg]|];
      rewrite IH; cbn [ldpCreds ldpvcCreds ldpvpCreds jwtCreds jwtvcCreds jwtvpCreds];
      unfold appendIf;
      repeat match goal with |- context [if ?b then _ else _] => destruct b end;
      by rewrite <- ?app_assoc.
Qed.

(** C5: the six buckets are the credentials, in input order, that have a
    listed proof type (ldp, ldp_vc, ldp_vp) or a listed JOSE alg up to case
    (jwt, jwt_vc, jwt_vp); the filter returns the first non-empty one in
    that order with its tag, and the empty tag with no credentials when all
    are empty. *)
Theorem filterFormat_first_nonempty_bucket (format : Format.t)
    (credentials : list Credential.t) :
  (∀ c ldp, credByProof c ldp = true ↔ hasListedProof ldp c)
  ∧ (∀ c jwtType, jwtBucket jwtType c = true ↔ hasListedAlg jwtType c)
  ∧ filterFormat format credentials =
    firstNonEmpty
      [ (FormatLDP, List.filter (fun c => credByProof c (Format.Ldp format)) credentials);
        (FormatLDPVC, List.filter (fun c => credByProof c (Format.LdpVC format)) credentials);
        (FormatLDPVP, List.filter (fun c => credByProof c (Format.LdpVP format)) credentials);
        (FormatJWT, List.filter (jwtBucket (Format.Jwt format)) credentials);
        (FormatJWTVC, List.filter (jwtBucket (Format.JwtVC format)) credentials);
        (FormatJWTVP, List.filter (jwtBucket (Format.JwtVP format)) credentials) ].
Proof.
  split_and!; [apply credByProof_true | apply jwtBucket_true |].
  unfold filterFormat. rewrite filterFormat_loop_buckets.
  cbn [ldpCreds ldpvcCreds ldpvpCreds jwtCreds jwtvcCreds jwtvpCreds app firstNonEmpty].
  repeat match goal with
         | |- context [List.filter ?p credentials] =>
           destruct (List.filter p credentials); cbn [len length Z.gtb Z.compare Z.of_nat];
           [|done]
         end.
  done.
Qed.
End FormatFilterProperties.

(** ** Schema gate *)

Lemma schemaLoop_true (schemas : list Schema.t) (sat : gset string) (applicable : bool) :
  schemaLoop schemas sat applicable = true
  ↔ (applicable = true ∨ ∃ s, s ∈ schemas ∧ Schema.URI s ∈ sat)
    ∧ (∀ s, s ∈ schemas → Schema.Required s = true → Schema.URI s ∈ sat).
Proof.
  revert applicable. induction schemas as [|s schemas IH]; intros applicable.
  - cbn. split.
    + intros ->. split; [by left | by intros ? ?%elem_of_nil].
    + by intros [[?|(? & ?%elem_of_nil & _)] _].
  - cbn [schemaLoop]. case_bool_decide as Hs.
    + rewrite IH. split.
      * intros [_ Hreq]. split; [right; exists s; split; [by left|done]|].
        intros s' [->|?]%elem_of_cons ?; [done | by apply Hreq].
      * intros [_ Hreq]. split; [by left|]. intros s' ? ?. apply Hreq; [by right|done].
    + destruct (Schema.Required s) eqn:Hr.
      * split; [done|]. intros [_ Hreq]. destruct Hs. apply Hreq; [by left|done].
      * rewrite IH. split.
        -- intros [Hany Hreq]. split.
           ++ destruct Hany as [?|(s' & ? & ?)]; [by left|].
              right. exists s'. split; [by right|done].
           ++ intros s' [->|?]%elem_of_cons ?; [congruence | by apply Hreq].
        -- intros [Hany Hreq]. split.
           ++ destruct Hany as [?|(s' & [->|?]%elem_of_cons & ?)];
                [by left | done | right; by exists s'].
           ++ intros s' ? ?. apply Hreq; [by right|done].
Qed.

Section SchemaGateProperties.
Context `{JSONLD}.

Lemma typesLoop_spec types ctxObj (sat : gset string) :
  typesLoop types ctxObj sat = sat ∪ typeIRIs types ctxObj.
Proof.
  revert sat. unfold typeIRIs.
  induction types as [|typ types IH]; intros sat; cbn [typesLoop fmap list_fmap union_list].
  - set_solver.
  - destruct (typeFoundInContext typ ctxObj); rewrite IH; set_solver.
Qed.

Lemma contextsLoop_loaded ctxs types contexts (sat : gset string) :
  cacheOK contexts → Forall (fun ctx => is_Some (getContext ctx)) ctxs →
  ∃ contexts', contextsLoop ctxs types contexts sat
               = Some (contexts', sat ∪ ⋃ (contextIRIs types <$> ctxs))
               ∧ cacheOK contexts'.
Proof.
  intros Hc Hl. revert contexts sat Hc.
  induction Hl as [|ctx ctxs [ctxObj Hctx] _ IH]; intros contexts sat Hc.
  - exists contexts. split; [|done]. cbn. f_equal. f_equal. set_solver.
  - cbn [contextsLoop fmap list_fmap union_list]. unfold contextIRIs at 1. rewrite Hctx.
    destruct (contexts !! ctx) as [cached|] eqn:Hk.
    + apply Hc in Hk. assert (cached = ctxObj) as -> by congruence.
      destruct (IH contexts (typesLoop types ctxObj sat) Hc) as (contexts' & -> & Hc').
      exists contexts'. split; [|done]. rewrite typesLoop_spec. f_equal. f_equal. set_solver.
    + destruct (IH (<[ctx:=ctxObj]> contexts) (typesLoop types ctxObj sat))
        as (contexts' & -> & Hc').
      { intros k v. rewrite lookup_insert. case_decide; [congruence | apply Hc]. }
      exists contexts'. split; [|done]. rewrite typesLoop_spec. f_equal. f_equal. set_solver.
Qed.

Lemma contextsLoop_failed ctxs types contexts (sat : gset string) :
  cacheOK contexts → Exists (fun ctx => getContext ctx = None) ctxs →
  contextsLoop ctxs types contexts sat = None.
Proof.
  intros Hc He. revert contexts sat Hc.
  induction He as [ctx ctxs Hctx|ctx ctxs _ IH]; intros contexts sat Hc;
    cbn [contextsLoop].
  - destruct (contexts !! ctx) as [cached|] eqn:Hk; [|by rewrite Hctx].
    apply Hc in Hk. congruence.
  - destruct (contexts !! ctx) as [cached|] eqn:Hk; [by apply IH|].
    destruct (getContext ctx) as [ctxObj|] eqn:Hctx; [|done].
    apply IH. intros k v. rewrite lookup_insert. case_decide; [congruence | apply Hc].
Qed.

Lemma schemaGate_true schemas c : schemaGate schemas c = true ↔ schemaAccepts schemas c.
Proof.
  unfold schemaGate, schemaAccepts. rewrite schemaLoop_true.
  split; [intros [[?|?] ?] | intros [? ?]]; (done || by split; [right|]).
Qed.

Lemma filterSchema_loop_loaded schemas credentials contexts result :
  cacheOK contexts → Forall contextsLoad credentials →
  filterSchema_loop schemas credentials contexts result
  = result ++ List.filter (schemaGate schemas) credentials.
Proof.
  intros Hc Hl. revert contexts result Hc.
  induction Hl as [|c credentials Hload _ IH]; intros contexts result Hc.
  - cbn. by rewrite app_nil_r.
  - cbn [filterSchema_loop List.filter].
    destruct (contextsLoop_loaded (Credential.Context c) (Credential.Types c) contexts ∅
                Hc Hload) as (contexts' & -> & Hc').
    rewrite IH by done. unfold schemaGate at 2, resolvedIRIs.
    rewrite (left_id_L ∅ (∪)).
    destruct (schemaLoop _ _ _); by rewrite <- ?app_assoc.
Qed.

Lemma filterSchema_loop_failed schemas credentials contexts result :
  cacheOK contexts → Exists (fun c => ¬ contextsLoad c) credentials →
  filterSchema_loop schemas credentials contexts result = [].
Proof.
  intros Hc He. revert contexts result Hc.
  induction credentials as [|c credentials IH]; intros contexts result Hc;
    [by inversion He|].
  cbn [filterSchema_loop].
  destruct (decide (Forall (fun ctx => is_Some (getContext ctx)) (Credential.Context c)))
    as [Hload|Hfail].
  - destruct (contextsLoop_loaded (Credential.Context c) (Credential.Types c) contexts ∅
                Hc Hload) as (contexts' & -> & Hc').
    apply IH; [|done]. by inversion He.
  - rewrite contextsLoop_failed; [done..|].
    apply not_Forall_Exists in Hfail; [|apply _].
    eapply Exists_impl; [done|]. cbn. intros ctx Hn.
    destruct (getContext ctx); [|done]. destruct Hn. by eexists.
Qed.

(** C6 (amended): when every [@context] of every credential in the list
    loads, the gate keeps exactly the credentials for which at least one
    schema uri is among the resolved type IRIs and no required schema is
    unmatched; when some context fails to load, the gate returns nothing. *)
Theorem filterSchema_accepts (schemas : list Schema.t) (credentials : list Credential.t) :
  (Forall contextsLoad credentials →
   ∃ accept : Credential.t → bool,
     (∀ c, accept c = true ↔ schemaAccepts schemas c)
     ∧ filterSchema schemas credentials = List.filter accept credentials)
  ∧ (Exists (fun c => ¬ contextsLoad c) credentials →
     filterSchema schemas credentials = []).
Proof.
  unfold filterSchema. split.
  - intros Hl. exists (schemaGate schemas). split; [apply schemaGate_true|].
    by rewrite filterSchema_loop_loaded.
  - intros He. by apply filterSchema_loop_failed.
Qed.
End SchemaGateProperties.

(** ** Requirement evaluator *)

Lemma isLenApplicable_true (r : requirement.t) (val : Z) :
  isLenApplicable r val = true
  ↔ (requirement.Count r > 0 → val = requirement.Count r)
    ∧ (requirement.Min r > 0 → requirement.Min r ≤ val)
    ∧ (requirement.Max r > 0 → val ≤ requirement.Max r).
Proof.
  unfold isLenApplicable.
  destruct (Z.gtb_spec (requirement.Count r) 0), (Z.eqb_spec val (requirement.Count r)),
    (Z.gtb_spec (requirement.Min r) 0), (Z.gtb_spec (requirement.Min r) val),
    (Z.gtb_spec (requirement.Max r) 0), (Z.ltb_spec (requirement.Max r) val);
    cbn; split; (done || lia).
Qed.

Lemma len_cons_eqb {A} (a : A) (l : list A) : (len (a :: l) =? 0) = false.
Proof. unfold len. apply Z.eqb_neq. cbn [length]. lia. Qed.

Lemma NoDup_fmap_filter {A B} (f : A → B) (P : A → bool) (l : list A) :
  NoDup (f <$> l) → NoDup (f <$> List.filter P l).
Proof.
  induction l as [|a l IH]; [done|].
  cbn [fmap list_fmap List.filter]. intros [Hnotin Hnd]%NoDup_cons.
  destruct (P a); [|by apply IH].
  cbn [fmap list_fmap]. apply NoDup_cons. split; [|by apply IH].
  intros (b & Hb & Hin)%list_elem_of_fmap. apply Hnotin.
  apply list_elem_of_fmap. exists b. split; [done|].
  apply list_elem_of_In in Hin. apply filter_In in Hin as [Hin _].
  by apply list_elem_of_In.
Qed.

Section EvaluatorProperties.
Context `{JWTParser} `{JSONLD} `{ConstraintPipeline}.

Lemma descriptorsLoop_dom pd descs creds vpFormat (result : gmap string (list Credential.t)) :
  Forall (pipelineSucceeds pd creds) descs →
  ∃ vpFormat' result',
    descriptorsLoop pd descs creds vpFormat result = inr (vpFormat', result')
    ∧ dom result'
      = dom result ∪ list_to_set (InputDescriptor.ID <$> List.filter (matched pd creds) descs).
Proof.
  intros Hok. revert vpFormat result.
  induction Hok as [|d descs [[descFormat filtered] Hd] _ IH]; intros vpFormat result.
  - exists vpFormat, result. split; [done|]. cbn. set_solver.
  - cbn [descriptorsLoop List.filter]. unfold matched at 1. rewrite Hd.
    edestruct IH as (vpFormat' & result' & Heq & Hdom). rewrite Heq.
    exists vpFormat', result'. split; [done|]. rewrite Hdom.
    destruct filtered as [|c filtered]; [done|].
    rewrite len_cons_eqb. cbn [negb fmap list_fmap list_to_set].
    rewrite dom_insert_L. set_solver.
Qed.

Lemma nestedLoop_app apply pre rest nestedResult set vpFormat :
  nestedLoop apply (pre ++ rest) nestedResult set vpFormat
  = match nestedLoop apply pre nestedResult set vpFormat with
    | inl err => inl err
    | inr (nestedResult', set', vpFormat') =>
      nestedLoop apply rest nestedResult' set' vpFormat'
    end.
Proof.
  revert nestedResult set vpFormat.
  induction pre as [|r pre IH]; intros nestedResult set vpFormat; [done|].
  cbn [app nestedLoop].
  destruct (apply r) as [[| |]|[vpFmt res]]; [apply IH | done | done |].
  destruct (negb _); apply IH.
Qed.

Lemma nestedLoop_not_ErrNoCredentials apply rs nestedResult set vpFormat :
  nestedLoop apply rs nestedResult set vpFormat ≠ inl ErrNoCredentials.
Proof.
  revert nestedResult set vpFormat.
  induction rs as [|r rs IH]; intros nestedResult set vpFormat; [done|].
  cbn [nestedLoop].
  destruct (apply r) as [[| |]|[vpFmt res]]; [apply IH | done | done |].
  destruct (negb _); apply IH.
Qed.

Lemma nestedLoop_all_skipped apply rs nestedResult set vpFormat :
  Forall (fun r => apply r = inl ErrNoCredentials) rs →
  nestedLoop apply rs nestedResult set vpFormat = inr (nestedResult, set, vpFormat).
Proof.
  induction 1 as [|r rs Hr _ IH]; [done|]. cbn [nestedLoop]. by rewrite Hr.
Qed.

Lemma nestedLoop_passed pd creds rs nestedResult set vpFormat :
  Forall (childPassed pd creds) rs →
  ∃ st, nestedLoop (fun r => applyRequirement pd r creds) rs nestedResult set vpFormat
        = inr st.
Proof.
  intros Hp. revert nestedResult set vpFormat.
  induction Hp as [|r rs Hr _ IH]; intros nestedResult set vpFormat; [by eexists|].
  cbn [nestedLoop]. destruct Hr as [->|[[vpFmt res] ->]]; [apply IH|].
  destruct (negb _); apply IH.
Qed.

(** In a branch, a child that returns the no-credentials error is skipped,
    the result being that of the branch without it; the first child that
    returns another error aborts the call with that error; and the branch
    itself never returns the no-credentials error: when every child returns
    it, the branch returns no credentials and format ldp_vp. *)
Theorem branch_children (pd : PresentationDefinition.t) (creds : list Credential.t)
    (name purpose : string) (rule : Selection) (cnt mn mx : Z) (nested : list requirement.t) :
  let branch := requirement.mk name purpose rule cnt mn mx [] in
  (∀ pre r post,
     nested = pre ++ r :: post →
     applyRequirement pd r creds = inl ErrNoCredentials →
     applyRequirement pd (branch nested) creds = applyRequirement pd (branch (pre ++ post)) creds)
  ∧ (∀ pre r post err,
       nested = pre ++ r :: post →
       Forall (childPassed pd creds) pre →
       applyRequirement pd r creds = inl err → err ≠ ErrNoCredentials →
       applyRequirement pd (branch nested) creds = inl err)
  ∧ applyRequirement pd (branch nested) creds ≠ inl ErrNoCredentials
  ∧ (Forall (fun r => applyRequirement pd r creds = inl ErrNoCredentials) nested →
     applyRequirement pd (branch nested) creds = inr (FormatLDPVP, ∅)).
Proof.
  intros branch. subst branch. cbn [applyRequirement descriptorsLoop].
  change (negb (len [] =? 0)) with false. cbv iota. split_and!.
  - intros pre r post -> Hr. rewrite !nestedLoop_app.
    destruct (nestedLoop _ pre [] ∅ FormatLDPVP) as [|[[nr set] fmt]]; [done|].
    cbn [nestedLoop]. by rewrite Hr.
  - intros pre r post err -> Hpre Hr Hne. rewrite nestedLoop_app.
    destruct (nestedLoop_passed pd creds pre [] ∅ FormatLDPVP Hpre) as [[[nr set] fmt] ->].
    cbn [nestedLoop]. rewrite Hr. by destruct err.
  - pose proof (nestedLoop_not_ErrNoCredentials (fun r => applyRequirement pd r creds)
                  nested [] ∅ FormatLDPVP) as Hn.
    destruct (nestedLoop _ nested [] ∅ FormatLDPVP) as [|[[nr set] fmt]]; congruence.
  - intros Hall. by rewrite nestedLoop_all_skipped.
Qed.
End EvaluatorProperties.

(** ** Selective-disclosure reshaper *)

Section ReshaperProperties.
Context {PK : JSONPathKeys} {CC : CredentialCodec}.

Lemma reshape_paths_app constraints BBSSupport f src pre post st :
  reshape_paths constraints BBSSupport f src (pre ++ post) st
  = match reshape_paths constraints BBSSupport f src pre st with
    | None => None
    | Some st1 => reshape_paths constraints BBSSupport f src post st1
    end.
Proof.
  revert st. induction pre as [|path pre IH]; intros st; [done|].
  cbn [app reshape_paths]. destruct (strings_Contains _ _); [apply IH|].
  destruct (sjson_Set _ _ _); [apply IH | done].
Qed.

Lemma reshape_fields_app constraints BBSSupport fpre fpost src st :
  reshape_fields constraints BBSSupport (fpre ++ fpost) src st
  = match reshape_fields constraints BBSSupport fpre src st with
    | None => None
    | Some st1 => reshape_fields constraints BBSSupport fpost src st1
    end.
Proof.
  revert st. induction fpre as [|f fpre IH]; intros st; [done|].
  cbn [app reshape_fields]. destruct (getJSONPaths _ _); [|done].
  destruct (reshape_paths _ _ _ _ _ _); [apply IH | done].
Qed.

(** Once a predicate has substituted a value the flag stays set. *)
Lemma reshape_paths_modified constraints BBSSupport f src jPaths st st' :
  reshape_paths constraints BBSSupport f src jPaths st = Some st' →
  modifiedByPredicate st = true → modifiedByPredicate st' = true.
Proof.
  revert st. induction jPaths as [|path jPaths IH]; intros st; cbn [reshape_paths].
  - by intros [= <-].
  - destruct (strings_Contains _ _); [apply IH|].
    destruct (sjson_Set _ _ _); [|done]. intros Hr Hm. apply (IH _ Hr).
    cbn [modifiedByPredicate]. by rewrite Hm.
Qed.

Lemma reshape_fields_modified constraints BBSSupport fields src st st' :
  reshape_fields constraints BBSSupport fields src st = Some st' →
  modifiedByPredicate st = true → modifiedByPredicate st' = true.
Proof.
  revert st. induction fields as [|f fields IH]; intros st; cbn [reshape_fields].
  - by intros [= <-].
  - destruct (getJSONPaths _ _); [|done].
    destruct (reshape_paths _ _ _ _ _ _) eqn:Hp; [|done].
    intros Hr Hm. apply (IH _ Hr). by eapply reshape_paths_modified.
Qed.

Lemma reshape_paths_frame constraints BBSSupport f src p jPaths st st' :
  Forall (fun path => preserves p path.1) jPaths →
  reshape_paths constraints BBSSupport f src jPaths st = Some st' →
  gjson_Get (limitedCred st') p = gjson_Get (limitedCred st) p.
Proof.
  intros Hf. revert st. induction Hf as [|path jPaths Hpath _ IH]; intros st;
    cbn [reshape_paths].
  - by intros [= <-].
  - destruct (strings_Contains _ _); [apply IH|].
    destruct (sjson_Set _ _ _) as [limited|] eqn:Hs; [|done].
    intros Hr. rewrite (IH _ Hr). cbn [limitedCred]. by eapply Hpath.
Qed.

Lemma reshape_fields_frame constraints BBSSupport src p fields st st' :
  (∀ q, fieldWrites src fields q → preserves p q) →
  reshape_fields constraints BBSSupport fields src st = Some st' →
  gjson_Get (limitedCred st') p = gjson_Get (limitedCred st) p.
Proof.
  revert st. induction fields as [|f fields IH]; intros st Hf; cbn [reshape_fields].
  - by intros [= <-].
  - destruct (getJSONPaths _ _) as [jPaths|] eqn:Hj; [|done].
    destruct (reshape_paths _ _ _ _ _ _) as [st1|] eqn:Hp; [|done].
    intros Hr. rewrite (IH st1); [| |done].
    + eapply reshape_paths_frame; [|done]. apply Forall_forall. intros path Hin.
      apply Hf. exists f, jPaths, path. split_and!; [by left|done..].
    + intros q (f' & ps & path & ? & ? & ? & ->). apply Hf.
      exists f', ps, path. split_and!; [by right|done..].
Qed.

(** For a field with [predicate = required], every match whose renumbered
    path does not mention [credentialSchema] is written into the reshaped
    document as boolean [true], at the renumbered path; the credential is
    then parsed from the final document; and the value read at the renumbered
    path in the final document is [true] whenever no later match writes over
    it ([sjson]/[gjson] being a lawful store). *)
Theorem predicate_required_writes_true (constraints : Constraints.t) (src limited : JSON)
    (credential : Credential.t) (fpre fpost : list Field.t) (f : Field.t)
    (pre post : list (string * string)) (path : string * string) (st' : reshapeState) :
  Constraints.Fields constraints = fpre ++ f :: fpost →
  Field.Predicate f = Some Required →
  getJSONPaths (Field.Path f) src = Some (pre ++ path :: post) →
  strings_Contains path.1 credentialSchema = false →
  reshape_fields constraints (hasBBS credential) (Constraints.Fields constraints) src
    (ReshapeState limited false ∅) = Some st' →
  (∃ st0 st1 st2 st3,
     reshape_fields constraints (hasBBS credential) fpre src (ReshapeState limited false ∅)
       = Some st0
     ∧ reshape_paths constraints (hasBBS credential) f src pre st0 = Some st1
     ∧ disclosedValue f src path = JBool true
     ∧ sjson_Set (limitedCred st1) path.1 (JBool true) = Some (limitedCred st2)
     ∧ reshape_paths constraints (hasBBS credential) f src post st2 = Some st3
     ∧ reshape_fields constraints (hasBBS credential) fpost src st3 = Some st')
  ∧ createNewCredential constraints src limited credential
    = Some (ParseCredential (limitedCred st'))
  ∧ ((∀ d d', sjson_Set d path.1 (JBool true) = Some d' → gjson_Get d' path.1 = JBool true) →
     Forall (fun later => preserves path.1 later.1) post →
     (∀ q, fieldWrites src fpost q → preserves path.1 q) →
     gjson_Get (limitedCred st') path.1 = JBool true).
Proof.
  intros Hfields Hpred Hpaths Hschema Hrun.
  unfold createNewCredential. rewrite Hrun. rewrite Hfields in Hrun.
  rewrite reshape_fields_app in Hrun.
  destruct (reshape_fields _ _ fpre _ _) as [st0|] eqn:Hf0; [|done].
  cbn [reshape_fields] in Hrun. rewrite Hpaths, reshape_paths_app in Hrun.
  destruct (reshape_paths _ _ f src pre st0) as [st1|] eqn:Hf1; [|done].
  cbn [reshape_paths] in Hrun. rewrite Hschema in Hrun.
  assert (disclosedValue f src path = JBool true) as Hval.
  { unfold disclosedValue. by rewrite Hpred. }
  rewrite Hval in Hrun.
  destruct (sjson_Set (limitedCred st1) path.1 (JBool true)) as [limited2|] eqn:Hset;
    [|done].
  set (st2 := ReshapeState limited2 _ _) in Hrun.
  destruct (reshape_paths _ _ f src post st2) as [st3|] eqn:Hf3; [|done].
  assert (modifiedByPredicate st' = true) as Hmod.
  { eapply reshape_fields_modified; [done|]. eapply reshape_paths_modified; [done|].
    subst st2. cbn [modifiedByPredicate]. rewrite Hpred.
    by destruct (modifiedByPredicate st1). }
  split_and!.
  - by exists st0, st1, st2, st3.
  - rewrite Hmod. by rewrite !orb_true_r.
  - intros Hlaw Hpost Hlater.
    rewrite (reshape_fields_frame _ _ _ _ _ _ _ Hlater Hrun).
    rewrite (reshape_paths_frame _ _ _ _ _ _ _ _ Hpost Hf3).
    by apply (Hlaw (limitedCred st1)).
Qed.
End ReshaperProperties.

(** ** Strings: occurrences under appending *)

Lemma prefix_length_le (m s : string) :
  String.prefix m s = true → (String.length m ≤ String.length s)%nat.
Proof.
  revert s. induction m as [|a m IH]; intros s; [cbn; lia|].
  destruct s as [|b s]; [done|]. simpl.
  destruct (ascii_dec a b); [|done]. intros Hp%IH. lia.
Qed.

Lemma prefix_app_true (m s t : string) :
  String.prefix m s = true → String.prefix m (s +:+ t) = true.
Proof.
  revert s. induction m as [|a m IH]; intros s; [by destruct (s +:+ t)|].
  destruct s as [|b s]; [done|]. rewrite append_cons. simpl.
  destruct (ascii_dec a b); [apply IH | done].
Qed.

Lemma prefix_app_false (m s t : string) :
  String.prefix m s = false → (String.length m ≤ String.length s)%nat →
  String.prefix m (s +:+ t) = false.
Proof.
  revert s. induction m as [|a m IH]; intros s; [by destruct s|].
  destruct s as [|b s]; [cbn; lia|]. rewrite append_cons. simpl.
  destruct (ascii_dec a b); [|done]. intros Hp Hl. apply IH; [done | lia].
Qed.

Lemma strings_Index_from_found (s m : string) (i : Z) :
  strings_Index_from s m i ≠ -1 →
  (String.length m ≤ String.length s)%nat
  ∧ i ≤ strings_Index_from s m i ≤ i + Z.of_nat (String.length s).
Proof.
  revert i. induction s as [|a s IH]; intros i; cbn [strings_Index_from].
  - destruct (String.prefix m "") eqn:Hp; [|done].
    apply prefix_length_le in Hp. intros _. cbn in *. lia.
  - destruct (String.prefix m (String a s)) eqn:Hp.
    + apply prefix_length_le in Hp. intros _. cbn [String.length] in *. lia.
    + intros [Hl Hb]%IH. cbn [String.length]. lia.
Qed.

Lemma strings_Index_from_app (s t m : string) (i : Z) :
  strings_Index_from s m i ≠ -1 →
  strings_Index_from (s +:+ t) m i = strings_Index_from s m i.
Proof.
  revert i. induction s as [|a s IH]; intros i; cbn [strings_Index_from].
  - destruct (String.prefix m "") eqn:Hp; [|done]. intros _.
    assert (m = "") as -> by (by destruct m). rewrite append_nil_l. by destruct t.
  - rewrite append_cons. cbn [strings_Index_from]. rewrite <- append_cons.
    destruct (String.prefix m (String a s)) eqn:Hp.
    + by rewrite prefix_app_true.
    + intros Hf. rewrite prefix_app_false; [by apply IH|done|].
      apply strings_Index_from_found in Hf as [Hl _]. cbn [String.length]. lia.
Qed.

Lemma substring_app_le (s t : string) (n : nat) :
  (n ≤ String.length s)%nat →
  String.substring 0 n (s +:+ t) = String.substring 0 n s.
Proof.
  revert n. induction s as [|a s IH]; intros n Hn.
  - cbn in Hn. assert (n = 0%nat) as -> by lia. rewrite append_nil_l. by destruct t.
  - rewrite append_cons. destruct n as [|n]; [done|]. simpl. rewrite IH; [done|].
    cbn in Hn. lia.
Qed.

Lemma prefix_substring_self (s : string) (n : nat) :
  String.prefix (String.substring 0 n s) s = true.
Proof.
  revert n. induction s as [|a s IH]; intros [|n]; try done.
  simpl. destruct (ascii_dec a a); [apply IH | done].
Qed.

Lemma prefix_refl (s : string) : String.prefix s s = true.
Proof. induction s as [|a s IH]; [done|]. simpl. by destruct (ascii_dec a a). Qed.

(** A needle that cannot straddle its own start is found, after [id], exactly
    at the end of [id]. *)
Lemma strings_Index_from_needle (m id rest : string) (i : Z) :
  (∀ a s t, String.prefix m (String a s) = false →
            String.prefix m (String a s +:+ m +:+ t) = false) →
  0 ≤ i → strings_Index_from id m i = -1 →
  strings_Index_from (id +:+ m +:+ rest) m i = i + Z.of_nat (String.length id).
Proof.
  intros Hno. revert i. induction id as [|a id IH]; intros i Hi Habs.
  - rewrite append_nil_l.
    assert (strings_Index_from (m +:+ rest) m i = i) as ->; [|cbn; lia].
    destruct (m +:+ rest) eqn:He; cbn [strings_Index_from]; rewrite <- He;
      by rewrite prefix_append.
  - cbn [strings_Index_from] in Habs.
    destruct (String.prefix m (String a id)) eqn:Hp; [lia|].
    rewrite append_cons. cbn [strings_Index_from].
    rewrite <- append_cons, Hno by done.
    rewrite IH by (done || lia). cbn [String.length]. lia.
Qed.

(** X1: trimming is idempotent, what it returns holds no marker, and it is a
    prefix of the id it was given. *)
Theorem trimTmpID_idempotent_prefix (id : string) :
  trimTmpID (trimTmpID id) = trimTmpID id
  ∧ strings_Contains (trimTmpID id) tmpEnding = false
  ∧ String.prefix (trimTmpID id) id = true.
Proof.
  split_and!; [apply trimTmpID_idemp | apply trimTmpID_marker_free |].
  unfold trimTmpID, sliceTo. destruct (_ =? _); [apply prefix_refl|].
  apply prefix_substring_self.
Qed.

(** X2: whatever the id, appending the marker and a uuid gives an id that
    holds the marker and trims to what the id itself trims to. *)
Theorem trimTmpID_tmpID_any (id uuid : string) :
  strings_Contains (tmpID id uuid) tmpEnding = true
  ∧ trimTmpID (tmpID id uuid) = trimTmpID id.
Proof.
  unfold strings_Contains, trimTmpID, tmpID, sliceTo, strings_Index.
  destruct (Z.eq_dec (strings_Index_from id tmpEnding 0) (-1)) as [Hn|Hf].
  - rewrite strings_Index_from_needle by (done || apply tmpEnding_no_overlap).
    rewrite Hn. split; [apply Z.geb_le; lia|].
    destruct (Z.eqb_spec (0 + Z.of_nat (String.length id)) (-1)); [lia|].
    rewrite Z.add_0_l, Nat2Z.id. apply substring_append_l.
  - rewrite strings_Index_from_app by done.
    pose proof (strings_Index_from_found _ _ _ Hf) as [_ Hb].
    split; [apply Z.geb_le; lia|].
    destruct (Z.eqb_spec (strings_Index_from id tmpEnding 0) (-1)); [done|].
    apply substring_app_le. lia.
Qed.

(** ** Filters: what goes in comes out, in order *)

Lemma sublist_List_filter {A} (p : A → bool) (l : list A) : List.filter p l `sublist_of` l.
Proof.
  induction l as [|a l IH]; [constructor|]. cbn [List.filter].
  destruct (p a); by constructor.
Qed.

Section FilterSublists.
Context `{JWTParser} `{JSONLD}.

(** X3: the fragment of a context URI plays no part in loading it. *)
Theorem getContext_ignores_fragment (uri fragment : string) :
  stripFragment (uri +:+ "#" +:+ fragment) = stripFragment uri
  ∧ getContext (uri +:+ "#" +:+ fragment) = getContext uri.
Proof.
  assert (stripFragment (uri +:+ "#" +:+ fragment) = stripFragment uri) as Hs.
  { assert (∀ a s t, String.prefix "#" (String a s) = false →
                     String.prefix "#" (String a s +:+ "#" +:+ t) = false) as Hhash.
    { intros a s t Hp. rewrite append_cons. cbn [String.prefix] in *.
      destruct (ascii_dec "#" a); [by destruct s | done]. }
    unfold stripFragment, sliceTo, strings_Index.
    destruct (Z.eq_dec (strings_Index_from uri "#" 0) (-1)) as [Hn|Hf].
    - rewrite (strings_Index_from_needle "#" uri fragment 0 Hhash) by done.
      rewrite Hn. destruct (Z.eqb_spec (0 + Z.of_nat (String.length uri)) (-1)); [lia|].
      rewrite Z.add_0_l, Nat2Z.id. apply substring_append_l.
    - rewrite strings_Index_from_app by done.
      pose proof (strings_Index_from_found _ _ _ Hf) as [_ Hb].
      destruct (Z.eqb_spec (strings_Index_from uri "#" 0) (-1)); [done|].
      apply substring_app_le. lia. }
  split; [done|]. unfold getContext. by rewrite Hs.
Qed.

Lemma filterSchema_loop_sublist schemas credentials contexts result :
  filterSchema_loop schemas credentials contexts result = []
  ∨ ∃ kept, kept `sublist_of` credentials
            ∧ filterSchema_loop schemas credentials contexts result = result ++ kept.
Proof.
  revert contexts result.
  induction credentials as [|c credentials IH]; intros contexts result.
  - right. exists []. split; [done|]. cbn. by rewrite app_nil_r.
  - cbn [filterSchema_loop].
    destruct (contextsLoop _ _ _ _) as [[contexts' sat]|]; [|by left].
    destruct (schemaLoop schemas sat false).
    + destruct (IH contexts' (result ++ [c])) as [->|(kept & Hk & ->)]; [by left|].
      right. exists (c :: kept). split; [by constructor|]. by rewrite <- app_assoc.
    + destruct (IH contexts' result) as [->|(kept & Hk & ->)]; [by left|].
      right. exists kept. split; [by constructor|done].
Qed.

(** X4: the schema gate returns credentials of its input, each at most as
    often as given and in the order given. *)
Theorem filterSchema_sublist (schemas : list Schema.t) (credentials : list Credential.t) :
  filterSchema schemas credentials `sublist_of` credentials.
Proof.
  unfold filterSchema.
  destruct (filterSchema_loop_sublist schemas credentials ∅ []) as [->|(kept & Hk & ->)];
    [apply sublist_nil_l | done].
Qed.

(** X5: a schema list that is present but empty accepts no credential. *)
Theorem filterSchema_no_schemas (credentials : list Credential.t) :
  filterSchema [] credentials = [].
Proof.
  unfold filterSchema. generalize (∅ : gmap string ldContext).
  induction credentials as [|c credentials IH]; intros contexts; [done|].
  cbn [filterSchema_loop].
  destruct (contextsLoop _ _ _ _) as [[contexts' sat]|]; [apply IH | done].
Qed.

Lemma filterFormat_firstNonEmpty (format : Format.t) (credentials : list Credential.t) :
  filterFormat format credentials =
  firstNonEmpty
    [ (FormatLDP, List.filter (fun c => credByProof c (Format.Ldp format)) credentials);
      (FormatLDPVC, List.filter (fun c => credByProof c (Format.LdpVC format)) credentials);
      (FormatLDPVP, List.filter (fun c => credByProof c (Format.LdpVP format)) credentials);
      (FormatJWT, List.filter (jwtBucket (Format.Jwt format)) credentials);
      (FormatJWTVC, List.filter (jwtBucket (Format.JwtVC format)) credentials);
      (FormatJWTVP, List.filter (jwtBucket (Format.JwtVP format)) credentials) ].
Proof.
  unfold filterFormat. rewrite filterFormat_loop_buckets.
  cbn [ldpCreds ldpvcCreds ldpvpCreds jwtCreds jwtvcCreds jwtvpCreds app firstNonEmpty].
  repeat match goal with
         | |- context [List.filter ?p credentials] =>
           destruct (List.filter p credentials); cbn [len length Z.gtb Z.compare Z.of_nat];
           [|done]
         end.
  done.
Qed.

Lemma firstNonEmpty_buckets (bs : list (string * list Credential.t))
    (credentials : list Credential.t) :
  Forall (fun b => b.2 `sublist_of` credentials ∧ b.1 ≠ "") bs →
  (firstNonEmpty bs).2 `sublist_of` credentials
  ∧ ((firstNonEmpty bs).1 = "" ↔ (firstNonEmpty bs).2 = [])
  ∧ (firstNonEmpty bs).1 ∈ "" :: bs.*1.
Proof.
  induction 1 as [|[tag [|c l]] bs [Hs Ht] _ IH]; cbn [firstNonEmpty fst snd fmap list_fmap].
  - split_and!; [apply sublist_nil_l | done | by left].
  - destruct IH as (? & ? & Hin). split_and!; [done..|].
    apply elem_of_cons in Hin as [->|?]; [by left | by do 2 right].
  - split_and!; [done | done | right; by left].
Qed.

(** X6: the format filter returns credentials of its input in the order
    given, under one of the six format tags; the tag is empty exactly when no
    credential is returned. *)
Theorem filterFormat_sublist_tag (format : Format.t) (credentials : list Credential.t) :
  (filterFormat format credentials).2 `sublist_of` credentials
  ∧ ((filterFormat format credentials).1 = "" ↔ (filterFormat format credentials).2 = [])
  ∧ (filterFormat format credentials).1
    ∈ [""; FormatLDP; FormatLDPVC; FormatLDPVP; FormatJWT; FormatJWTVC; FormatJWTVP].
Proof.
  rewrite filterFormat_firstNonEmpty. apply firstNonEmpty_buckets.
  repeat (apply Forall_cons; split; [split; [apply sublist_List_filter | done]|]).
  constructor.
Qed.
End FilterSublists.

(** ** Requirement tree builder *)

Lemma SubmissionRequirement_nested_ind (P : SubmissionRequirement.t → Prop) :
  (∀ name purpose rule cnt mn mx from fromNested,
     Forall P fromNested →
     P (SubmissionRequirement.mk name purpose rule cnt mn mx from fromNested)) →
  ∀ sr, P sr.
Proof.
  intros Hnode. fix IH 1. intros [name purpose rule cnt mn mx from fromNested].
  apply Hnode. induction fromNested as [|sr srs IHl]; constructor; [apply IH | apply IHl].
Qed.

(** [toRequirement] with its nested loop written as [toRequirements]. *)
Lemma toRequirement_eq name purpose rule cnt mn mx from fromNested descriptors :
  toRequirement (SubmissionRequirement.mk name purpose rule cnt mn mx from fromNested)
    descriptors
  = if negb (String.eqb from "") then
      if len (inGroup descriptors from) =? 0 then inl (ErrNoDescriptorsForFrom from)
      else inr (requirement.mk name purpose rule
                  (if String.eqb rule All then len (inGroup descriptors from) else cnt)
                  mn mx (inGroup descriptors from) [])
    else
      match toRequirements fromNested descriptors [] with
      | inl err => inl err
      | inr nested =>
        inr (requirement.mk name purpose rule
               (if String.eqb rule All then len nested else cnt) mn mx [] nested)
      end.
Proof.
  cbn [toRequirement]. destruct (negb (String.eqb from "")); [done|].
  match goal with
  | |- match ?loop fromNested [] with _ => _ end = _ =>
    assert (∀ srs acc, loop srs acc = toRequirements srs descriptors acc) as ->; [|done]
  end.
  induction srs as [|sr srs IH]; intros acc; [done|]. cbn [toRequirements].
  destruct (toRequirement sr descriptors); [done | apply IH].
Qed.

Lemma froms_eq name purpose rule cnt mn mx from fromNested :
  froms (SubmissionRequirement.mk name purpose rule cnt mn mx from fromNested)
  = if negb (String.eqb from "") then [from] else concat (froms <$> fromNested).
Proof.
  cbn [froms]. destruct (negb (String.eqb from "")); [done|].
  induction fromNested as [|sr srs IH]; [done|]. cbn [fmap list_fmap concat]. by rewrite IH.
Qed.

Lemma wellBuilt_eq descriptors name purpose rule cnt mn mx inputDescriptors nested :
  wellBuilt descriptors
    (requirement.mk name purpose rule cnt mn mx inputDescriptors nested)
  ↔ (inputDescriptors = [] ∨ nested = [])
    ∧ inputDescriptors `sublist_of` descriptors
    ∧ (rule = All → cnt = len inputDescriptors + len nested)
    ∧ Forall (wellBuilt descriptors) nested.
Proof.
  cbn [wellBuilt].
  assert ((fix all (l : list requirement.t) : Prop :=
             match l with
             | [] => True
             | x :: l' => wellBuilt descriptors x ∧ all l'
             end) nested ↔ Forall (wellBuilt descriptors) nested) as ->; [|done].
  induction nested as [|r rs IH]; [by split|]. rewrite Forall_cons, IH. done.
Qed.

(** What the loop over a list of submission requirements returns: one built
    requirement per submission requirement, appended in order. *)
Lemma toRequirements_inr srs descriptors acc rs :
  toRequirements srs descriptors acc = inr rs →
  ∃ built, rs = acc ++ built
           ∧ Forall2 (fun sr r => toRequirement sr descriptors = inr r) srs built.
Proof.
  revert acc. induction srs as [|sr srs IH]; intros acc; cbn [toRequirements].
  - intros [= <-]. exists []. by rewrite app_nil_r.
  - destruct (toRequirement sr descriptors) as [|r] eqn:Hr; [done|].
    intros (built & -> & Hb)%IH. exists (r :: built).
    split; [by rewrite <- app_assoc | by constructor].
Qed.

Lemma toRequirements_inl srs descriptors acc err :
  toRequirements srs descriptors acc = inl err →
  ∃ pre sr post, srs = pre ++ sr :: post
                 ∧ Forall (fun sr' => ∃ r, toRequirement sr' descriptors = inr r) pre
                 ∧ toRequirement sr descriptors = inl err.
Proof.
  revert acc. induction srs as [|sr srs IH]; intros acc; cbn [toRequirements]; [done|].
  destruct (toRequirement sr descriptors) as [e|r] eqn:Hr.
  - intros [= <-]. by exists [], sr, srs.
  - intros (pre & sr' & post & -> & Hpre & He)%IH.
    exists (sr :: pre), sr', post. split_and!; [done| |done]. constructor; eauto.
Qed.

Lemma toRequirements_all srs descriptors acc :
  Forall (fun sr => ∃ r, toRequirement sr descriptors = inr r) srs →
  ∃ rs, toRequirements srs descriptors acc = inr rs.
Proof.
  intros Hall. revert acc. induction Hall as [|sr srs [r Hr] _ IH]; intros acc;
    cbn [toRequirements]; [by eexists|]. rewrite Hr. apply IH.
Qed.

Lemma toRequirement_wellBuilt_shape (sr : SubmissionRequirement.t)
    (descriptors : list InputDescriptor.t) (r : requirement.t) :
  toRequirement sr descriptors = inr r → wellBuilt descriptors r.
Proof.
  revert r. induction sr as [name purpose rule cnt mn mx from fromNested IH]
    using SubmissionRequirement_nested_ind. intros r.
  rewrite toRequirement_eq.
  destruct (String.eqb_spec from "") as [->|Hfrom]; cbn [negb].
  - destruct (toRequirements fromNested descriptors []) as [|nested] eqn:Hn; [done|].
    intros [= <-]. apply wellBuilt_eq. split_and!; [by left | apply sublist_nil_l | |].
    + intros ->. cbn. unfold len. cbn [length]. lia.
    + apply toRequirements_inr in Hn as (built & -> & Hb). cbn [app].
      clear -IH Hb. induction Hb as [|sr r srs rs Hr _ IHb]; [constructor|].
      apply Forall_cons in IH as [Hsr Hsrs]. constructor; [by apply Hsr | by apply IHb].
  - destruct (Z.eqb_spec (len (inGroup descriptors from)) 0) as [|Hlen]; [done|].
    intros [= <-]. apply wellBuilt_eq.
    split_and!; [by right | apply sublist_List_filter | |constructor].
    intros ->. cbn. unfold len. cbn [length]. lia.
Qed.

(** X7: a built requirement keeps the name, purpose, rule, min and max of its
    submission requirement, keeps its count unless the rule is [all], and has
    the built shape throughout: descriptors of the definition in their order
    and then no children, or no descriptors; count = number of children under
    [rule = all]. *)
Theorem toRequirement_wellBuilt (sr : SubmissionRequirement.t)
    (descriptors : list InputDescriptor.t) (r : requirement.t) :
  toRequirement sr descriptors = inr r →
  wellBuilt descriptors r
  ∧ requirement.Name r = SubmissionRequirement.Name sr
  ∧ requirement.Purpose r = SubmissionRequirement.Purpose sr
  ∧ requirement.Rule r = SubmissionRequirement.Rule sr
  ∧ requirement.Min r = SubmissionRequirement.Min sr
  ∧ requirement.Max r = SubmissionRequirement.Max sr
  ∧ (SubmissionRequirement.Rule sr ≠ All →
     requirement.Count r = SubmissionRequirement.Count sr)
  ∧ (SubmissionRequirement.From sr ≠ "" →
     requirement.InputDescriptors r = inGroup descriptors (SubmissionRequirement.From sr)
     ∧ requirement.InputDescriptors r ≠ []).
Proof.
  revert r. induction sr as [name purpose rule cnt mn mx from fromNested IH]
    using SubmissionRequirement_nested_ind. intros r.
  rewrite toRequirement_eq. cbn [SubmissionRequirement.Name SubmissionRequirement.Purpose
    SubmissionRequirement.Rule SubmissionRequirement.Min SubmissionRequirement.Max
    SubmissionRequirement.Count SubmissionRequirement.From].
  destruct (String.eqb_spec from "") as [->|Hfrom]; cbn [negb].
  - destruct (toRequirements fromNested descriptors []) as [|nested] eqn:Hn; [done|].
    intros [= <-]. cbn [requirement.Name requirement.Purpose requirement.Rule
      requirement.Min requirement.Max requirement.Count requirement.InputDescriptors].
    split_and!; try done.
    + apply wellBuilt_eq. split_and!; [by left | apply sublist_nil_l | |].
      * intros ->. cbn. unfold len. cbn [length]. lia.
      * apply toRequirements_inr in Hn as (built & -> & Hb). cbn [app].
        clear -IH Hb. induction Hb as [|sr r srs rs Hr _ IHb]; [constructor|].
        apply Forall_cons in IH as [Hsr Hsrs]. constructor; [by apply Hsr | by apply IHb].
    + intros Hr. by destruct (String.eqb_spec rule All).
  - destruct (Z.eqb_spec (len (inGroup descriptors from)) 0) as [|Hlen]; [done|].
    intros [= <-]. cbn [requirement.Name requirement.Purpose requirement.Rule
      requirement.Min requirement.Max requirement.Count requirement.InputDescriptors].
    split_and!; try done.
    + apply wellBuilt_eq. split_and!; [by right | apply sublist_List_filter | |constructor].
      intros ->. cbn. unfold len. cbn [length]. lia.
    + intros Hr. by destruct (String.eqb_spec rule All).
    + intros _. split; [done|]. intros Hnil. rewrite Hnil in Hlen. done.
Qed.

Lemma len_eqb_nil {A} (l : list A) : (len l =? 0) = true ↔ l = [].
Proof. destruct l; [done|]. by rewrite len_cons_eqb. Qed.

(** X8: building fails exactly when some group name of the tree selects no
    descriptor, and then reports the first such name in evaluation order;
    otherwise it succeeds. *)
Theorem toRequirement_first_empty_group (sr : SubmissionRequirement.t)
    (descriptors : list InputDescriptor.t) :
  (∀ err, toRequirement sr descriptors = inl err →
     ∃ pre from post,
       froms sr = pre ++ from :: post
       ∧ Forall (fun g => inGroup descriptors g ≠ []) pre
       ∧ inGroup descriptors from = []
       ∧ err = ErrNoDescriptorsForFrom from)
  ∧ ((∃ r, toRequirement sr descriptors = inr r)
     ↔ Forall (fun g => inGroup descriptors g ≠ []) (froms sr)).
Proof.
  induction sr as [name purpose rule cnt mn mx from fromNested IH]
    using SubmissionRequirement_nested_ind.
  rewrite toRequirement_eq, froms_eq.
  destruct (String.eqb_spec from "") as [->|Hfrom]; cbn [negb].
  - assert (∀ srs, Forall (fun sr => ∃ r, toRequirement sr descriptors = inr r) srs →
                   Forall (fun sr =>
                     (∃ r, toRequirement sr descriptors = inr r)
                     ↔ Forall (fun g => inGroup descriptors g ≠ []) (froms sr)) srs →
                   Forall (fun g => inGroup descriptors g ≠ []) (concat (froms <$> srs)))
      as Hconcat.
    { induction 1 as [|sr srs Hsr _ IHs]; [intros _; constructor|].
      intros [Hiff Hrest]%Forall_cons.
      cbn [fmap list_fmap concat]. apply Forall_app. split; [by apply Hiff | by apply IHs]. }
    assert (Forall (fun sr =>
                     (∃ r, toRequirement sr descriptors = inr r)
                     ↔ Forall (fun g => inGroup descriptors g ≠ []) (froms sr)) fromNested)
      as Hiffs by (eapply Forall_impl; [exact IH|]; by intros ? [_ ?]).
    split.
    + intros err Herr.
      destruct (toRequirements fromNested descriptors []) as [e|] eqn:Hn; [|done].
      injection Herr as ->.
      apply toRequirements_inl in Hn as (pre & sr & post & -> & Hpre & Hsr).
      apply Forall_app in IH as [_ [[Hfail _] _]%Forall_cons].
      apply Forall_app in Hiffs as [Hiffpre _].
      destruct (Hfail err Hsr) as (p & f & q & Hf & Hp & Hg & ->).
      exists (concat (froms <$> pre) ++ p), f, (q ++ concat (froms <$> post)).
      split_and!; [|apply Forall_app; split; [by apply Hconcat | done]|done..].
      rewrite fmap_app, concat_app. cbn [fmap list_fmap concat]. rewrite Hf.
      by rewrite <- !app_assoc.
    + split.
      * intros [r Hr].
        destruct (toRequirements fromNested descriptors []) as [|nested] eqn:Hn; [done|].
        apply toRequirements_inr in Hn as (built & _ & Hb).
        apply Hconcat; [|done]. clear -Hb.
        induction Hb; constructor; eauto.
      * intros Hall.
        destruct (toRequirements_all fromNested descriptors []) as [rs ->]; [|by eexists].
        clear -Hall Hiffs. induction Hiffs as [|sr srs Hiff _ IHs]; [constructor|].
        cbn [fmap list_fmap concat] in Hall. apply Forall_app in Hall as [? ?].
        constructor; [by apply Hiff | by apply IHs].
  - destruct (Z.eqb_spec (len (inGroup descriptors from)) 0) as [Hz|Hnz].
    + assert (inGroup descriptors from = []) as Hnil by (apply len_eqb_nil; by rewrite Hz).
      split.
      * intros err [= <-]. exists [], from, []. by split_and!.
      * split; [by intros [? ?] | by intros [? _]%Forall_cons].
    + assert (inGroup descriptors from ≠ []) as Hne.
      { intros Hnil. rewrite Hnil in Hnz. done. }
      split; [done|]. split; [by repeat constructor | by eexists].
Qed.

(** X9: what [makeRequirement] returns has the built shape and a count equal
    to the number of its children; when submission requirements are given its
    children are their built forms, one each and in order, the very list
    [makeRequirementsForMatch] returns. *)
Theorem makeRequirement_children (requirements : list SubmissionRequirement.t)
    (descriptors : list InputDescriptor.t) (r : requirement.t) :
  makeRequirement requirements descriptors = inr r →
  wellBuilt descriptors r
  ∧ requirement.Count r = len (requirement.InputDescriptors r) + len (requirement.Nested r)
  ∧ (requirements ≠ [] →
     requirement.InputDescriptors r = []
     ∧ makeRequirementsForMatch requirements descriptors = inr (requirement.Nested r)
     ∧ Forall2 (fun sr child => toRequirement sr descriptors = inr child)
         requirements (requirement.Nested r)).
Proof.
  unfold makeRequirement, makeRequirementsForMatch.
  destruct requirements as [|sr srs].
  - intros [= <-]. split_and!; [|cbn; unfold len; cbn [length]; lia|done].
    apply wellBuilt_eq. split_and!; [by right|done|done|constructor].
  - rewrite len_cons_eqb.
    destruct (toRequirements (sr :: srs) descriptors []) as [|nested] eqn:Hn; [done|].
    intros [= <-]. apply toRequirements_inr in Hn as (built & -> & Hb). cbn [app] in *.
    cbn [requirement.Count requirement.InputDescriptors requirement.Nested].
    split_and!.
    + apply wellBuilt_eq. split_and!; [by left|apply sublist_nil_l|done|].
      clear -Hb. induction Hb as [|? ? ? ? Hr _ IHb]; constructor; [|done].
      by apply toRequirement_wellBuilt_shape in Hr.
    + apply Forall2_length in Hb. unfold len. cbn [length] in *. lia.
    + done.
Qed.

(** ** Requirement evaluator: leaves *)

(** X10: the cardinality check enforces a bound exactly when it is positive:
    a count, min or max that is zero or negative is ignored. *)
Theorem isLenApplicable_positive_bounds (r : requirement.t) (val : Z) :
  isLenApplicable r val = true
  ↔ (0 < requirement.Count r → val = requirement.Count r)
    ∧ (0 < requirement.Min r → requirement.Min r ≤ val)
    ∧ (0 < requirement.Max r → val ≤ requirement.Max r).
Proof. rewrite isLenApplicable_true. split; intros (? & ? & ?); split_and!; lia. Qed.

Section LeafProperties.
Context `{JWTParser} `{JSONLD} `{ConstraintPipeline}.

Lemma descriptorsLoop_app pd pre post creds vpFormat result :
  descriptorsLoop pd (pre ++ post) creds vpFormat result
  = match descriptorsLoop pd pre creds vpFormat result with
    | inl err => inl err
    | inr (vpFormat', result') => descriptorsLoop pd post creds vpFormat' result'
    end.
Proof.
  revert vpFormat result. induction pre as [|d pre IH]; intros vpFormat result; [done|].
  cbn [app descriptorsLoop].
  destruct (filterCredentialsThatMatchDescriptor pd creds d) as [|[]]; [done | apply IH].
Qed.

Lemma descriptorsLoop_succeeds pd descs creds vpFormat result :
  Forall (pipelineSucceeds pd creds) descs →
  ∃ r, descriptorsLoop pd descs creds vpFormat result = inr r.
Proof.
  intros Hok. revert vpFormat result.
  induction Hok as [|d descs [[f l] Hd] _ IH]; intros vpFormat result; [by eexists|].
  cbn [descriptorsLoop]. rewrite Hd. apply IH.
Qed.

(** Descriptors that report no format leave the format as it is. *)
Lemma descriptorsLoop_format_kept pd descs creds vpFormat result vpFormat' result' :
  Forall (fun d => ∃ l, filterCredentialsThatMatchDescriptor pd creds d = inr ("", l)) descs →
  descriptorsLoop pd descs creds vpFormat result = inr (vpFormat', result') →
  vpFormat' = vpFormat.
Proof.
  intros Hn. revert vpFormat result.
  induction Hn as [|d descs [l Hd] _ IH]; intros vpFormat result; cbn [descriptorsLoop].
  - by intros [= <- _].
  - rewrite Hd. apply IH.
Qed.

Lemma descriptorsLoop_other pd descs creds vpFormat result vpFormat' result' id :
  descriptorsLoop pd descs creds vpFormat result = inr (vpFormat', result') →
  id ∉ InputDescriptor.ID <$> descs → result' !! id = result !! id.
Proof.
  revert vpFormat result. induction descs as [|d descs IH]; intros vpFormat result;
    cbn [descriptorsLoop].
  - by intros [= _ <-].
  - destruct (filterCredentialsThatMatchDescriptor pd creds d) as [|[f l]]; [done|].
    intros Hr Hid. cbn [fmap list_fmap] in Hid. apply not_elem_of_cons in Hid as [Hne Hid].
    rewrite (IH _ _ Hr Hid). destruct (negb (len l =? 0)); [|done].
    by rewrite lookup_insert_ne.
Qed.

Lemma descriptorsLoop_buckets pd descs creds vpFormat result vpFormat' result' id l :
  descriptorsLoop pd descs creds vpFormat result = inr (vpFormat', result') →
  result' !! id = Some l →
  result !! id = Some l
  ∨ (l ≠ [] ∧ ∃ d f, d ∈ descs ∧ InputDescriptor.ID d = id
                     ∧ filterCredentialsThatMatchDescriptor pd creds d = inr (f, l)).
Proof.
  revert vpFormat result. induction descs as [|d descs IH]; intros vpFormat result;
    cbn [descriptorsLoop].
  - intros [= _ <-]. by left.
  - destruct (filterCredentialsThatMatchDescriptor pd creds d) as [|[f filtered]] eqn:Hd;
      [done|].
    intros Hr Hl. destruct (IH _ _ Hr Hl) as [Hold|(Hne & d' & f' & Hin & Hid & Hd')].
    + destruct filtered as [|c filtered]; [by left|]. rewrite len_cons_eqb in Hold.
      cbn [negb] in Hold. apply lookup_insert_Some in Hold as [[<- <-]|[_ ?]]; [|by left].
      right. split; [done|]. exists d, f. split_and!; [by left|done..].
    + right. split; [done|]. exists d', f'. split_and!; [by right|done..].
Qed.

(** X11: a leaf reports the format of the last descriptor whose pipeline names
    one, and ldp_vp when none does. *)
Theorem leaf_vp_format (pd : PresentationDefinition.t) (req : requirement.t)
    (creds : list Credential.t) (vpFormat : string)
    (result : gmap string (list Credential.t)) :
  requirement.InputDescriptors req ≠ [] →
  applyRequirement pd req creds = inr (vpFormat, result) →
  let silent d := ∃ l, filterCredentialsThatMatchDescriptor pd creds d = inr ("", l) in
  (∀ pre d post descFormat l,
     requirement.InputDescriptors req = pre ++ d :: post →
     filterCredentialsThatMatchDescriptor pd creds d = inr (descFormat, l) →
     descFormat ≠ "" → Forall silent post → vpFormat = descFormat)
  ∧ (Forall silent (requirement.InputDescriptors req) → vpFormat = FormatLDPVP).
Proof.
  destruct req as [name purpose rule cnt mn mx descs nested].
  cbn [requirement.InputDescriptors applyRequirement]. intros Hne.
  destruct (descriptorsLoop pd descs creds FormatLDPVP ∅) as [|[fmt res]] eqn:Hloop; [done|].
  destruct descs as [|d0 descs]; [done|]. rewrite len_cons_eqb. cbn [negb].
  destruct (isLenApplicable _ _); [|done]. intros [= <- <-]. split.
  - intros pre d post descFormat l Hsplit Hd Hfmt Hpost.
    rewrite Hsplit, descriptorsLoop_app in Hloop.
    destruct (descriptorsLoop pd pre creds FormatLDPVP ∅) as [|[fmt1 res1]]; [done|].
    cbn [descriptorsLoop] in Hloop. rewrite Hd in Hloop.
    apply descriptorsLoop_format_kept in Hloop; [|done]. rewrite Hloop.
    by destruct (String.eqb_spec descFormat "").
  - intros Hall. by eapply descriptorsLoop_format_kept.
Qed.

Lemma descriptorsLoop_distinct pd descs creds vpFormat result vpFormat' result' d f l :
  descriptorsLoop pd descs creds vpFormat result = inr (vpFormat', result') →
  NoDup (InputDescriptor.ID <$> descs) → d ∈ descs →
  filterCredentialsThatMatchDescriptor pd creds d = inr (f, l) →
  result' !! InputDescriptor.ID d
  = if bool_decide (l = []) then result !! InputDescriptor.ID d else Some l.
Proof.
  revert vpFormat result. induction descs as [|d0 descs IH]; intros vpFormat result
    Hloop Hnd Hin Hd; [by apply elem_of_nil in Hin|].
  cbn [fmap list_fmap] in Hnd. apply NoDup_cons in Hnd as [Hnotin Hnd].
  cbn [descriptorsLoop] in Hloop.
  destruct (filterCredentialsThatMatchDescriptor pd creds d0) as [|[f0 l0]] eqn:Hd0; [done|].
  apply elem_of_cons in Hin as [->|Hin].
  - rewrite Hd in Hd0. injection Hd0 as <- <-.
    rewrite (descriptorsLoop_other _ _ _ _ _ _ _ _ Hloop Hnotin).
    destruct l as [|c l]; [done|]. rewrite len_cons_eqb. cbn [negb].
    by rewrite lookup_insert_eq.
  - rewrite (IH _ _ Hloop Hnd Hin Hd). case_bool_decide; [|done].
    destruct (negb (len l0 =? 0)); [|done]. rewrite lookup_insert_ne; [done|].
    intros Heq. apply Hnotin. rewrite Heq. by apply list_elem_of_fmap_2.
Qed.

(** X12: every bucket a leaf returns is non-empty and holds what the pipeline
    kept for a descriptor of that id; with distinct descriptor ids, the bucket
    of a descriptor is exactly what the pipeline kept for it, and descriptors
    that matched nothing have no bucket. *)
Theorem leaf_buckets (pd : PresentationDefinition.t) (req : requirement.t)
    (creds : list Credential.t) (vpFormat : string)
    (result : gmap string (list Credential.t)) :
  requirement.InputDescriptors req ≠ [] →
  applyRequirement pd req creds = inr (vpFormat, result) →
  (∀ id l, result !! id = Some l →
     l ≠ [] ∧ ∃ d f, d ∈ requirement.InputDescriptors req ∧ InputDescriptor.ID d = id
                     ∧ filterCredentialsThatMatchDescriptor pd creds d = inr (f, l))
  ∧ (NoDup (InputDescriptor.ID <$> requirement.InputDescriptors req) →
     ∀ d f l, d ∈ requirement.InputDescriptors req →
       filterCredentialsThatMatchDescriptor pd creds d = inr (f, l) →
       result !! InputDescriptor.ID d = if bool_decide (l = []) then None else Some l).
Proof.
  destruct req as [name purpose rule cnt mn mx descs nested].
  cbn [requirement.InputDescriptors applyRequirement]. intros Hne.
  destruct (descriptorsLoop pd descs creds FormatLDPVP ∅) as [|[fmt res]] eqn:Hloop; [done|].
  destruct (negb (len descs =? 0)) eqn:Hlen.
  2: { apply negb_false_iff, len_eqb_nil in Hlen. done. }
  destruct (isLenApplicable _ _); [|done]. intros [= <- <-]. split.
  - intros id l Hl.
    by destruct (descriptorsLoop_buckets _ _ _ _ _ _ _ _ _ Hloop Hl) as [?|?].
  - intros Hnd d f l Hin Hd.
    by rewrite (descriptorsLoop_distinct _ _ _ _ _ _ _ _ _ _ Hloop Hnd Hin Hd).
Qed.

(** X13: whatever the cardinality and the children, the first descriptor whose
    pipeline fails makes the evaluation return that failure. *)
Theorem descriptor_error_aborts (pd : PresentationDefinition.t) (req : requirement.t)
    (creds : list Credential.t) (pre post : list InputDescriptor.t)
    (d : InputDescriptor.t) (msg : string) :
  requirement.InputDescriptors req = pre ++ d :: post →
  Forall (pipelineSucceeds pd creds) pre →
  filterCredentialsThatMatchDescriptor pd creds d = inl msg →
  applyRequirement pd req creds = inl (ErrFilter msg).
Proof.
  destruct req as [name purpose rule cnt mn mx descs nested].
  cbn [requirement.InputDescriptors applyRequirement]. intros -> Hpre Hd.
  rewrite descriptorsLoop_app.
  destruct (descriptorsLoop_succeeds pd pre creds FormatLDPVP ∅ Hpre) as [[f r] ->].
  cbn [descriptorsLoop]. by rewrite Hd.
Qed.

End LeafProperties.

(** ** Requirement evaluator: cardinality of a leaf *)

Section LeafCardinality.
Context `{JWTParser} `{JSONLD} `{ConstraintPipeline}.

(** C7 (amended): on a leaf whose pipelines all run to completion, evaluation
    returns the no-credentials error exactly when the number of distinct ids
    among the descriptors that matched at least one credential fails the
    cardinality ([count], [min] and [max] each checked only when positive),
    and returns a result otherwise; with pairwise distinct descriptor ids
    that number is the number of matched descriptors.  When a pipeline fails,
    evaluation returns the error of the first one that does, whatever the
    cardinality. *)
Theorem leaf_no_credentials_iff (pd : PresentationDefinition.t) (req : requirement.t)
    (creds : list Credential.t) :
  requirement.InputDescriptors req ≠ [] →
  let matchedIDs : gset string :=
    list_to_set (InputDescriptor.ID
                   <$> List.filter (matched pd creds) (requirement.InputDescriptors req)) in
  let n := Z.of_nat (size matchedIDs) in
  let cardinality :=
    (requirement.Count req > 0 → n = requirement.Count req)
    ∧ (requirement.Min req > 0 → requirement.Min req ≤ n)
    ∧ (requirement.Max req > 0 → n ≤ requirement.Max req) in
  (Forall (pipelineSucceeds pd creds) (requirement.InputDescriptors req) →
   (applyRequirement pd req creds = inl ErrNoCredentials ↔ ¬ cardinality)
   ∧ (cardinality →
      ∃ vpFormat result, applyRequirement pd req creds = inr (vpFormat, result)))
  ∧ (NoDup (InputDescriptor.ID <$> requirement.InputDescriptors req) →
     n = len (List.filter (matched pd creds) (requirement.InputDescriptors req)))
  ∧ (∀ msg, firstFailure pd creds (requirement.InputDescriptors req) msg →
       applyRequirement pd req creds = inl (ErrFilter msg)).
Proof.
  intros Hne matchedIDs n cardinality.
  destruct req as [name purpose rule cnt mn mx descs nested].
  cbn [requirement.InputDescriptors] in *. split_and!.
  - intros Hok. cbn [applyRequirement].
    destruct (descriptorsLoop_dom pd descs creds FormatLDPVP ∅ Hok)
      as (vpFormat & result & -> & Hdom).
    assert (Z.of_nat (size result) = n) as ->.
    { rewrite <- size_dom, Hdom, dom_empty_L, (left_id_L ∅ (∪)). done. }
    destruct descs as [|d descs]; [done|].
    rewrite len_cons_eqb. cbn [negb].
    pose proof (isLenApplicable_true
                  (requirement.mk name purpose rule cnt mn mx (d :: descs) nested) n) as Hlen.
    destruct (isLenApplicable _ n); subst cardinality;
      cbn [requirement.Count requirement.Min requirement.Max] in *.
    + split; [|by eexists _, _]. split; [done|]. intros Hn. destruct Hn. by apply Hlen.
    + split; [|intros Hc; apply Hlen in Hc; done].
      split; [|done]. intros _ Hc. by apply Hlen in Hc.
  - intros Hnd. subst n matchedIDs.
    rewrite size_list_to_set by by apply NoDup_fmap_filter.
    unfold len. by rewrite length_fmap.
  - intros msg (pre & d & post & -> & Hpre & Hd). cbn [applyRequirement].
    rewrite descriptorsLoop_app.
    destruct (descriptorsLoop_succeeds pd pre creds FormatLDPVP ∅ Hpre) as [[f r] ->].
    cbn [descriptorsLoop]. by rewrite Hd.
Qed.
End LeafCardinality.

(** ** Requirement evaluator: merging the children of a branch *)

Lemma mergeBucket_cons exclude key credential rest set merged checkExclude :
  mergeBucket exclude key (credential :: rest) set merged checkExclude
  = if bool_decide (Credential.ID credential ∈ set) then
      mergeBucket exclude key rest set merged checkExclude
    else if checkExclude && bool_decide (key +:+ Credential.ID credential ∈ exclude) then
      mergeBucket exclude key rest set merged checkExclude
    else
      mergeBucket exclude key rest ({[Credential.ID credential]} ∪ set)
        (merged ++ [credential]) checkExclude.
Proof. reflexivity. Qed.

(** One pass of the deduplicating loop: the ids seen so far are those of the
    credentials kept so far, which stay pairwise distinct; what is added comes
    from the list walked and, when the exclusion is consulted, is not
    excluded. *)
Lemma mergeBucket_spec exclude key credentials set merged checkExclude :
  set = list_to_set (Credential.ID <$> merged) →
  NoDup (Credential.ID <$> merged) →
  ∃ added,
    mergeBucket exclude key credentials set merged checkExclude
    = (list_to_set (Credential.ID <$> (merged ++ added)), merged ++ added)
    ∧ NoDup (Credential.ID <$> (merged ++ added))
    ∧ added ⊆ credentials
    ∧ (checkExclude = true →
       Forall (fun c => key +:+ Credential.ID c ∉ exclude) added).
Proof.
  revert set merged. induction credentials as [|c credentials IH]; intros set merged -> Hnd.
  - exists []. rewrite app_nil_r. split_and!; [done..|by intros _].
  - rewrite mergeBucket_cons. case_bool_decide as Hseen.
    + destruct (IH _ merged eq_refl Hnd) as (added & -> & ? & ? & ?).
      exists added. split_and!; [done..|set_solver|done].
    + destruct (checkExclude && bool_decide (key +:+ Credential.ID c ∈ exclude)) eqn:Hex.
      * destruct (IH _ merged eq_refl Hnd) as (added & -> & ? & ? & ?).
        exists added. split_and!; [done..|set_solver|done].
      * destruct (IH ({[Credential.ID c]} ∪ list_to_set (Credential.ID <$> merged))
                    (merged ++ [c])) as (added & -> & Hnd' & Hsub & Hexc).
        { rewrite fmap_app, list_to_set_app_L. cbn. set_solver. }
        { rewrite fmap_app. apply NoDup_app. split_and!; [done| |by apply NoDup_singleton].
          intros id Hid [->|[]%elem_of_nil]%elem_of_cons. apply Hseen.
          by apply elem_of_list_to_set. }
        exists (c :: added). rewrite <- !app_assoc in *. cbn [app] in *.
        split_and!; [done..|set_solver|].
        intros ->. constructor; [|by apply Hexc].
        cbn [andb] in Hex. by apply bool_decide_eq_false in Hex.
Qed.

Lemma mergeNestedResult_foldl nr exclude :
  mergeNestedResult nr exclude = foldl (mergeChild exclude) ∅ nr.
Proof. reflexivity. Qed.

Lemma mergeChild_lookup exclude (result res : gmap string (list Credential.t)) key :
  mergeChild exclude result res !! key
  = match res !! key with
    | Some credentials =>
      Some (mergedBucket exclude key (default [] (result !! key)) credentials)
    | None => result !! key
    end.
Proof.
  unfold mergeChild. revert key.
  apply (map_fold_weak_ind (fun r (m : gmap string (list Credential.t)) => ∀ key,
    r !! key = match m !! key with
               | Some credentials =>
                 Some (mergedBucket exclude key (default [] (result !! key)) credentials)
               | None => result !! key
               end)).
  - intros key. by rewrite lookup_empty.
  - intros i x m r Hi IH key.
    assert (r !! i = result !! i) as Hri by (by rewrite IH, Hi).
    rewrite Hri. destruct (decide (i = key)) as [->|Hne].
    + rewrite (lookup_insert_eq m). unfold mergedBucket.
      destruct (mergeBucket exclude key (default [] (result !! key)) ∅ [] false)
        as [set merged]. cbn [fst snd].
      destruct (mergeBucket exclude key x set merged true) as [set' merged']. cbn [snd].
      by rewrite lookup_insert_eq.
    + rewrite (lookup_insert_ne m) by done.
      destruct (mergeBucket exclude i (default [] (result !! i)) ∅ [] false)
        as [set merged].
      destruct (mergeBucket exclude i x set merged true) as [set' merged'].
      rewrite lookup_insert_ne by done. apply IH.
Qed.

Lemma mergedBucket_spec exclude key old credentials :
  NoDup (Credential.ID <$> mergedBucket exclude key old credentials)
  ∧ ∀ c, c ∈ mergedBucket exclude key old credentials →
         c ∈ old ∨ (c ∈ credentials ∧ key +:+ Credential.ID c ∉ exclude).
Proof.
  unfold mergedBucket.
  destruct (mergeBucket_spec exclude key old ∅ [] false) as (kept & -> & Hnd & Hsub & _);
    [done | constructor |].
  cbn [fst snd app] in *.
  destruct (mergeBucket_spec exclude key credentials
              (list_to_set (Credential.ID <$> kept)) kept true eq_refl Hnd)
    as (added & -> & Hnd' & Hsub' & Hex).
  cbn [snd]. split; [done|].
  intros c [?|Hc]%elem_of_app; [left; by apply Hsub|].
  right. split; [by apply Hsub'|]. specialize (Hex eq_refl).
  by eapply Forall_forall in Hex.
Qed.

(** The merge of the children's maps, from any result whose buckets come from
    the maps [seen] so far. *)
Lemma mergeChild_foldl_inv (exclude : gset string)
    (nr seen : list (gmap string (list Credential.t)))
    (result : gmap string (list Credential.t)) :
  (dom result = ⋃ (dom <$> seen)
   ∧ ∀ key bucket, result !! key = Some bucket →
       NoDup (Credential.ID <$> bucket)
       ∧ ∀ c, c ∈ bucket →
           (key +:+ Credential.ID c ∉ exclude)
           ∧ ∃ res l, res ∈ seen ∧ res !! key = Some l ∧ c ∈ l) →
  dom (foldl (mergeChild exclude) result nr) = ⋃ (dom <$> (seen ++ nr))
  ∧ ∀ key bucket, foldl (mergeChild exclude) result nr !! key = Some bucket →
      NoDup (Credential.ID <$> bucket)
      ∧ ∀ c, c ∈ bucket →
          (key +:+ Credential.ID c ∉ exclude)
          ∧ ∃ res l, res ∈ seen ++ nr ∧ res !! key = Some l ∧ c ∈ l.
Proof.
  revert seen result.
  induction nr as [|res nr IH]; intros seen result Hinv; [by rewrite app_nil_r|].
  cbn [foldl]. replace (seen ++ res :: nr) with ((seen ++ [res]) ++ nr)
    by (by rewrite <- app_assoc).
  apply IH. destruct Hinv as [Hdom Hb]. split.
  - rewrite fmap_app, union_list_app_L. cbn [fmap list_fmap union_list].
    rewrite <- Hdom. cbn [foldr]. rewrite (right_id_L ∅ (∪)). apply set_eq. intros key.
    rewrite elem_of_union, !elem_of_dom, mergeChild_lookup.
    destruct (res !! key) as [credentials|].
    + split; [intros _; right; by eexists | intros _; by eexists].
    + split; [by left | by intros [?|[? ?]]].
  - intros key bucket. rewrite mergeChild_lookup.
    destruct (res !! key) as [credentials|] eqn:Hres.
    + intros [= <-].
      destruct (mergedBucket_spec exclude key (default [] (result !! key)) credentials)
        as [Hnd Hin].
      split; [done|]. intros c Hc. destruct (Hin c Hc) as [Hold|[Hnew Hex]].
      * destruct (result !! key) as [old|] eqn:Hk; [|by apply elem_of_nil in Hold].
        destruct (Hb key old Hk) as [_ Hc']. destruct (Hc' c Hold) as (? & r & l & ? & ? & ?).
        split; [done|]. exists r, l. split_and!; [|done..]. apply elem_of_app. by left.
      * split; [done|]. exists res, credentials. split_and!; [|done..].
        apply elem_of_app. right. by left.
    + intros Hk. destruct (Hb key bucket Hk) as [? Hc']. split; [done|].
      intros c Hc. destruct (Hc' c Hc) as (? & r & l & ? & ? & ?).
      split; [done|]. exists r, l. split_and!; [|done..]. apply elem_of_app. by left.
Qed.

(** X15: in what [mergeNestedResult] returns, the keys are those of the
    children's maps; each bucket holds credentials of pairwise distinct ids,
    every one of them brought by some child under that key and none of them
    excluded for it. *)
Theorem mergeNestedResult_buckets (nr : list (gmap string (list Credential.t)))
    (exclude : gset string) :
  dom (mergeNestedResult nr exclude) = ⋃ (dom <$> nr)
  ∧ ∀ key bucket, mergeNestedResult nr exclude !! key = Some bucket →
      NoDup (Credential.ID <$> bucket)
      ∧ ∀ c, c ∈ bucket →
          (key +:+ Credential.ID c ∉ exclude)
          ∧ ∃ res l, res ∈ nr ∧ res !! key = Some l ∧ c ∈ l.
Proof.
  rewrite mergeNestedResult_foldl. apply (mergeChild_foldl_inv exclude nr [] ∅).
  split; [by rewrite dom_empty_L|]. intros key bucket. by rewrite lookup_empty.
Qed.

(** ** Requirement evaluator: exclusion *)



(** ** Requirement evaluator: branches *)

Lemma requirement_nested_ind (P : requirement.t → Prop) :
  (∀ name purpose rule cnt mn mx inputDescriptors nested,
     Forall P nested → P (requirement.mk name purpose rule cnt mn mx inputDescriptors nested)) →
  ∀ r, P r.
Proof.
  intros Hstep. fix IH 1. intros [name purpose rule cnt mn mx inputDescriptors nested].
  apply Hstep. induction nested as [|r nested IHn]; constructor; [apply IH | apply IHn].
Qed.

Lemma leafDescriptors_branch name purpose rule cnt mn mx nested d :
  d ∈ leafDescriptors (requirement.mk name purpose rule cnt mn mx [] nested)
  ↔ ∃ r, r ∈ nested ∧ d ∈ leafDescriptors r.
Proof.
  cbn [leafDescriptors]. change (negb (len [] =? 0)) with false. cbv iota.
  induction nested as [|r nested IH].
  - split; [by intros ?%elem_of_nil | by intros (? & ?%elem_of_nil & _)].
  - rewrite elem_of_app, IH. split.
    + intros [?|(r' & ? & ?)]; [exists r; split; [by left|done]|].
      exists r'. split; [by right|done].
    + intros (r' & [->|?]%elem_of_cons & ?); [by left|right; by exists r'].
Qed.

Section BranchProperties.
Context `{JWTParser} `{JSONLD} `{ConstraintPipeline}.

Lemma size_eqb_empty (res : gmap string (list Credential.t)) :
  negb (Z.of_nat (size res) =? 0) = false ↔ res = ∅.
Proof.
  rewrite negb_false_iff, Z.eqb_eq, <- map_size_empty_iff. lia.
Qed.

(** What the loop over the children appends: the non-empty maps of the
    children that succeeded, nothing else. *)
Lemma nestedLoop_kept apply rs nestedResult set vpFormat nestedResult' set' vpFormat' :
  nestedLoop apply rs nestedResult set vpFormat = inr (nestedResult', set', vpFormat') →
  ∃ kept, nestedResult' = nestedResult ++ kept
    ∧ ∀ res, res ∈ kept ↔ res ≠ ∅ ∧ ∃ r vpFmt, r ∈ rs ∧ apply r = inr (vpFmt, res).
Proof.
  revert nestedResult set vpFormat.
  induction rs as [|r rs IH]; intros nestedResult set vpFormat; cbn [nestedLoop].
  - intros [= <- _ _]. exists []. rewrite app_nil_r. split; [done|]. intros res.
    split; [by intros ?%elem_of_nil | by intros (_ & ? & ? & ?%elem_of_nil & _)].
  - destruct (apply r) as [[| |]|[vpFmt res]] eqn:Hr; [|done|done|].
    + intros (kept & -> & Hk)%IH. exists kept. split; [done|]. intros res. rewrite Hk.
      split; intros (Hne & r' & f & Hin & Hr'); (split; [done|]).
      * exists r', f. split; [by right|done].
      * apply elem_of_cons in Hin as [->|Hin]; [congruence|]. by exists r', f.
    + destruct (negb (Z.of_nat (size res) =? 0)) eqn:Hsz.
      * intros (kept & -> & Hk)%IH. exists (res :: kept).
        rewrite <- app_assoc. split; [done|]. intros res'. rewrite elem_of_cons, Hk.
        assert (res ≠ ∅) as Hres.
        { intros Hem%size_eqb_empty. congruence. }
        split.
        -- intros [->|(Hne & r' & f & Hin & Hr')].
           ++ split; [done|]. exists r, vpFmt. split; [by left|done].
           ++ split; [done|]. exists r', f. split; [by right|done].
        -- intros (Hne & r' & f & [->|Hin]%elem_of_cons & Hr').
           ++ left. congruence.
           ++ right. split; [done|]. by exists r', f.
      * apply size_eqb_empty in Hsz as ->.
        intros (kept & -> & Hk)%IH. exists kept. split; [done|]. intros res. rewrite Hk.
        split; intros (Hne & r' & f & Hin & Hr'); (split; [done|]).
        -- exists r', f. split; [by right|done].
        -- apply elem_of_cons in Hin as [->|Hin]; [congruence|]. by exists r', f.
Qed.

(** Children that bring nothing leave the reported format alone. *)
Lemma nestedLoop_format_kept apply rs nestedResult set vpFormat nestedResult' set' vpFormat' :
  nestedLoop apply rs nestedResult set vpFormat = inr (nestedResult', set', vpFormat') →
  Forall (fun r => ∀ f res, apply r = inr (f, res) → res = ∅) rs →
  vpFormat' = vpFormat.
Proof.
  intros Hloop Hq. revert nestedResult set Hloop.
  induction Hq as [|r rs Hr _ IH]; intros nestedResult set; cbn [nestedLoop].
  - by intros [= _ _ <-].
  - destruct (apply r) as [[| |]|[vpFmt res]]; [apply IH|done|done|].
    rewrite (Hr vpFmt res eq_refl).
    assert (negb (Z.of_nat (size (∅ : gmap string (list Credential.t))) =? 0) = false)
      as -> by (by apply size_eqb_empty).
    apply IH.
Qed.

Lemma branch_unfold pd creds name purpose rule cnt mn mx nested :
  applyRequirement pd (requirement.mk name purpose rule cnt mn mx [] nested) creds
  = match nestedLoop (fun r => applyRequirement pd r creds) nested [] ∅ FormatLDPVP with
    | inl err => inl err
    | inr (nestedResult, set, vpFormat) =>
      inr (vpFormat,
           mergeNestedResult nestedResult
             (excludeSet (requirement.mk name purpose rule cnt mn mx [] nested) set))
    end.
Proof. reflexivity. Qed.

Lemma branch_buckets_from_children pd creds name purpose rule cnt mn mx nested vpFormat result :
  applyRequirement pd (requirement.mk name purpose rule cnt mn mx [] nested) creds
  = inr (vpFormat, result) →
  (∀ key, key ∈ dom result
          ↔ ∃ r f res, r ∈ nested ∧ applyRequirement pd r creds = inr (f, res)
                       ∧ key ∈ dom res)
  ∧ ∀ key bucket, result !! key = Some bucket →
      NoDup (Credential.ID <$> bucket)
      ∧ ∀ c, c ∈ bucket →
          ∃ r f res l, r ∈ nested ∧ applyRequirement pd r creds = inr (f, res)
                       ∧ res !! key = Some l ∧ c ∈ l.
Proof.
  rewrite branch_unfold.
  destruct (nestedLoop _ nested [] ∅ FormatLDPVP) as [|[[nr set] fmt]] eqn:Hloop; [done|].
  intros [= <- <-].
  destruct (nestedLoop_kept _ _ _ _ _ _ _ _ Hloop) as (kept & -> & Hk). cbn [app].
  rewrite mergeNestedResult_foldl.
  destruct (mergeChild_foldl_inv
              (excludeSet (requirement.mk name purpose rule cnt mn mx [] nested) set)
              kept [] ∅) as [Hdom Hb].
  { split; [by rewrite dom_empty_L|]. intros key bucket. by rewrite lookup_empty. }
  cbn [app] in Hdom, Hb.
  split.
  - intros key. rewrite Hdom, elem_of_union_list. split.
    + intros (X & (res & -> & Hres)%list_elem_of_fmap & Hkey).
      apply Hk in Hres as (_ & r & f & ? & ?). by exists r, f, res.
    + intros (r & f & res & Hin & Hr & Hkey). exists (dom res). split; [|done].
      apply list_elem_of_fmap. exists res. split; [done|]. apply Hk. split.
      * intros ->. by rewrite dom_empty_L in Hkey.
      * by exists r, f.
  - intros key bucket Hl. destruct (Hb key bucket Hl) as [Hnd Hc]. split; [done|].
    intros c Hin. destruct (Hc c Hin) as (_ & res & l & Hres & ? & ?).
    apply Hk in Hres as (_ & r & f & ? & ?). by exists r, f, res, l.
Qed.

(** X17: in what a branch returns, the keys are those of the maps of the
    children that succeeded; a bucket holds credentials of pairwise distinct
    ids, each taken from the bucket of a child under the same key; the format
    is that of the last child that brought a non-empty map, and when no child
    brought one the branch returns ldp_vp with an empty map. *)
Theorem branch_result_from_children (pd : PresentationDefinition.t)
    (creds : list Credential.t) (name purpose : string) (rule : Selection) (cnt mn mx : Z)
    (nested : list requirement.t) (vpFormat : string)
    (result : gmap string (list Credential.t)) :
  applyRequirement pd (requirement.mk name purpose rule cnt mn mx [] nested) creds
  = inr (vpFormat, result) →
  let quiet r := ∀ f res, applyRequirement pd r creds = inr (f, res) → res = ∅ in
  (∀ key, key ∈ dom result
          ↔ ∃ r f res, r ∈ nested ∧ applyRequirement pd r creds = inr (f, res)
                       ∧ key ∈ dom res)
  ∧ (∀ key bucket, result !! key = Some bucket →
       NoDup (Credential.ID <$> bucket)
       ∧ ∀ c, c ∈ bucket →
           ∃ r f res l, r ∈ nested ∧ applyRequirement pd r creds = inr (f, res)
                        ∧ res !! key = Some l ∧ c ∈ l)
  ∧ (∀ pre r post f res,
       nested = pre ++ r :: post →
       applyRequirement pd r creds = inr (f, res) → res ≠ ∅ →
       Forall quiet post → vpFormat = f)
  ∧ (Forall quiet nested → vpFormat = FormatLDPVP ∧ result = ∅).
Proof.
  intros Happly.
  destruct (branch_buckets_from_children _ _ _ _ _ _ _ _ _ _ _ Happly) as [Hdom Hb].
  split_and!; [done..| |].
  - intros pre r post f res -> Hr Hne Hpost. rewrite branch_unfold, nestedLoop_app in Happly.
    destruct (nestedLoop _ pre [] ∅ FormatLDPVP) as [|[[nr1 set1] fmt1]]; [done|].
    cbn [nestedLoop] in Happly. rewrite Hr in Happly.
    destruct (negb (Z.of_nat (size res) =? 0)) eqn:Hsz.
    2: { by apply size_eqb_empty in Hsz. }
    destruct (nestedLoop _ post _ _ f) as [|[[nr2 set2] fmt2]] eqn:Hloop; [done|].
    injection Happly as <- _.
    by apply (nestedLoop_format_kept _ _ _ _ _ _ _ _ Hloop).
  - intros Hq. rewrite branch_unfold in Happly.
    destruct (nestedLoop _ nested [] ∅ FormatLDPVP) as [|[[nr set] fmt]] eqn:Hloop; [done|].
    injection Happly as <- <-. split.
    + by apply (nestedLoop_format_kept _ _ _ _ _ _ _ _ Hloop).
    + destruct (nestedLoop_kept _ _ _ _ _ _ _ _ Hloop) as (kept & -> & Hk).
      destruct kept as [|res kept]; [done|]. exfalso.
      destruct (proj1 (Hk res)) as (Hne & r & f & Hin & Hr); [by left|].
      apply Hne. eapply Forall_forall in Hq; [|done]. by eapply Hq.
Qed.

(** X18: whatever the tree, a credential an evaluation returns under a key
    was kept by the per-descriptor pipeline for a descriptor of that id, one
    the evaluation asks. *)
Theorem applyRequirement_sound (pd : PresentationDefinition.t) (req : requirement.t)
    (creds : list Credential.t) (vpFormat : string)
    (result : gmap string (list Credential.t)) (key : string)
    (bucket : list Credential.t) (c : Credential.t) :
  applyRequirement pd req creds = inr (vpFormat, result) →
  result !! key = Some bucket → c ∈ bucket →
  ∃ d f l, d ∈ leafDescriptors req ∧ InputDescriptor.ID d = key
           ∧ filterCredentialsThatMatchDescriptor pd creds d = inr (f, l) ∧ c ∈ l.
Proof.
  revert vpFormat result key bucket c.
  induction req as [name purpose rule cnt mn mx descs nested IH] using requirement_nested_ind.
  intros vpFormat result key bucket c Happly Hl Hc.
  destruct descs as [|d0 descs].
  - destruct (branch_buckets_from_children _ _ _ _ _ _ _ _ _ _ _ Happly) as [_ Hb].
    destruct (Hb key bucket Hl) as [_ Hfrom].
    destruct (Hfrom c Hc) as (r & f & res & l & Hin & Hr & Hres & Hcl).
    eapply Forall_forall in IH; [|done].
    destruct (IH _ _ _ _ _ Hr Hres Hcl) as (d & f' & l' & ? & ? & ? & ?).
    exists d, f', l'. split_and!; [|done..]. apply leafDescriptors_branch. by exists r.
  - cbn [applyRequirement] in Happly.
    destruct (descriptorsLoop pd (d0 :: descs) creds FormatLDPVP ∅) as [|[fmt res]] eqn:Hloop;
      [done|].
    rewrite len_cons_eqb in Happly. cbn [negb] in Happly.
    destruct (isLenApplicable _ _); [|done]. injection Happly as <- <-.
    destruct (descriptorsLoop_buckets _ _ _ _ _ _ _ _ _ Hloop Hl)
      as [?|(_ & d & f & Hin & Hid & Hd)]; [done|].
    exists d, f, bucket. split_and!; [|done..].
    cbn [leafDescriptors]. by rewrite len_cons_eqb.
Qed.
End BranchProperties.

(** ** Submission assembler: the descriptor map *)

Lemma byID_Less_le (a b : InputDescriptorMapping.t) :
  (byID_Less a b = true →
   String.le (InputDescriptorMapping.ID a) (InputDescriptorMapping.ID b))
  ∧ (byID_Less a b = false →
     String.le (InputDescriptorMapping.ID b) (InputDescriptorMapping.ID a)).
Proof.
  unfold byID_Less, String.le, String.ltb, String.leb.
  rewrite (String.compare_antisym (InputDescriptorMapping.ID b) (InputDescriptorMapping.ID a)).
  destruct (String.compare (InputDescriptorMapping.ID a) (InputDescriptorMapping.ID b));
    cbn; split; done.
Qed.

Lemma insertionSort_bubble_Permutation x sorted :
  insertionSort_bubble x sorted ≡ₚ x :: sorted.
Proof.
  induction sorted as [|y sorted IH]; [done|]. cbn [insertionSort_bubble].
  destruct (byID_Less x y); [|done]. rewrite IH. apply Permutation_swap.
Qed.

Lemma insertionSort_bubble_sorted x sorted :
  let after a b := String.le (InputDescriptorMapping.ID b) (InputDescriptorMapping.ID a) in
  StronglySorted after sorted → StronglySorted after (insertionSort_bubble x sorted).
Proof.
  induction sorted as [|y sorted IH]; cbn [insertionSort_bubble]; intros Hs.
  - by repeat constructor.
  - apply StronglySorted_cons in Hs as [Hy Hs].
    destruct (byID_Less x y) eqn:Hless.
    + apply StronglySorted_cons. split; [|by apply IH].
      rewrite insertionSort_bubble_Permutation. constructor; [|done].
      by apply (proj1 (byID_Less_le x y)).
    + apply (proj2 (byID_Less_le x y)) in Hless. apply StronglySorted_cons. split.
      * constructor; [done|]. eapply Forall_impl; [done|]. intros z Hz. cbn in *.
        by etrans.
      * by apply StronglySorted_cons.
Qed.

Lemma sort_byID_Permutation descriptors : sort_byID descriptors ≡ₚ descriptors.
Proof.
  unfold sort_byID. rewrite <- Permutation_rev.
  assert (∀ acc, foldl (fun sorted x => insertionSort_bubble x sorted) acc descriptors
                 ≡ₚ descriptors ++ acc) as Hgen.
  { induction descriptors as [|x descriptors IH]; intros acc; [done|]. cbn [foldl].
    rewrite IH, insertionSort_bubble_Permutation. cbn [app].
    by rewrite Permutation_middle. }
  by rewrite Hgen, app_nil_r.
Qed.

Lemma StronglySorted_rev {A} (R : relation A) (l : list A) :
  StronglySorted (flip R) l → StronglySorted R (rev l).
Proof.
  induction 1 as [|x l Hs IH Hx]; [constructor|]. cbn [rev].
  apply StronglySorted_app_2; [|done|by repeat constructor].
  intros x1 x2 Hx1%list_elem_of_In%in_rev%list_elem_of_In ->%list_elem_of_singleton.
  by eapply Forall_forall in Hx.
Qed.

Lemma sort_byID_sorted descriptors :
  StronglySorted (fun a b => String.le (InputDescriptorMapping.ID a)
                               (InputDescriptorMapping.ID b)) (sort_byID descriptors).
Proof.
  unfold sort_byID. apply StronglySorted_rev.
  assert (∀ acc,
    StronglySorted (flip (fun a b => String.le (InputDescriptorMapping.ID a)
                                       (InputDescriptorMapping.ID b))) acc →
    StronglySorted (flip (fun a b => String.le (InputDescriptorMapping.ID a)
                                       (InputDescriptorMapping.ID b)))
      (foldl (fun sorted x => insertionSort_bubble x sorted) acc descriptors)) as Hgen.
  { induction descriptors as [|x descriptors IH]; intros acc Hacc; [done|]. cbn [foldl].
    apply IH. by apply insertionSort_bubble_sorted. }
  apply Hgen. constructor.
Qed.

Lemma walkIDs_sorted (m : gmap string (list ptr)) (keys : list string) :
  StronglySorted String.le keys → StronglySorted String.le (walkIDs m keys).
Proof.
  unfold walkIDs. induction 1 as [|k keys Hs IH Hk]; [constructor|].
  rewrite bind_cons. apply StronglySorted_app_2; [|clear|done].
  - intros x1 x2 ->%elem_of_replicate_inv (k' & ->%elem_of_replicate_inv & Hk')%list_elem_of_bind.
    by eapply Forall_forall in Hk.
  - induction (length _) as [|n IHn]; [constructor|]. cbn [replicate].
    constructor; [done|]. apply Forall_replicate. done.
Qed.

Lemma merge_credentials_descriptors fmt d creds st st' :
  merge_credentials fmt d creds st = Some st' →
  ∃ new, descriptors st' = descriptors st ++ new
         ∧ InputDescriptorMapping.ID <$> new = replicate (length creds) d
         ∧ Forall (mappingShape fmt) new.
Proof.
  revert st. induction creds as [|p creds IH]; intros st; cbn [merge_credentials].
  - intros [= <-]. exists []. by rewrite app_nil_r.
  - destruct (heap st !! p) as [credential|]; [|done].
    destruct (bool_decide (is_Some (setOfCreds st !! Credential.ID credential)));
      rewrite (bool_decide_eq_true_2 (_ ∉ setOfDescriptors)) by apply not_elem_of_empty;
      cbn [heap setOfCreds result descriptors];
      intros (new & Hd & Hid & Hshape)%IH; cbn [descriptors] in Hd;
      rewrite <- app_assoc in Hd; eexists; (split; [exact Hd|]);
      cbn [fmap list_fmap app length replicate InputDescriptorMapping.ID]; rewrite Hid;
      (split; [done|]); (constructor; [|done]);
      (split_and!; [done..|]); eexists _, _; (split; [done|]);
      destruct (negb _); auto.
Qed.

Lemma merge_keys_descriptors fmt m keys st st' :
  merge_keys fmt m keys st = Some st' →
  ∃ new, descriptors st' = descriptors st ++ new
         ∧ InputDescriptorMapping.ID <$> new = walkIDs m keys
         ∧ Forall (mappingShape fmt) new.
Proof.
  revert st. induction keys as [|k keys IH]; intros st; cbn [merge_keys].
  - intros [= <-]. exists []. by rewrite app_nil_r.
  - destruct (merge_credentials fmt k (default [] (m !! k)) st) as [st1|] eqn:Hk; [|done].
    apply merge_credentials_descriptors in Hk as (new1 & Hd1 & Hid1 & Hs1).
    intros (new2 & Hd2 & Hid2 & Hs2)%IH. exists (new1 ++ new2).
    rewrite Hd2, Hd1, <- app_assoc. split; [done|]. split.
    + rewrite fmap_app, Hid1, Hid2. unfold walkIDs. by rewrite bind_cons.
    + by apply Forall_app.
Qed.

(** X19: the descriptor map [merge] returns has one entry per credential of
    every bucket, in ascending order of descriptor id; an entry carries the
    presentation format and the path [$], and nests an entry of the same id
    whose format is ldp_vc or jwt_vc and whose path indexes
    [verifiableCredential]. *)
Theorem merge_descriptor_map (presentationFormat : string)
    (setOfCredentials : gmap string (list ptr)) (h h' : store) (res : list ptr)
    (descs : list InputDescriptorMapping.t) :
  merge presentationFormat setOfCredentials h = Some (h', res, descs) →
  InputDescriptorMapping.ID <$> descs
  = walkIDs setOfCredentials (merge_sort String.le (elements (dom setOfCredentials)))
  ∧ StronglySorted String.le (InputDescriptorMapping.ID <$> descs)
  ∧ Forall (mappingShape presentationFormat) descs
  ∧ (∀ k l, setOfCredentials !! k = Some l →
       length (List.filter (fun e => String.eqb (InputDescriptorMapping.ID e) k) descs)
       = length l).
Proof.
  unfold merge.
  destruct (merge_keys _ _ _ _) as [st|] eqn:Hkeys; [|done]. intros [= <- <- <-].
  apply merge_keys_descriptors in Hkeys as (new & Hd & Hid & Hshape).
  cbn [descriptors app] in Hd. rewrite Hd.
  assert (StronglySorted String.le (InputDescriptorMapping.ID <$> sort_byID new)) as Hsorted.
  { eapply StronglySorted_fmap; [|apply sort_byID_sorted]. done. }
  assert (InputDescriptorMapping.ID <$> sort_byID new
          = walkIDs setOfCredentials
              (merge_sort String.le (elements (dom setOfCredentials)))) as Hids.
  { apply (StronglySorted_unique String.le); [done| |].
    - apply walkIDs_sorted, StronglySorted_merge_sort; apply _.
    - by rewrite sort_byID_Permutation, Hid. }
  split_and!; [done|done| |].
  - eapply Forall_forall. intros e He. eapply Forall_forall in Hshape; [done|].
    by rewrite <- (sort_byID_Permutation new).
  - intros k l Hk.
    transitivity (length (List.filter (String.eqb k)
                            (InputDescriptorMapping.ID <$> sort_byID new))).
    { generalize (sort_byID new). intros es. induction es as [|e es IH]; [done|].
      cbn [List.filter fmap list_fmap]. rewrite (String.eqb_sym k).
      destruct (String.eqb _ k); cbn [length]; by rewrite IH. }
    rewrite Hids. unfold walkIDs.
    assert (NoDup (merge_sort String.le (elements (dom setOfCredentials)))) as Hnd.
    { rewrite merge_sort_Permutation. apply NoDup_elements. }
    assert (k ∈ merge_sort String.le (elements (dom setOfCredentials))) as Hin.
    { rewrite merge_sort_Permutation. apply elem_of_elements, elem_of_dom. by eexists. }
    revert Hnd Hin. generalize (merge_sort String.le (elements (dom setOfCredentials))).
    intros keys. induction keys as [|k' keys IH]; intros Hnd Hin; [by apply elem_of_nil in Hin|].
    apply NoDup_cons in Hnd as [Hk' Hnd]. rewrite bind_cons, List.filter_app, length_app.
    assert (∀ n k1, length (List.filter (String.eqb k) (replicate n k1))
                    = if String.eqb k k1 then n else 0%nat) as Hrep.
    { intros n k1. induction n as [|n IHn]; [by destruct (String.eqb k k1)|].
      cbn [replicate List.filter]. destruct (String.eqb k k1); cbn [length]; by rewrite ?IHn. }
    rewrite Hrep. destruct (String.eqb_spec k k') as [<-|Hne].
    + rewrite Hk. cbn [default from_option id].
      assert (length (List.filter (String.eqb k)
                (keys ≫= (fun k0 => replicate (length (default [] (setOfCredentials !! k0))) k0)))
              = 0%nat) as ->; [|lia].
      clear IH Hnd Hin. induction keys as [|k1 keys IH]; [done|].
      apply not_elem_of_cons in Hk' as [Hne Hk']. rewrite bind_cons, List.filter_app, length_app.
      rewrite Hrep, IH by done. by destruct (String.eqb_spec k k1).
    + apply elem_of_cons in Hin as [?|Hin]; [done|]. by rewrite IH.
Qed.

(** ** Submission assembler: the emitted credentials *)

Lemma setID_same (c : Credential.t) : setID c (Credential.ID c) = c.
Proof. by destruct c. Qed.

Lemma merge_credentials_emitted fmt d creds walked st st' :
  merge_credentials fmt d creds st = Some st' →
  emitted walked st →
  emitted (walked ++ creds) st'
  ∧ (markerFree (heap st) → distinctIDs st → heap st' = heap st ∧ distinctIDs st').
Proof.
  revert walked st. induction creds as [|p creds IH]; intros walked st;
    cbn [merge_credentials].
  - intros [= <-] Hinv. by rewrite app_nil_r.
  - destruct (heap st !! p) as [c|] eqn:Hp; [|done].
    replace (walked ++ p :: creds) with ((walked ++ [p]) ++ creds)
      by (by rewrite <- app_assoc).
    intros Hrest (Hnd & Hsub & Hids & Hwalked).
    destruct (bool_decide (is_Some (setOfCreds st !! Credential.ID c))) eqn:Hseen;
      rewrite (bool_decide_eq_true_2 (_ ∉ setOfDescriptors)) in Hrest
        by apply not_elem_of_empty;
      cbn [heap setOfCreds result descriptors] in Hrest;
      apply (IH (walked ++ [p])) in Hrest.
    + exact Hrest.
    + apply bool_decide_eq_true in Hseen.
      split_and!; cbn [heap setOfCreds result descriptors]; [done| | done|].
      * intros q Hq. apply elem_of_app. left. by apply Hsub.
      * intros q [Hq| ->%list_elem_of_singleton]%elem_of_app; [by apply Hwalked|].
        by exists c.
    + apply bool_decide_eq_false in Hseen. destruct Hrest as [Hinv' Hfree'].
      split; [done|]. intros Hfree Hdist.
      assert (setID c (trimTmpID (Credential.ID c)) = c) as Hc.
      { rewrite trimTmpID_fixed; [apply setID_same|].
        eapply Forall_forall in Hfree; [done|]. by eapply list_elem_of_lookup_2. }
      cbn [heap result] in Hfree'. rewrite Hc, list_insert_id in Hfree' by done.
      apply Hfree'; [done|].
      intros p1 p2 c1 c2. cbn [heap result].
      intros [H1| ->%list_elem_of_singleton]%elem_of_app
             [H2| ->%list_elem_of_singleton]%elem_of_app Hc1 Hc2 Heq.
      * by eapply Hdist.
      * exfalso. apply Hseen, Hids. exists p1, c1. split_and!; [done..|]. congruence.
      * exfalso. apply Hseen, Hids. exists p2, c2. split_and!; [done..|]. congruence.
      * done.
    + apply bool_decide_eq_false in Hseen.
      assert (p ∉ result st) as Hnew.
      { intros Hin. apply Hseen, Hids. by exists p, c. }
      assert (p < length (heap st))%nat as Hlt by (by eapply lookup_lt_Some).
      set (c' := setID c (trimTmpID (Credential.ID c))) in *.
      split_and!; cbn [heap setOfCreds result descriptors].
      * apply NoDup_app. split_and!; [done| |apply NoDup_singleton].
        by intros q Hq ->%list_elem_of_singleton.
      * intros q [Hq| ->%list_elem_of_singleton]%elem_of_app; apply elem_of_app;
          [left; by apply Hsub | right; by apply list_elem_of_singleton].
      * intros id. rewrite lookup_insert_is_Some'. split.
        -- intros [<-|(q & cq & Hq & Hcq & <-)%Hids].
           ++ exists p, c'. split_and!; [|by rewrite list_lookup_insert_eq|done].
              apply elem_of_app. right. by apply list_elem_of_singleton.
           ++ exists q, cq. split_and!; [apply elem_of_app; by left| |done].
              rewrite list_lookup_insert_ne; [done|]. by intros ->.
        -- intros (q & cq & [Hq| ->%list_elem_of_singleton]%elem_of_app & Hcq & <-).
           ++ right. apply Hids. exists q, cq. split_and!; [done| |done].
              rewrite list_lookup_insert_ne in Hcq; [done|]. by intros ->.
           ++ left. rewrite list_lookup_insert_eq in Hcq by done. congruence.
      * intros q Hq. destruct (decide (q = p)) as [->|Hne].
        -- exists c'. rewrite list_lookup_insert_eq by done. split; [done|].
           by rewrite lookup_insert_eq.
        -- apply elem_of_app in Hq as [Hq|?%list_elem_of_singleton]; [|done].
           destruct (Hwalked q Hq) as (cq & Hcq & Hs). exists cq.
           rewrite list_lookup_insert_ne by done. split; [done|].
           apply lookup_insert_is_Some'. by right.
Qed.

Lemma merge_keys_emitted fmt (m : gmap string (list ptr)) keys walked st st' :
  merge_keys fmt m keys st = Some st' →
  emitted walked st →
  emitted (walked ++ keys ≫= (fun k => default [] (m !! k))) st'
  ∧ (markerFree (heap st) → distinctIDs st → heap st' = heap st ∧ distinctIDs st').
Proof.
  revert walked st. induction keys as [|k keys IH]; intros walked st; cbn [merge_keys].
  - intros [= <-] Hinv. by rewrite app_nil_r.
  - destruct (merge_credentials fmt k (default [] (m !! k)) st) as [st1|] eqn:Hk; [|done].
    intros Hrest Hinv.
    destruct (merge_credentials_emitted _ _ _ _ _ _ Hk Hinv) as [Hinv1 Hfree1].
    destruct (IH _ _ Hrest Hinv1) as [Hinv' Hfree']. rewrite bind_cons, app_assoc.
    split; [done|]. intros Hfree Hdist. destruct (Hfree1 Hfree Hdist) as [Hh Hd].
    rewrite <- Hh. apply Hfree'; [by rewrite Hh | done].
Qed.

(** X20: [merge] emits an address at most once and only from the buckets;
    every credential of the buckets ends with the id of an emitted one; and
    when no id of the store carries the transient marker, the store is left as
    it was and the emitted credentials have pairwise distinct ids. *)
Theorem merge_emitted (presentationFormat : string)
    (setOfCredentials : gmap string (list ptr)) (h h' : store) (res : list ptr)
    (descs : list InputDescriptorMapping.t) :
  merge presentationFormat setOfCredentials h = Some (h', res, descs) →
  NoDup res
  ∧ (∀ p, p ∈ res → ∃ k l, setOfCredentials !! k = Some l ∧ p ∈ l)
  ∧ (∀ k l p, setOfCredentials !! k = Some l → p ∈ l →
       ∃ c q cq, h' !! p = Some c ∧ q ∈ res ∧ h' !! q = Some cq
                 ∧ Credential.ID cq = Credential.ID c)
  ∧ (markerFree h →
     h' = h
     ∧ ∀ p q cp cq, p ∈ res → q ∈ res → h !! p = Some cp → h !! q = Some cq →
         Credential.ID cp = Credential.ID cq → p = q).
Proof.
  unfold merge.
  destruct (merge_keys _ _ _ _) as [st|] eqn:Hkeys; [|done]. intros [= <- <- <-].
  destruct (merge_keys_emitted _ _ _ [] _ _ Hkeys) as [(Hnd & Hsub & Hids & Hwalked) Hfree].
  { split_and!; cbn [result heap setOfCreds]; [constructor|done| |by intros ? ?%elem_of_nil].
    intros id. rewrite lookup_empty. split; [by intros [? ?]|].
    by intros (? & ? & ?%elem_of_nil & _). }
  cbn [app] in *.
  assert (∀ p, p ∈ merge_sort String.le (elements (dom setOfCredentials))
                     ≫= (fun k => default [] (setOfCredentials !! k))
               ↔ ∃ k l, setOfCredentials !! k = Some l ∧ p ∈ l) as Hbuckets.
  { intros p. rewrite list_elem_of_bind. split.
    - intros (k & Hp & Hk). rewrite merge_sort_Permutation in Hk.
      apply elem_of_elements, elem_of_dom in Hk as [l Hl]. rewrite Hl in Hp. by exists k, l.
    - intros (k & l & Hl & Hp). exists k. rewrite Hl. split; [done|].
      rewrite merge_sort_Permutation. apply elem_of_elements, elem_of_dom. by eexists. }
  split_and!; [done| | |].
  - intros p Hp. by apply Hbuckets, Hsub.
  - intros k l p Hl Hp. destruct (Hwalked p) as (c & Hc & Hs); [apply Hbuckets; by exists k, l|].
    apply Hids in Hs as (q & cq & ? & ? & ?). by exists c, q, cq.
  - intros Hmf. destruct Hfree as [Hh Hd]; cbn [heap result]; [done|by intros ? ? ? ? ?%elem_of_nil|].
    cbn [heap] in Hh. split; [done|]. intros p q cp cq Hp Hq Hcp Hcq.
    apply (Hd p q cp cq Hp Hq); by rewrite Hh.
Qed.

(** C9: for an id without the transient marker, trimming after appending the
    marker and a uuid gives the id back; and the assembler returns a result on
    every allocated input, in which every credential of the buckets ends with
    the trimmed, marker-free form of the id it came in with and is
    represented among the emitted credentials by one that carries that id,
    the emitted credentials all coming from the buckets. *)
Theorem trimTmpID_tmpID_and_emitted_ids (id uuid fmt : string)
    (m : gmap string (list ptr)) (h : store) :
  strings_Contains id tmpEnding = false →
  validBuckets m h →
  trimTmpID (tmpID id uuid) = id ∧
  ∃ h' res descs, merge fmt m h = Some (h', res, descs) ∧
    (∀ p, p ∈ res →
       (∃ k l, m !! k = Some l ∧ p ∈ l)
       ∧ ∃ c0 c, h !! p = Some c0 ∧ h' !! p = Some c
                 ∧ Credential.ID c = trimTmpID (Credential.ID c0)
                 ∧ strings_Contains (Credential.ID c) tmpEnding = false)
    ∧ (∀ k l p, m !! k = Some l → p ∈ l →
         ∃ c0 c q cq, h !! p = Some c0 ∧ h' !! p = Some c
                      ∧ Credential.ID c = trimTmpID (Credential.ID c0)
                      ∧ strings_Contains (Credential.ID c) tmpEnding = false
                      ∧ q ∈ res ∧ h' !! q = Some cq
                      ∧ Credential.ID cq = Credential.ID c).
Proof.
  intros Hfree Hval. split.
  - unfold trimTmpID, tmpID, strings_Contains, sliceTo, strings_Index in *.
    destruct (strings_Index_from_ge id tmpEnding 0) as [Hi|Hi]; [|lia].
    rewrite strings_Index_from_tmpID by (done || lia).
    destruct (Z.eqb_spec (0 + Z.of_nat (String.length id)) (-1)); [lia|].
    rewrite Z.add_0_l, Nat2Z.id. apply substring_append_l.
  - assert (∀ k l p, m !! k = Some l → p ∈ l → (p < length h)%nat) as Hlt.
    { intros k l p Hk Hp. specialize (Hval k l Hk). cbn in Hval.
      by eapply Forall_forall in Hval. }
    unfold merge.
    destruct (merge_keys_trimmed h fmt m (merge_sort String.le (elements (dom m)))
                (MergeState h ∅ [] [])) as (st & Hkeys & _ & Hall & Hres); [|done|].
    { split_and!; cbn [heap result]; [done| |by inversion 1].
      intros p c0 Hp. exists c0. auto. }
    rewrite Hkeys.
    destruct (merge_keys_emitted _ _ _ [] _ _ Hkeys) as [(Hnd & Hsub & Hids & Hwalked) _].
    { split_and!; cbn [result heap setOfCreds]; [constructor|done| |by intros ? ?%elem_of_nil].
      intros i. rewrite lookup_empty. split; [by intros [? ?]|].
      by intros (? & ? & ?%elem_of_nil & _). }
    cbn [app] in Hsub, Hwalked.
    assert (∀ p, p ∈ merge_sort String.le (elements (dom m))
                       ≫= (fun k => default [] (m !! k))
                 ↔ ∃ k l, m !! k = Some l ∧ p ∈ l) as Hbuckets.
    { intros p. rewrite list_elem_of_bind. split.
      - intros (k & Hp & Hk). rewrite merge_sort_Permutation in Hk.
        apply elem_of_elements, elem_of_dom in Hk as [l Hl]. rewrite Hl in Hp. by exists k, l.
      - intros (k & l & Hl & Hp). exists k. rewrite Hl. split; [done|].
        rewrite merge_sort_Permutation. apply elem_of_elements, elem_of_dom. by eexists. }
    exists (heap st), (result st), (sort_byID (descriptors st)). split; [done|]. split.
    + intros p Hp. split; [by apply Hbuckets, Hsub|].
      destruct (Hres p Hp) as (c0 & c & ? & ? & Hid).
      exists c0, c. split_and!; [done..|]. rewrite Hid. apply trimTmpID_marker_free.
    + intros k l p Hk Hp.
      destruct (lookup_lt_is_Some_2 h p (Hlt k l p Hk Hp)) as [c0 Hc0].
      destruct (Hall p c0 Hc0) as (c & Hc & Hid).
      destruct (Hwalked p) as (c' & Hc' & Hseen); [apply Hbuckets; by exists k, l|].
      assert (c' = c) as -> by congruence.
      apply Hids in Hseen as (q & cq & Hq & Hcq & Heq).
      destruct (Hres q Hq) as (cq0 & cq' & _ & Hcq' & Hqid).
      assert (cq' = cq) as -> by congruence.
      assert (strings_Contains (Credential.ID c) tmpEnding = false) as Hmf.
      { rewrite <- Heq, Hqid. apply trimTmpID_marker_free. }
      exists c0, c, q, cq. split_and!; [done..| |done|done|done|done].
      destruct Hid as [Hid|Hid]; [|done].
      rewrite <- Hid. symmetry. by apply trimTmpID_fixed.
Qed.

(** ** Match report and pipeline failures *)

Lemma leafDescriptors_eq name purpose rule cnt mn mx inputDescriptors nested :
  leafDescriptors (requirement.mk name purpose rule cnt mn mx inputDescriptors nested)
  = if negb (len inputDescriptors =? 0) then inputDescriptors
    else nested ≫= leafDescriptors.
Proof. reflexivity. Qed.

Lemma allDescriptors_eq name purpose rule cnt mn mx inputDescriptors nested :
  allDescriptors (requirement.mk name purpose rule cnt mn mx inputDescriptors nested)
  = inputDescriptors ++ nested ≫= allDescriptors.
Proof. reflexivity. Qed.

Lemma wellBuilt_leaf_all descriptors r :
  wellBuilt descriptors r → leafDescriptors r = allDescriptors r.
Proof.
  induction r as [name purpose rule cnt mn mx ds nested IH] using requirement_nested_ind.
  intros ([-> | ->] & _ & _ & Hn)%wellBuilt_eq; rewrite leafDescriptors_eq, allDescriptors_eq.
  - change (negb (len [] =? 0)) with false. cbv iota. cbn [app].
    induction nested as [|r nested IHn]; [done|]. rewrite !bind_cons.
    apply Forall_cons in IH as [Hr IH]. apply Forall_cons in Hn as [Hwr Hn].
    by rewrite (Hr Hwr), (IHn IH Hn).
  - rewrite app_nil_r. destruct ds as [|d ds]; [done|]. by rewrite len_cons_eqb.
Qed.

Section MatcherProperties.
Context `{JWTParser} `{JSONLD} `{ConstraintPipeline} `{DefinitionValidator}.

Lemma firstFailure_cons pd creds d ds msg :
  firstFailure pd creds (d :: ds) msg
  ↔ filterCredentialsThatMatchDescriptor pd creds d = inl msg
    ∨ (pipelineSucceeds pd creds d ∧ firstFailure pd creds ds msg).
Proof.
  unfold firstFailure. split.
  - intros ([|d' pre] & d0 & post & Heq & Hpre & Hd); cbn [app] in Heq;
      injection Heq as <- ->; [by left|].
    apply Forall_cons in Hpre as [? ?]. right. split; [done|]. by exists pre, d0, post.
  - intros [Hd|(Hok & pre & d0 & post & -> & Hpre & Hd)].
    + by exists [], d, ds.
    + exists (d :: pre), d0, post. split_and!; [done| |done]. by constructor.
Qed.

Lemma firstFailure_nil pd creds msg : ¬ firstFailure pd creds [] msg.
Proof. intros ([|? ?] & ? & ? & ? & _); done. Qed.

Lemma firstFailure_app pd creds l1 l2 msg :
  firstFailure pd creds (l1 ++ l2) msg
  ↔ firstFailure pd creds l1 msg
    ∨ (Forall (pipelineSucceeds pd creds) l1 ∧ firstFailure pd creds l2 msg).
Proof.
  induction l1 as [|d l1 IH]; cbn [app].
  - split; [right; by split|]. intros [?%firstFailure_nil|[_ ?]]; done.
  - rewrite !firstFailure_cons, IH, Forall_cons. tauto.
Qed.

Lemma firstFailure_not_all pd creds ds msg :
  firstFailure pd creds ds msg → ¬ Forall (pipelineSucceeds pd creds) ds.
Proof.
  intros (pre & d & post & -> & _ & Hd) [_ [[r Hr] _]%Forall_cons]%Forall_app. congruence.
Qed.

Lemma firstFailure_unique pd creds ds msg1 msg2 :
  firstFailure pd creds ds msg1 → firstFailure pd creds ds msg2 → msg1 = msg2.
Proof.
  induction ds as [|d ds IH]; [by intros ?%firstFailure_nil|].
  rewrite !firstFailure_cons. intros [Hd1|[[r1 Hd1] Hf1]] [Hd2|[[r2 Hd2] Hf2]];
    [congruence..|by apply IH].
Qed.

Lemma settled_inr {A} pd creds ds (a : A) :
  settled pd creds ds (inr a : error + A) ↔ Forall (pipelineSucceeds pd creds) ds.
Proof. done. Qed.

Lemma descriptorsLoop_settled pd ds creds vpFormat result :
  settled pd creds ds (descriptorsLoop pd ds creds vpFormat result).
Proof.
  revert vpFormat result. induction ds as [|d ds IH]; intros vpFormat result;
    cbn [descriptorsLoop]; [by constructor|].
  destruct (filterCredentialsThatMatchDescriptor pd creds d) as [msg|[f l]] eqn:Hd.
  - apply firstFailure_cons. by left.
  - specialize (IH (if negb (String.eqb f "") then f else vpFormat)
                   (if negb (len l =? 0) then <[InputDescriptor.ID d := l]> result else result)).
    destruct (descriptorsLoop pd ds creds _ _) as [[| |msg]|r]; cbn [settled] in *;
      [constructor; [by eexists|done] | done | | constructor; [by eexists|done]].
    apply firstFailure_cons. right. split; [by eexists|done].
Qed.

Lemma matchDescriptors_settled pd ds creds acc :
  match matchDescriptors pd ds creds acc with
  | inl err => ∃ msg, err = ErrFilter msg ∧ firstFailure pd creds ds msg
  | inr ms => Forall (pipelineSucceeds pd creds) ds
              ∧ ∃ new, ms = acc ++ new ∧ Forall2 (reported pd creds) ds new
  end.
Proof.
  revert acc. induction ds as [|d ds IH]; intros acc; cbn [matchDescriptors].
  - split; [constructor|]. exists []. by rewrite app_nil_r.
  - destruct (filterCredentialsThatMatchDescriptor pd creds d) as [msg|[f l]] eqn:Hd.
    + exists msg. split; [done|]. apply firstFailure_cons. by left.
    + specialize (IH (acc ++ [MatchedInputDescriptor.mk (InputDescriptor.ID d)
                                (InputDescriptor.Name d) (InputDescriptor.Purpose d) l])).
      destruct (matchDescriptors pd ds creds _) as [err|ms].
      * destruct IH as (msg & -> & Hf). exists msg. split; [done|].
        apply firstFailure_cons. right. split; [by eexists|done].
      * destruct IH as (Hok & new & -> & Hnew). split; [constructor; [by eexists|done]|].
        eexists (_ :: new). rewrite <- app_assoc. split; [done|].
        constructor; [|done]. split_and!; [done..|]. by exists f.
Qed.

Lemma nestedLoop_settled pd creds apply rs nestedResult set vpFormat :
  Forall (fun r => settled pd creds (leafDescriptors r) (apply r)) rs →
  settled pd creds (rs ≫= leafDescriptors) (nestedLoop apply rs nestedResult set vpFormat).
Proof.
  intros Hrs. revert nestedResult set vpFormat.
  induction Hrs as [|r rs Hr _ IH]; intros nestedResult set vpFormat;
    cbn [nestedLoop]; [by constructor|].
  rewrite bind_cons.
  assert (∀ nr' set' fmt',
    Forall (pipelineSucceeds pd creds) (leafDescriptors r) →
    settled pd creds (leafDescriptors r ++ rs ≫= leafDescriptors)
      (nestedLoop apply rs nr' set' fmt')) as Hnext.
  { intros nr' set' fmt' Hok. specialize (IH nr' set' fmt').
    destruct (nestedLoop apply rs nr' set' fmt') as [[| |msg]|?]; cbn [settled] in *;
      [by apply Forall_app | done | | by apply Forall_app].
    apply firstFailure_app. right. by split. }
  destruct (apply r) as [[| |msg]|[vpFmt res]]; cbn [settled] in Hr.
  - by apply Hnext.
  - done.
  - cbn [settled]. apply firstFailure_app. by left.
  - destruct (negb _); by apply Hnext.
Qed.

Lemma applyRequirement_settled pd req creds :
  settled pd creds (leafDescriptors req) (applyRequirement pd req creds).
Proof.
  induction req as [name purpose rule cnt mn mx ds nested IH] using requirement_nested_ind.
  rewrite leafDescriptors_eq. destruct ds as [|d ds].
  - change (negb (len [] =? 0)) with false. cbv iota. rewrite branch_unfold.
    pose proof (nestedLoop_settled pd creds (fun r => applyRequirement pd r creds)
                  nested [] ∅ FormatLDPVP IH) as Hn.
    by destruct (nestedLoop _ nested [] ∅ FormatLDPVP) as [[| |msg]|[[nr set] fmt]].
  - rewrite len_cons_eqb. cbn [negb applyRequirement].
    pose proof (descriptorsLoop_settled pd (d :: ds) creds FormatLDPVP ∅) as Hl.
    destruct (descriptorsLoop pd (d :: ds) creds FormatLDPVP ∅) as [[| |msg]|[fmt res]];
      [done..|].
    rewrite len_cons_eqb. cbn [negb]. by destruct (isLenApplicable _ _).
Qed.

Lemma matchLoop_settled pd creds matchOne rs acc :
  Forall (fun r => match matchOne r with
                   | inl err => ∃ msg, err = ErrFilter msg
                                       ∧ firstFailure pd creds (allDescriptors r) msg
                   | inr _ => Forall (pipelineSucceeds pd creds) (allDescriptors r)
                   end) rs →
  match matchLoop matchOne rs acc with
  | inl err => ∃ msg, err = ErrFilter msg
                      ∧ firstFailure pd creds (rs ≫= allDescriptors) msg
  | inr ms => Forall (pipelineSucceeds pd creds) (rs ≫= allDescriptors)
              ∧ ∃ new, ms = acc ++ new ∧ Forall2 (fun r m => matchOne r = inr m) rs new
  end.
Proof.
  intros Hrs. revert acc. induction Hrs as [|r rs Hr _ IH]; intros acc; cbn [matchLoop].
  - split; [constructor|]. exists []. by rewrite app_nil_r.
  - rewrite bind_cons. destruct (matchOne r) as [err|m] eqn:Hm.
    + destruct Hr as (msg & -> & Hf). exists msg. split; [done|].
      apply firstFailure_app. by left.
    + specialize (IH (acc ++ [m])). destruct (matchLoop matchOne rs (acc ++ [m])) as [err|ms].
      * destruct IH as (msg & -> & Hf). exists msg. split; [done|].
        apply firstFailure_app. right. by split.
      * destruct IH as (Hok & new & -> & Hnew). split; [by apply Forall_app|].
        exists (m :: new). rewrite <- app_assoc. split; [done|]. by constructor.
Qed.

Lemma matchRequirement_settled pd req creds :
  match matchRequirement pd req creds with
  | inl err => ∃ msg, err = ErrFilter msg
                      ∧ firstFailure pd creds (allDescriptors req) msg
  | inr _ => Forall (pipelineSucceeds pd creds) (allDescriptors req)
  end.
Proof.
  induction req as [name purpose rule cnt mn mx ds nested IH] using requirement_nested_ind.
  rewrite allDescriptors_eq. cbn [matchRequirement].
  pose proof (matchDescriptors_settled pd ds creds []) as Hd.
  destruct (matchDescriptors pd ds creds []) as [err|mds].
  - destruct Hd as (msg & -> & Hf). exists msg. split; [done|].
    apply firstFailure_app. by left.
  - destruct Hd as [Hok _].
    pose proof (matchLoop_settled pd creds (fun r => matchRequirement pd r creds)
                  nested [] IH) as Hn.
    destruct (matchLoop _ nested []) as [err|ms].
    + destruct Hn as (msg & -> & Hf). exists msg. split; [done|].
      apply firstFailure_app. right. by split.
    + destruct Hn as [Hok' _]. by apply Forall_app.
Qed.

(** X21: a definition passes validation exactly when the first schema or the
    second accepts it; a validation error is always that of the second
    schema: what the validator failed with, or the errors of its result
    joined by commas. *)
Theorem ValidateSchema_accepts (pd : PresentationDefinition.t) :
  let accepts schema :=
    ∃ result, validateDefinition schema pd = inr result
              ∧ ValidationResult.Valid result = true in
  (ValidateSchema pd = None
   ↔ accepts DefinitionJSONSchemaV1 ∨ accepts DefinitionJSONSchemaV2)
  ∧ ∀ msg, ValidateSchema pd = Some msg →
      validateDefinition DefinitionJSONSchemaV2 pd = inl msg
      ∨ ∃ result, validateDefinition DefinitionJSONSchemaV2 pd = inr result
                  ∧ ValidationResult.Valid result = false
                  ∧ msg = strings_Join (ValidationResult.Errors result) ",".
Proof.
  unfold ValidateSchema.
  destruct (validateDefinition DefinitionJSONSchemaV1 pd) as [e1|[[] errs1]];
    destruct (validateDefinition DefinitionJSONSchemaV2 pd) as [e2|[[] errs2]];
    cbn; split; try (intros msg); naive_solver.
Qed.

(** X22: a match report repeats the header of the requirement, lists one
    entry per descriptor, in order, holding the descriptor's id, name and
    purpose and what the pipeline kept for it, empty results included, and one
    report per child. *)
Theorem matchRequirement_report (pd : PresentationDefinition.t) (req : requirement.t)
    (creds : list Credential.t) (m : MatchedSubmissionRequirement.t) :
  matchRequirement pd req creds = inr m →
  MatchedSubmissionRequirement.Name m = requirement.Name req
  ∧ MatchedSubmissionRequirement.Purpose m = requirement.Purpose req
  ∧ MatchedSubmissionRequirement.Rule m = requirement.Rule req
  ∧ MatchedSubmissionRequirement.Count m = requirement.Count req
  ∧ MatchedSubmissionRequirement.Min m = requirement.Min req
  ∧ MatchedSubmissionRequirement.Max m = requirement.Max req
  ∧ Forall2 (reported pd creds) (requirement.InputDescriptors req)
      (MatchedSubmissionRequirement.Descriptors m)
  ∧ Forall2 (fun r child => matchRequirement pd r creds = inr child)
      (requirement.Nested req) (MatchedSubmissionRequirement.Nested m).
Proof.
  destruct req as [name purpose rule cnt mn mx ds nested]. cbn [matchRequirement].
  pose proof (matchDescriptors_settled pd ds creds []) as Hd.
  destruct (matchDescriptors pd ds creds []) as [err|mds]; [done|].
  destruct Hd as (_ & new & -> & Hnew).
  assert (∀ acc ms, matchLoop (fun r => matchRequirement pd r creds) nested acc = inr ms →
            ∃ new', ms = acc ++ new'
                    ∧ Forall2 (fun r child => matchRequirement pd r creds = inr child)
                        nested new') as Hloop.
  { clear. induction nested as [|r nested IH]; intros acc ms; cbn [matchLoop].
    - intros [= <-]. exists []. by rewrite app_nil_r.
    - destruct (matchRequirement pd r creds) as [|child] eqn:Hr; [done|].
      intros (new' & -> & Hn)%IH. exists (child :: new'). rewrite <- app_assoc.
      split; [done|]. by constructor. }
  destruct (matchLoop _ nested []) as [err|ms] eqn:Hn; [done|].
  apply Hloop in Hn as (new' & -> & Hnew'). intros [= <-]. by split_and!.
Qed.

(** X23: whatever the tree, an evaluation fails with a pipeline error exactly
    when a pipeline of the descriptors it asks fails, the error being that of
    the first one in order; otherwise every such pipeline ran to completion,
    and the evaluation returned a result or the no-credentials error. *)
Theorem applyRequirement_first_failure (pd : PresentationDefinition.t)
    (req : requirement.t) (creds : list Credential.t) :
  (∀ msg, applyRequirement pd req creds = inl (ErrFilter msg)
          ↔ firstFailure pd creds (leafDescriptors req) msg)
  ∧ (Forall (pipelineSucceeds pd creds) (leafDescriptors req)
     ↔ applyRequirement pd req creds = inl ErrNoCredentials
       ∨ ∃ res, applyRequirement pd req creds = inr res).
Proof.
  pose proof (applyRequirement_settled pd req creds) as Hs.
  destruct (applyRequirement pd req creds) as [[| |msg']|res]; cbn [settled] in Hs;
    [|done| |].
  - split; [|split; [by left|done]].
    intros msg. split; [done|]. by intros ?%firstFailure_not_all.
  - split.
    + intros msg. split; [by intros [= <-]|]. intros Hf. f_equal. f_equal.
      by eapply firstFailure_unique.
    + split; [by intros ?%(firstFailure_not_all _ _ _ msg')|]. by intros [?|[? ?]].
  - split; [|split; [right; by eexists|done]].
    intros msg. split; [done|]. by intros ?%firstFailure_not_all.
Qed.

(** X24: a match report is returned exactly when the pipeline of every
    descriptor of the tree runs to completion; otherwise the error is that of
    the first pipeline that fails, in the order the tree lists them. *)
Theorem matchRequirement_first_failure (pd : PresentationDefinition.t)
    (req : requirement.t) (creds : list Credential.t) :
  (∀ err, matchRequirement pd req creds = inl err
          ↔ ∃ msg, err = ErrFilter msg ∧ firstFailure pd creds (allDescriptors req) msg)
  ∧ (Forall (pipelineSucceeds pd creds) (allDescriptors req)
     ↔ ∃ m, matchRequirement pd req creds = inr m).
Proof.
  pose proof (matchRequirement_settled pd req creds) as Hs.
  destruct (matchRequirement pd req creds) as [err'|m].
  - destruct Hs as (msg' & -> & Hf). split.
    + intros err. split; [intros [= <-]; by exists msg'|].
      intros (msg & -> & Hf'). f_equal. f_equal. by eapply firstFailure_unique.
    + split; [by intros ?%(firstFailure_not_all _ _ _ msg')|]. by intros [? ?].
  - split; [|split; [by eexists|done]].
    intros err. split; [done|]. by intros (msg & _ & ?%firstFailure_not_all).
Qed.

Lemma leafDescriptors_sub_all r :
  leafDescriptors r ⊆ allDescriptors r.
Proof.
  induction r as [name purpose rule cnt mn mx ds nested IH] using requirement_nested_ind.
  rewrite leafDescriptors_eq, allDescriptors_eq. destruct (negb _).
  - intros d Hd. apply elem_of_app. by left.
  - intros d (r & Hd & Hr)%list_elem_of_bind. apply elem_of_app. right.
    apply list_elem_of_bind. exists r. split; [|done].
    eapply Forall_forall in IH; [|done]. by apply IH.
Qed.

(** X25: when a match report is returned, the evaluation of the same tree
    does not fail with a pipeline error; and on a tree of the built shape,
    matching and evaluation fail with the same pipeline errors. *)
Theorem matchRequirement_applyRequirement (pd : PresentationDefinition.t)
    (req : requirement.t) (creds : list Credential.t) :
  ((∃ m, matchRequirement pd req creds = inr m) →
   ∀ msg, applyRequirement pd req creds ≠ inl (ErrFilter msg))
  ∧ (∀ descriptors, wellBuilt descriptors req →
     ∀ err, matchRequirement pd req creds = inl err
            ↔ err ≠ ErrNoCredentials ∧ applyRequirement pd req creds = inl err).
Proof.
  pose proof (matchRequirement_settled pd req creds) as Hm.
  pose proof (applyRequirement_settled pd req creds) as Ha.
  split.
  - intros [m Heq] msg Hmsg. rewrite Heq in Hm. rewrite Hmsg in Ha. cbn [settled] in Ha.
    apply firstFailure_not_all in Ha. apply Ha.
    eapply Forall_forall. intros d Hd%leafDescriptors_sub_all.
    by eapply Forall_forall in Hm.
  - intros descriptors Hwb err. rewrite (wellBuilt_leaf_all _ _ Hwb) in Ha.
    destruct (matchRequirement pd req creds) as [err'|m];
      destruct (applyRequirement pd req creds) as [[| |msg]|res]; cbn [settled] in Ha.
    + destruct Hm as (msg' & -> & ?%firstFailure_not_all). done.
    + done.
    + destruct Hm as (msg' & -> & Hf).
      rewrite (firstFailure_unique _ _ _ _ _ Hf Ha). split; [by intros [= <-]|].
      by intros [_ [= <-]].
    + destruct Hm as (msg' & -> & ?%firstFailure_not_all). done.
    + split; [done|]. by intros [? [= <-]].
    + done.
    + by apply firstFailure_not_all in Ha.
    + split; [done|]. by intros [_ ?].
Qed.
(** X26: an invalid definition is refused before anything else is looked at;
    a returned list of reports holds, when the definition has no submission
    requirements, one report of rule all over all its descriptors, and
    otherwise one report per submission requirement, in order, each the report
    of the requirement built from it. *)
Theorem MatchSubmissionRequirement_reports (pd : PresentationDefinition.t)
    (credentials : list Credential.t) :
  (∀ msg, MatchSubmissionRequirement pd credentials = inl (ErrSchema msg)
          ↔ ValidateSchema pd = Some msg)
  ∧ ∀ reports, MatchSubmissionRequirement pd credentials = inr reports →
      (PresentationDefinition.SubmissionRequirements pd = [] →
       ∃ entries,
         reports = [MatchedSubmissionRequirement.mk "" "" All
                      (len (PresentationDefinition.InputDescriptors pd)) 0 0 entries []]
         ∧ Forall2 (reported pd credentials)
             (PresentationDefinition.InputDescriptors pd) entries)
      ∧ (PresentationDefinition.SubmissionRequirements pd ≠ [] →
         Forall2 (fun sr report =>
                    ∃ r, toRequirement sr (PresentationDefinition.InputDescriptors pd) = inr r
                         ∧ matchRequirement pd r credentials = inr report)
           (PresentationDefinition.SubmissionRequirements pd) reports).
Proof.
  unfold MatchSubmissionRequirement. split.
  - intros msg. destruct (ValidateSchema pd) as [e|]; [split; congruence|].
    destruct (makeRequirementsForMatch _ _) as [|rs]; [done|].
    by destruct (matchLoop _ rs []).
  - intros reports. destruct (ValidateSchema pd) as [e|]; [done|].
    unfold makeRequirementsForMatch.
    destruct (PresentationDefinition.SubmissionRequirements pd) as [|sr srs].
    + change (len [] =? 0) with true. cbv iota.
      set (ds := PresentationDefinition.InputDescriptors pd).
      cbn [matchLoop matchRequirement].
      pose proof (matchDescriptors_settled pd ds credentials []) as Hd.
      destruct (matchDescriptors pd ds credentials []) as [|entries]; [done|].
      destruct Hd as (_ & new & -> & Hnew). cbn [app]. intros [= <-].
      split; [|done]. intros _. by exists new.
    + rewrite len_cons_eqb.
      destruct (toRequirements (sr :: srs) _ []) as [|rs] eqn:Hrs; [done|].
      apply toRequirements_inr in Hrs as (built & -> & Hb). cbn [app].
      destruct (matchLoop _ built []) as [|ms] eqn:Hm; [done|]. intros [= <-].
      split; [done|]. intros _.
      assert (∀ rs acc ms,
        matchLoop (fun req => matchRequirement pd req credentials) rs acc = inr ms →
        ∃ new, ms = acc ++ new
               ∧ Forall2 (fun r report => matchRequirement pd r credentials = inr report)
                   rs new) as Hloop.
      { clear. induction rs as [|r rs IH]; intros acc ms; cbn [matchLoop].
        - intros [= <-]. exists []. by rewrite app_nil_r.
        - destruct (matchRequirement pd r credentials) as [|report] eqn:Hr; [done|].
          intros (new & -> & Hn)%IH. exists (report :: new). rewrite <- app_assoc.
          split; [done|]. by constructor. }
      apply Hloop in Hm as (new & -> & Hnew). cbn [app]. clear Hloop.
      revert new Hnew. induction Hb as [|sr' r srs' built Hr _ IH]; intros new Hnew.
      * inversion Hnew. constructor.
      * inversion Hnew as [|? report ? new' Hreport Hnew']; subst. constructor; [|by apply IH].
        by exists r.
Qed.

End MatcherProperties.

(** ** Subjects *)

Lemma getSubjectIDs_maps (s : list (list (string * JSON))) :
  getSubjectIDs (SubjectMaps s) = omap idOfMap s.
Proof.
  cbn [getSubjectIDs].
  assert (∀ res,
    (fix loop (s : list (list (string * JSON))) (res : list string) : list string :=
       match s with
       | [] => res
       | m :: s' =>
         match idOfMap m with
         | Some sID => loop s' (res ++ [sID])
         | None => loop s' res
         end
       end) s res = res ++ omap idOfMap s) as Hgen; [|apply Hgen].
  induction s as [|m s IH]; intros res; [by rewrite app_nil_r|].
  cbn [omap list_omap]. destruct (idOfMap m); rewrite IH; [|done].
  by rewrite <- app_assoc.
Qed.

Lemma getSubjectIDs_structs (s : list Subject.t) :
  getSubjectIDs (SubjectStructs s) = Subject.ID <$> s.
Proof.
  cbn [getSubjectIDs].
  assert (∀ res,
    (fix loop (s : list Subject.t) (res : list string) : list string :=
       match s with
       | [] => res
       | x :: s' => loop s' (res ++ [Subject.ID x])
       end) s res = res ++ (Subject.ID <$> s)) as Hgen; [|apply Hgen].
  induction s as [|x s IH]; intros res; [by rewrite app_nil_r|].
  cbn [fmap list_fmap]. rewrite IH. by rewrite <- app_assoc.
Qed.

(** X27: the subject is taken for the issuer exactly when the issuer id is
    not empty and is one of the subject ids; the ids of a list of maps are the
    string-valued [id] entries, in order, and those of a list of subjects
    their ids; [toSubject] changes none of this. *)
Theorem subjectIsIssuer_iff (s : subjectValue) (issuerID : string) :
  (subjectIsIssuer s issuerID = true ↔ issuerID ≠ "" ∧ issuerID ∈ getSubjectIDs s)
  ∧ (∀ maps, s = SubjectMaps maps → getSubjectIDs s = omap idOfMap maps)
  ∧ (∀ subjects, s = SubjectStructs subjects → getSubjectIDs s = Subject.ID <$> subjects)
  ∧ getSubjectIDs (toSubject s) = getSubjectIDs s
  ∧ subjectIsIssuer (toSubject s) issuerID = subjectIsIssuer s issuerID
  ∧ toSubject (toSubject s) = toSubject s.
Proof.
  assert (getSubjectIDs (toSubject s) = getSubjectIDs s) as Hids.
  { destruct s as [| | | |[|x [|y l]]|]; done. }
  split_and!.
  - unfold subjectIsIssuer. clear Hids. induction (getSubjectIDs s) as [|ID ids IH].
    + split; [done|]. by intros [_ ?%elem_of_nil].
    + destruct (String.eqb_spec ID "") as [->|Hne]; cbn [negb andb].
      * rewrite IH, elem_of_cons. split; [intros [? ?]; split; [done|by right]|].
        intros [? [->|?]]; done.
      * destruct (String.eqb_spec ID issuerID) as [->|Hne'].
        -- split; [intros _; split; [done|by left]|done].
        -- rewrite IH, elem_of_cons. split; [intros [? ?]; split; [done|by right]|].
           intros [? [->|?]]; done.
  - intros maps ->. apply getSubjectIDs_maps.
  - intros subjects ->. apply getSubjectIDs_structs.
  - done.
  - unfold subjectIsIssuer. by rewrite Hids.
  - destruct s as [| | | |[|x [|y l]]|]; done.
Qed.

(** ** Per-descriptor pipeline *)

Section PipelineProperties.
Context `{JWTParser} `{JSONLD} `{ConstraintPipeline}.

Lemma frameCreds_loop_each frame creds result :
  match frameCreds_loop frame creds result with
  | inl err =>
    ∃ pre c post, creds = pre ++ c :: post
      ∧ Forall (fun c' => ∃ b, GenerateBBSSelectiveDisclosure c' frame = inr b) pre
      ∧ GenerateBBSSelectiveDisclosure c frame = inl err
  | inr framed =>
    ∃ new, framed = result ++ new
      ∧ Forall2 (fun c b => GenerateBBSSelectiveDisclosure c frame = inr b) creds new
  end.
Proof.
  revert result. induction creds as [|c creds IH]; intros result; cbn [frameCreds_loop].
  - exists []. by rewrite app_nil_r.
  - destruct (GenerateBBSSelectiveDisclosure c frame) as [err|b] eqn:Hc.
    + by exists [], c, creds.
    + specialize (IH (result ++ [b])). destruct (frameCreds_loop frame creds _) as [err|framed].
      * destruct IH as (pre & c' & post & -> & Hpre & Hc'). exists (c :: pre), c', post.
        split_and!; [done| |done]. constructor; [by eexists|done].
      * destruct IH as (new & -> & Hnew). exists (b :: new). rewrite <- app_assoc.
        split; [done|]. by constructor.
Qed.

(** X28: without a frame the credentials pass unchanged; with one, the
    result holds the framed form of every credential, one each and in order,
    and the first credential that cannot be framed fails the call with its
    error. *)
Theorem frameCreds_each (frame : option JSON) (creds : list Credential.t) :
  (frame = None → frameCreds frame creds = inr creds)
  ∧ ∀ fr, frame = Some fr →
      (∀ framed, frameCreds frame creds = inr framed
                 ↔ Forall2 (fun c b => GenerateBBSSelectiveDisclosure c fr = inr b)
                     creds framed)
      ∧ (∀ err, frameCreds frame creds = inl err
                ↔ ∃ pre c post, creds = pre ++ c :: post
                    ∧ Forall (fun c' => ∃ b, GenerateBBSSelectiveDisclosure c' fr = inr b) pre
                    ∧ GenerateBBSSelectiveDisclosure c fr = inl err).
Proof.
  split; [by intros ->|]. intros fr ->. cbn [frameCreds].
  assert (∀ cs l1 l2,
            Forall2 (fun c b => GenerateBBSSelectiveDisclosure c fr = inr b) cs l1 →
            Forall2 (fun c b => GenerateBBSSelectiveDisclosure c fr = inr b) cs l2 →
            l1 = l2) as Hfun.
  { intros cs0 l1 l2 Hl1. revert l2. induction Hl1 as [|c b cs bs Hc _ IH]; intros l2 Hl2;
      inversion Hl2 as [|? b' ? bs' Hc' Hbs']; subst; [done|].
    f_equal; [congruence | by apply IH]. }
  assert (∀ l pre c post err,
            Forall2 (fun c b => GenerateBBSSelectiveDisclosure c fr = inr b) creds l →
            creds = pre ++ c :: post →
            GenerateBBSSelectiveDisclosure c fr = inl err → False) as Hex.
  { intros l pre c post err Hall -> Hc.
    apply Forall2_app_inv_l in Hall as (l1 & l2 & _ & Hall & _).
    inversion Hall; congruence. }
  pose proof (frameCreds_loop_each fr creds []) as Hl.
  destruct (frameCreds_loop fr creds []) as [err|framed].
  - destruct Hl as (pre & c & post & Heq & Hpre & Hc). split.
    + intros framed. split; [done|]. intros Hall. exfalso. by eapply Hex.
    + intros err'. split; [intros [= <-]; by exists pre, c, post|].
      intros (pre' & c' & post' & Heq' & Hpre' & Hc'). f_equal.
      assert (pre = pre' ∧ c = c') as [-> ->]; [|congruence].
      clear -Heq Heq' Hpre Hpre' Hc Hc'. subst creds. revert pre' Heq' Hpre'.
      induction pre as [|x pre IH]; intros [|x' pre'] Heq' Hpre'; cbn [app] in Heq'.
      * by injection Heq' as -> _.
      * injection Heq' as -> _. apply Forall_cons in Hpre' as [[? ?] _]. congruence.
      * injection Heq' as <- _. apply Forall_cons in Hpre as [[? ?] _]. congruence.
      * injection Heq' as <- Heq'. apply Forall_cons in Hpre as [_ Hpre].
        apply Forall_cons in Hpre' as [_ Hpre'].
        destruct (IH Hpre pre' Heq' Hpre') as [-> ->]. done.
  - destruct Hl as (new & -> & Hnew). cbn [app]. split.
    + intros framed. split; [by intros [= <-]|]. intros Hall. f_equal. by eapply Hfun.
    + intros err. split; [done|]. intros (pre & c & post & Heq & _ & Hc). exfalso.
      by eapply Hex.
Qed.

End PipelineProperties.

(** ** Selective-disclosure reshaper: renumbered paths *)

Lemma getPath_loop_shape keys set newPath originalPath :
  ∃ addedNew addedOriginal set',
    getPath_loop keys set newPath originalPath
    = (newPath ++ addedNew, originalPath ++ addedOriginal, set')
    ∧ Forall2 (fun k seg => match k with
                            | KStr v => seg = v
                            | KInt v => seg = Sprintf_d v
                            end) keys addedOriginal
    ∧ Forall2 (fun k seg => match k with
                            | KStr v => seg = v
                            | KInt _ => ∃ n, seg = Sprintf_d n
                            end) keys addedNew
    ∧ dom set ⊆ dom set'
    ∧ (Forall (fun k => ∃ v, k = KStr v) keys → addedNew = addedOriginal ∧ set' = set).
Proof.
  revert set newPath originalPath.
  induction keys as [|[v|v] keys IH]; intros set newPath originalPath; cbn [getPath_loop].
  - exists [], [], set. rewrite !app_nil_r. split_and!; [done|constructor|constructor|done|done].
  - match goal with
    | |- context [getPath_loop keys ?s ?n ?o] =>
      destruct (IH s n o) as (an & ao & set' & -> & Ho & Hn & Hdom & _)
    end.
    exists (Sprintf_d (default 0%nat
              ((if bool_decide (is_Some (set !! strings_Join (originalPath ++ [Sprintf_d v]) "."))
                then set
                else <[strings_Join originalPath "." :=
                         S (default 0%nat
                              (<[strings_Join (originalPath ++ [Sprintf_d v]) "." :=
                                   default 0%nat (set !! strings_Join originalPath ".")]> set
                               !! strings_Join originalPath "."))]>
                       (<[strings_Join (originalPath ++ [Sprintf_d v]) "." :=
                            default 0%nat (set !! strings_Join originalPath ".")]> set))
               !! strings_Join (originalPath ++ [Sprintf_d v]) ".")) :: an),
           (Sprintf_d v :: ao), set'.
    rewrite <- !app_assoc. split_and!; [done|by constructor|constructor; [by eexists|done]| |].
    + etrans; [|exact Hdom]. case_bool_decide; [done|]. rewrite !dom_insert. set_solver.
    + intros [[? ?] _]%Forall_cons. done.
  - destruct (IH set (newPath ++ [v]) (originalPath ++ [v]))
      as (an & ao & set' & -> & Ho & Hn & Hdom & Hstr).
    exists (v :: an), (v :: ao), set'. rewrite <- !app_assoc.
    split_and!; [done|by constructor|by constructor|done|].
    intros [_ Hk]%Forall_cons. destruct (Hstr Hk) as [-> ->]. done.
Qed.

(** X30: the rewritten path has a segment for every key of the original,
    the same text where the key is a name and a number where it is an index;
    the original path is the keys joined by dots; the keys already in the
    index map stay in it; and a path without indices is returned as it is,
    the map untouched. *)
Theorem getPath_shape (keys : list pathKey) (set : gmap string nat) :
  ∃ newPath originalPath,
    (getPath keys set).1 = (strings_Join newPath ".", strings_Join originalPath ".")
    ∧ Forall2 (fun k seg => match k with
                            | KStr v => seg = v
                            | KInt v => seg = Sprintf_d v
                            end) keys originalPath
    ∧ Forall2 (fun k seg => match k with
                            | KStr v => seg = v
                            | KInt _ => ∃ n, seg = Sprintf_d n
                            end) keys newPath
    ∧ dom set ⊆ dom (getPath keys set).2
    ∧ (Forall (fun k => ∃ v, k = KStr v) keys →
       newPath = originalPath ∧ (getPath keys set).2 = set).
Proof.
  unfold getPath.
  destruct (getPath_loop_shape keys set [] []) as (an & ao & set' & -> & Ho & Hn & Hdom & Hstr).
  cbn [app fst snd]. by exists an, ao.
Qed.

(** * Worked examples *)

Import Demo.

(** ** Schema gate *)

(** C6, as stated, fails when a context of another credential does not load:
    the degree credential meets the schema condition, yet the gate returns
    nothing for the list. *)
Lemma filterSchema_drops_accepted_credential :
  ¬ (degreeCredential ∈ filterSchema [degreeSchema] [degreeCredential; strayCredential]
     ↔ schemaAccepts [degreeSchema] degreeCredential).
Proof.
  intros [_ Hin].
  assert (schemaAccepts [degreeSchema] degreeCredential) as Hacc.
  { apply schemaGate_true. by vm_compute. }
  apply Hin in Hacc. vm_compute in Hacc. by apply elem_of_nil in Hacc.
Qed.

Lemma filterSchema_accepts_witness :
  (∃ accept : Credential.t → bool,
     (∀ c, accept c = true ↔ schemaAccepts [degreeSchema] c)
     ∧ filterSchema [degreeSchema] [degreeCredential] = List.filter accept [degreeCredential])
  ∧ filterSchema [degreeSchema] [degreeCredential; strayCredential] = [].
Proof.
  split.
  - apply (filterSchema_accepts [degreeSchema] [degreeCredential]).
    apply Forall_singleton. unfold contextsLoad. apply Forall_singleton. by eexists.
  - apply (filterSchema_accepts [degreeSchema] [degreeCredential; strayCredential]).
    right. left. intros Hl. inversion Hl as [|? ? [? Hs] _]. by vm_compute in Hs.
Defined.

(** ** Field filter *)

(** C4, as stated, fails for a path with a wildcard: no degree lists a
    school, the path has no match, its evaluation gives the empty list and no
    error, and the field, which has no filter, is applicable. *)
Lemma filterField_wildcard_without_match :
  jsonpath_Get "$.credentialSubject.degree[*].degreeSchool" diplomaDoc = Some (JArr [])
  ∧ filterField schoolField diplomaDoc = None
  ∧ filterField schoolField diplomaDoc ≠ Some errPathNotApplicable.
Proof. by split_and!; [vm_compute..|]. Qed.

(** The first path of the field has no match and errs, the second is let
    through by the filter; with another constant in the filter the value is
    found invalid and the field is not applicable. *)
Example filterField_paths_in_order_witness :
  filterField degreeTypeField credentialDoc = None
  ∧ filterField masterField credentialDoc = Some errPathNotApplicable.
Proof.
  split.
  - eapply (proj1 (filterField_paths_in_order degreeTypeField credentialDoc)
              ["$.credentialSubject.diploma"] "$.credentialSubject.degree" []
              (JStr "BachelorDegree")).
    + reflexivity.
    + apply Forall_singleton. by left.
    + reflexivity.
    + right. by eexists _, _.
  - eapply (proj1 (proj2 (filterField_paths_in_order masterField credentialDoc))
              [] "$.credentialSubject.degree"); [reflexivity | constructor | reflexivity |].
    eexists. split; [reflexivity|]. right. eexists. by split_and!.
Defined.

(** ** Requirement tree builder *)

Example toRequirement_wellBuilt_witness :
  toRequirement srGroupA [descriptorDegree] = inr leafGroupA
  ∧ wellBuilt [descriptorDegree] leafGroupA.
Proof.
  split; [reflexivity|].
  apply (toRequirement_wellBuilt srGroupA [descriptorDegree] leafGroupA). reflexivity.
Defined.

Example makeRequirement_children_witness :
  makeRequirement [srGroupA] [descriptorDegree] = inr branchGroupA
  ∧ makeRequirementsForMatch [srGroupA] [descriptorDegree]
    = inr (requirement.Nested branchGroupA).
Proof.
  split; [reflexivity|].
  destruct (makeRequirement_children [srGroupA] [descriptorDegree] branchGroupA eq_refl)
    as (_ & _ & Hchildren).
  by apply Hchildren.
Defined.

(** ** Requirement evaluator *)

(** C2: the definition asks for all of group [A], whose one descriptor wants
    a degree; the wallet holds a passport.  The child of the branch returns
    the no-credentials error, the branch returns an empty result with no
    error, and the assembler makes of it a presentation without credentials
    and without descriptor map; the same descriptor asked without submission
    requirements gives the no-credentials error. *)
Theorem unmet_branch_returns_empty_result :
  makeRequirement (PresentationDefinition.SubmissionRequirements pdGroupA)
    (PresentationDefinition.InputDescriptors pdGroupA) = inr branchGroupA
  ∧ Forall (fun r => applyRequirement pdGroupA r [credential2] = inl ErrNoCredentials)
      (requirement.Nested branchGroupA)
  ∧ applyRequirement pdGroupA branchGroupA [credential2] = inr (FormatLDPVP, ∅)
  ∧ merge FormatLDPVP ∅ [credential2] = Some ([credential2], [], [])
  ∧ makeRequirement (PresentationDefinition.SubmissionRequirements pdDegreeOnly)
      (PresentationDefinition.InputDescriptors pdDegreeOnly) = inr leafDegree
  ∧ applyRequirement pdDegreeOnly leafDegree [credential2] = inl ErrNoCredentials.
Proof.
  split_and!; [reflexivity| |by vm_compute..].
  apply Forall_singleton. by vm_compute.
Qed.

(** C7, as stated, fails when two descriptors share an id: both match the
    credential, two matched descriptors meet the count of two, and the
    evaluation returns the no-credentials error, the two having been filed
    under one key. *)
Lemma leaf_same_id_counted_once :
  makeRequirement (PresentationDefinition.SubmissionRequirements pdSameID)
    (PresentationDefinition.InputDescriptors pdSameID) = inr leafSameID
  ∧ len (List.filter (matched pdSameID [credential1])
           (requirement.InputDescriptors leafSameID)) = requirement.Count leafSameID
  ∧ requirement.Min leafSameID = 0 ∧ requirement.Max leafSameID = 0
  ∧ Forall (pipelineSucceeds pdSameID [credential1]) (requirement.InputDescriptors leafSameID)
  ∧ applyRequirement pdSameID leafSameID [credential1] = inl ErrNoCredentials.
Proof.
  split_and!; [reflexivity|by vm_compute|reflexivity|reflexivity| |by vm_compute].
  repeat constructor; eexists; by vm_compute.
Qed.

Example leaf_no_credentials_iff_witness :
  let matchedIDs : gset string :=
    list_to_set (InputDescriptor.ID
                   <$> List.filter (matched pdDefault [credential1])
                         (requirement.InputDescriptors leafA)) in
  let n := Z.of_nat (size matchedIDs) in
  let cardinality :=
    (requirement.Count leafA > 0 → n = requirement.Count leafA)
    ∧ (requirement.Min leafA > 0 → requirement.Min leafA ≤ n)
    ∧ (requirement.Max leafA > 0 → n ≤ requirement.Max leafA) in
  (Forall (pipelineSucceeds pdDefault [credential1]) (requirement.InputDescriptors leafA) →
   (applyRequirement pdDefault leafA [credential1] = inl ErrNoCredentials ↔ ¬ cardinality)
   ∧ (cardinality →
      ∃ vpFormat result,
        applyRequirement pdDefault leafA [credential1] = inr (vpFormat, result)))
  ∧ (NoDup (InputDescriptor.ID <$> requirement.InputDescriptors leafA) →
     n = len (List.filter (matched pdDefault [credential1])
                (requirement.InputDescriptors leafA)))
  ∧ (∀ msg, firstFailure pdDefault [credential1] (requirement.InputDescriptors leafA) msg →
       applyRequirement pdDefault leafA [credential1] = inl (ErrFilter msg)).
Proof. apply (leaf_no_credentials_iff pdDefault leafA [credential1]). done. Defined.

(** Two descriptors and no submission requirements: [a] asks for a degree,
    [b] for nothing; the evaluator returns the first credential for [a] and
    both for [b]. *)
Example evaluation_two_descriptors :
  ∃ req,
    makeRequirement (PresentationDefinition.SubmissionRequirements pdTwoDescriptors)
      (PresentationDefinition.InputDescriptors pdTwoDescriptors) = inr req
    ∧ applyRequirement pdTwoDescriptors req [credential1; credential2]
      = inr (FormatLDPVP, {["a" := [credential1]; "b" := [credential1; credential2]]}).
Proof. eexists. split; [reflexivity|]. by vm_compute. Qed.

Example leaf_vp_format_witness :
  applyRequirement pdDefault leafA [credential1] = inr (FormatLDPVP, bucketA)
  ∧ (Forall (fun d => ∃ l, filterCredentialsThatMatchDescriptor pdDefault [credential1] d
                           = inr ("", l)) (requirement.InputDescriptors leafA) →
     FormatLDPVP = FormatLDPVP).
Proof.
  split; [by vm_compute|].
  apply (leaf_vp_format pdDefault leafA [credential1] FormatLDPVP bucketA);
    [done | by vm_compute].
Defined.

Example leaf_buckets_witness :
  applyRequirement pdDefault leafA [credential1] = inr (FormatLDPVP, bucketA)
  ∧ ∀ id l, bucketA !! id = Some l →
      l ≠ [] ∧ ∃ d f, d ∈ requirement.InputDescriptors leafA ∧ InputDescriptor.ID d = id
                      ∧ filterCredentialsThatMatchDescriptor pdDefault [credential1] d
                        = inr (f, l).
Proof.
  split; [by vm_compute|].
  apply (leaf_buckets pdDefault leafA [credential1] FormatLDPVP bucketA);
    [done | by vm_compute].
Defined.

(** The definition has a frame and the credential carries no proof: framing
    fails, and with it the pipeline of the descriptor and the evaluation. *)
Example descriptor_error_aborts_witness :
  makeRequirement (PresentationDefinition.SubmissionRequirements pdFramed)
    (PresentationDefinition.InputDescriptors pdFramed) = inr leafDegree
  ∧ Credential.Proofs credential1 = []
  ∧ ∃ msg, frameCreds (PresentationDefinition.Frame pdFramed) [credential1] = inl msg
           ∧ applyRequirement pdFramed leafDegree [credential1] = inl (ErrFilter msg).
Proof.
  split_and!; [reflexivity..|]. eexists. split; [reflexivity|].
  apply (descriptor_error_aborts pdFramed leafDegree [credential1] [] [] descriptorDegree).
  - reflexivity.
  - constructor.
  - reflexivity.
Defined.

Example branch_result_from_children_witness :
  applyRequirement pdDefault branchA [credential1] = inr (FormatLDPVP, bucketA)
  ∧ ∀ key, key ∈ dom bucketA
      ↔ ∃ r f res, r ∈ [leafA] ∧ applyRequirement pdDefault r [credential1] = inr (f, res)
                   ∧ key ∈ dom res.
Proof.
  split; [by vm_compute|].
  apply (branch_result_from_children pdDefault [credential1] "" "" "" 1 0 0 [leafA]
           FormatLDPVP bucketA).
  by vm_compute.
Defined.

Example applyRequirement_sound_witness :
  ∃ d f l, d ∈ leafDescriptors branchA ∧ InputDescriptor.ID d = "a"
           ∧ filterCredentialsThatMatchDescriptor pdDefault [credential1] d = inr (f, l)
           ∧ credential1 ∈ l.
Proof.
  apply (applyRequirement_sound pdDefault branchA [credential1] FormatLDPVP bucketA
           "a" [credential1] credential1).
  - by vm_compute.
  - by vm_compute.
  - by left.
Defined.

Example matchRequirement_report_witness :
  matchRequirement pdDefault leafA [credential1] = inr reportLeafA
  ∧ Forall2 (reported pdDefault [credential1]) (requirement.InputDescriptors leafA)
      (MatchedSubmissionRequirement.Descriptors reportLeafA).
Proof.
  split; [by vm_compute|].
  apply (matchRequirement_report pdDefault leafA [credential1] reportLeafA).
  by vm_compute.
Defined.


(** ** Submission assembler *)

(** C1: two descriptors, [a] matched by the first credential and [b] by both.
    The walk emits the credentials at positions 0 and 1, and locates the
    second one for [b] at [$.verifiableCredential[2]]. *)
Theorem merge_nested_path_out_of_range :
  merge FormatLDPVP {["a" := [0%nat]; "b" := [0%nat; 1%nat]]} [credential1; credential2]
  = Some ([credential1; credential2], [0%nat; 1%nat],
          [mapping "a" FormatLDPVP FormatLDPVC 0;
           mapping "b" FormatLDPVP FormatLDPVC 0;
           mapping "b" FormatLDPVP FormatLDPVC 2]).
Proof. by vm_compute. Qed.

(** The reshaped credential is emitted, under the id it had before the
    transient marker was appended. *)
Lemma trimTmpID_tmpID_and_emitted_ids_witness :
  merge FormatLDPVP {["a" := [0%nat]]} [tmpCredential]
  = Some ([setID tmpCredential "urn:uuid:7"], [0%nat], [mapping "a" FormatLDPVP FormatLDPVC 0])
  ∧ trimTmpID (tmpID "urn:uuid:7" "0b1c") = "urn:uuid:7"
  ∧ ∃ h' res descs,
      merge FormatLDPVP {["a" := [0%nat]]} [tmpCredential] = Some (h', res, descs) ∧
      (∀ p, p ∈ res →
         (∃ k l, ({["a" := [0%nat]]} : gmap string (list ptr)) !! k = Some l ∧ p ∈ l)
         ∧ ∃ c0 c, [tmpCredential] !! p = Some c0 ∧ h' !! p = Some c
                   ∧ Credential.ID c = trimTmpID (Credential.ID c0)
                   ∧ strings_Contains (Credential.ID c) tmpEnding = false)
      ∧ (∀ k l p, ({["a" := [0%nat]]} : gmap string (list ptr)) !! k = Some l → p ∈ l →
           ∃ c0 c q cq, [tmpCredential] !! p = Some c0 ∧ h' !! p = Some c
                        ∧ Credential.ID c = trimTmpID (Credential.ID c0)
                        ∧ strings_Contains (Credential.ID c) tmpEnding = false
                        ∧ q ∈ res ∧ h' !! q = Some cq
                        ∧ Credential.ID cq = Credential.ID c).
Proof.
  split; [by vm_compute|].
  apply (trimTmpID_tmpID_and_emitted_ids "urn:uuid:7" "0b1c" FormatLDPVP
           {["a" := [0%nat]]} [tmpCredential]); [reflexivity|].
  apply map_Forall_singleton. repeat constructor.
Defined.

Example merge_descriptor_map_witness :
  merge FormatLDPVP bucketsAB [credential1; credential2]
  = Some ([credential1; credential2], [0%nat; 1%nat],
          [mapping "a" FormatLDPVP FormatLDPVC 0;
           mapping "b" FormatLDPVP FormatLDPVC 0;
           mapping "b" FormatLDPVP FormatLDPVC 2])
  ∧ Forall (mappingShape FormatLDPVP)
      [mapping "a" FormatLDPVP FormatLDPVC 0;
       mapping "b" FormatLDPVP FormatLDPVC 0;
       mapping "b" FormatLDPVP FormatLDPVC 2].
Proof.
  split; [by vm_compute|].
  apply (merge_descriptor_map FormatLDPVP bucketsAB [credential1; credential2]
           [credential1; credential2] [0%nat; 1%nat]).
  by vm_compute.
Defined.

Example merge_emitted_witness :
  merge FormatLDPVP bucketsAB [credential1; credential2]
  = Some ([credential1; credential2], [0%nat; 1%nat],
          [mapping "a" FormatLDPVP FormatLDPVC 0;
           mapping "b" FormatLDPVP FormatLDPVC 0;
           mapping "b" FormatLDPVP FormatLDPVC 2])
  ∧ NoDup [0%nat; 1%nat].
Proof.
  split; [by vm_compute|].
  apply (merge_emitted FormatLDPVP bucketsAB [credential1; credential2]
           [credential1; credential2] [0%nat; 1%nat]
           [mapping "a" FormatLDPVP FormatLDPVC 0;
            mapping "b" FormatLDPVP FormatLDPVC 0;
            mapping "b" FormatLDPVP FormatLDPVC 2]).
  by vm_compute.
Defined.

(** ** Selective-disclosure reshaper *)

(** C8: the field asks the name of the third degree as a predicate, and
    nothing asks for limited disclosure, so the credential is reshaped on its
    own document.  The field is applicable; the match, at
    [credentialSubject.degree.2.name], is renumbered to
    [credentialSubject.degree.0.name], and [true] is written there: the
    emitted credential has [true] for the name of the first degree and still
    holds the name of the third. *)
Theorem predicate_write_misses_match :
  marshalCredential diplomaCredential = diplomaDoc
  ∧ filterField phdNameField diplomaDoc = None
  ∧ getJSONPaths (Field.Path phdNameField) diplomaDoc
    = Some [("credentialSubject.degree.0.name", "credentialSubject.degree.2.name")]
  ∧ createNewCredential phdConstraints diplomaDoc diplomaDoc diplomaCredential
    = Some (inr emittedDiploma)
  ∧ filterConstraints (Some phdConstraints) [diplomaCredential]
    = inr [setID emittedDiploma (tmpID (Credential.ID emittedDiploma) uuid)]
  ∧ gjson_Get (marshalCredential emittedDiploma) "credentialSubject.degree.2.name"
    = JStr "PhD"
  ∧ gjson_Get (marshalCredential emittedDiploma) "credentialSubject.degree.0.name"
    = JBool true.
Proof. by split_and!; vm_compute. Qed.
